(** * create_icon.py: the application icon generator

    A shallow embedding of the script: binary64 arithmetic as Python
    computes it, bitmaps as rows of RGBA pixels updated in place, the
    drawing loops as folds in an exception monad, and [main] as a
    state-passing run over a file system with a log of its effects. *)

From Stdlib Require Import ZArith Ascii String Lia SpecFloat Reals Lra Psatz.
From stdpp Require Import base gmap list strings pretty.

Open Scope Z_scope.

(** ** Exceptions *)

Inductive exn :=
  | ValueError
  | OverflowError
  | ZeroDivisionError
  | IndexError
  | FileNotFoundError
  | FileExistsError
  | NotADirectoryError
  | IsADirectoryError
  | UnidentifiedImageError.

Inductive result (A : Type) :=
  | Ok (a : A)
  | Raise (e : exn).
Arguments Ok {A} a.
Arguments Raise {A} e.

#[global] Instance result_ret : MRet result := @Ok.
#[global] Instance result_bind : MBind result :=
  fun A B f m => match m with Ok a => f a | Raise e => Raise e end.

(** [for x in xs: acc = body(acc, x)], stopping at the first exception. *)
Fixpoint for_each {A S : Type} (xs : list A) (body : S -> A -> result S) (s : S)
  : result S :=
  match xs with
  | [] => Ok s
  | x :: xs' => s' ← body s x; for_each xs' body s'
  end.

(** [range(n)] *)
Definition range (n : Z) : list Z := seqZ 0 n.

(** ** Python floats: IEEE 754 binary64 *)

Module Float.

Definition prec : Z := 53.
Definition emax : Z := 1024.
Abbreviation float := spec_float.

(** [float(n)] for an int: the nearest binary64 (ties to even);
    OverflowError when the int is too large. *)
Definition of_int (n : Z) : result float :=
  match binary_normalize prec emax n 0 false with
  | S754_infinity _ => Raise OverflowError
  | f => Ok f
  end.

Definition mul : float -> float -> float := SFmul prec emax.
Definition sub : float -> float -> float := SFsub prec emax.
Definition sqrt : float -> float := SFsqrt prec emax.

(** The float literals of the script, as the parser rounds them. *)
Definition lit_0_02 : float := S754_finite false 5764607523034235 (-58).
Definition lit_0_18 : float := S754_finite false 6485183463413514 (-55).
Definition lit_0_7 : float := S754_finite false 6305039478318694 (-53).

(** [a / b] on ints: the correctly rounded quotient. *)
Definition true_div (a b : Z) : result float :=
  match a, b with
  | _, Z0 => Raise ZeroDivisionError
  | Z0, _ => Ok (S754_zero (b <? 0))
  | Zpos ma, Zpos mb =>
      Ok (SFdiv prec emax (S754_finite false ma 0) (S754_finite false mb 0))
  | Zpos ma, Zneg mb =>
      Ok (SFdiv prec emax (S754_finite false ma 0) (S754_finite true mb 0))
  | Zneg ma, Zpos mb =>
      Ok (SFdiv prec emax (S754_finite true ma 0) (S754_finite false mb 0))
  | Zneg ma, Zneg mb =>
      Ok (SFdiv prec emax (S754_finite true ma 0) (S754_finite true mb 0))
  end.

(** [n * x] and [x * n] with [n] an int. *)
Definition int_mul (n : Z) (x : float) : result float :=
  f ← of_int n; Ok (mul f x).
Definition mul_int (x : float) (n : Z) : result float :=
  f ← of_int n; Ok (mul x f).

(** [n - x] with [n] an int. *)
Definition int_sub (n : Z) (x : float) : result float :=
  f ← of_int n; Ok (sub f x).

(** [int(x)]: truncation toward zero. *)
Definition to_int (x : float) : result Z :=
  match x with
  | S754_zero _ => Ok 0
  | S754_infinity _ => Raise OverflowError
  | S754_nan => Raise ValueError
  | S754_finite s m e =>
      let a := match e with
               | Z0 => Zpos m
               | Zpos p => Zpos m * 2 ^ e
               | Zneg p => Zpos m / 2 ^ Zpos p
               end in
      Ok (if s then - a else a)
  end.

(** [math.sqrt(n)] with [n] an int. *)
Definition sqrt_int (n : Z) : result float :=
  if n <? 0 then Raise ValueError else f ← of_int n; Ok (sqrt f).

(** [x <= n] with [n] an int: Python compares the exact values. *)
Definition le_int (x : float) (n : Z) : bool :=
  match x with
  | S754_zero _ => 0 <=? n
  | S754_infinity s => s
  | S754_nan => false
  | S754_finite s m e =>
      let a := if s then Zneg m else Zpos m in
      match e with
      | Z0 => a <=? n
      | Zpos p => a * 2 ^ e <=? n
      | Zneg p => a <=? n * 2 ^ Zpos p
      end
  end.

End Float.

(** ** Bitmaps *)

Definition pixel : Type := Z * Z * Z * Z.

Record Image := mkImage {
  width : Z;
  height : Z;
  rows : list (list pixel)
}.

Definition INT_MAX : Z := 2147483647.

(** [Image.new('RGBA', (w, h), color)]; a dimension is a C int. *)
Definition Image_new (w h : Z) (color : pixel) : result Image :=
  if (w <? 0) || (h <? 0) then Raise ValueError
  else if (INT_MAX <? w) || (INT_MAX <? h) then Raise OverflowError
  else Ok (mkImage w h (replicate (Z.to_nat h) (replicate (Z.to_nat w) color))).

(** [img.putpixel((x, y), v)]: in place; a negative coordinate counts
    from the far edge, and anything still outside is an IndexError. *)
Definition putpixel (img : Image) (xy : Z * Z) (v : pixel) : result Image :=
  let x := if xy.1 <? 0 then width img + xy.1 else xy.1 in
  let y := if xy.2 <? 0 then height img + xy.2 else xy.2 in
  if (x <? 0) || (width img <=? x) || (y <? 0) || (height img <=? y)
  then Raise IndexError
  else Ok (mkImage (width img) (height img)
             (alter (fun row => <[Z.to_nat x := v]> row) (Z.to_nat y) (rows img))).

(** The pixel stored at column [x] of row [y], if there is one. *)
Definition getpixel (img : Image) (x y : Z) : option pixel :=
  if (x <? 0) || (y <? 0) then None
  else row ← rows img !! Z.to_nat y; row !! Z.to_nat x.

(** ** create_rounded_gradient *)

Definition transparent : pixel := (0, 0, 0, 0).

(** The corner test of the inner loop: is (x, y) inside the rounded
    rectangle? *)
Definition in_rect (size margin radius x y : Z) : result bool :=
  if (x <? margin + radius) && (y <? margin + radius) then
    dist ← Float.sqrt_int ((x - margin - radius) ^ 2 + (y - margin - radius) ^ 2);
    Ok (Float.le_int dist radius)
  else if (size - margin - radius - 1 <? x) && (y <? margin + radius) then
    dist ← Float.sqrt_int ((x - (size - margin - radius - 1)) ^ 2
                           + (y - margin - radius) ^ 2);
    Ok (Float.le_int dist radius)
  else if (x <? margin + radius) && (size - margin - radius - 1 <? y) then
    dist ← Float.sqrt_int ((x - margin - radius) ^ 2
                           + (y - (size - margin - radius - 1)) ^ 2);
    Ok (Float.le_int dist radius)
  else if (size - margin - radius - 1 <? x) && (size - margin - radius - 1 <? y) then
    dist ← Float.sqrt_int ((x - (size - margin - radius - 1)) ^ 2
                           + (y - (size - margin - radius - 1)) ^ 2);
    Ok (Float.le_int dist radius)
  else if (x <? margin) || (size - margin <=? x) || (y <? margin) || (size - margin <=? y)
  then Ok false
  else Ok true.

(** [int(base - ratio * span)] *)
Definition channel (base : Z) (ratio : Float.float) (span : Z) : result Z :=
  t ← Float.mul_int ratio span;
  c ← Float.int_sub base t;
  Float.to_int c.

(** The colour of row [y]. *)
Definition row_color (size y : Z) : result pixel :=
  ratio ← Float.true_div y size;
  r ← channel 235 ratio 45;
  g ← channel 145 ratio 35;
  b ← channel 65 ratio 25;
  Ok (r, g, b, 255).

(** The body of the inner loop, for one [x]. *)
Definition draw_pixel (size margin radius y : Z) (color : pixel)
    (img : Image) (x : Z) : result Image :=
  inside ← in_rect size margin radius x y;
  if (inside : bool) then putpixel img (x, y) color else Ok img.

(** The body of the outer loop, for one [y]. *)
Definition draw_row (size margin radius : Z) (img : Image) (y : Z) : result Image :=
  color ← row_color size y;
  for_each (range size) (draw_pixel size margin radius y color) img.

Definition create_rounded_gradient_with (size : Z) (radius_ratio : Float.float)
  : result Image :=
  img ← Image_new size size transparent;
  margin ← Float.int_mul size Float.lit_0_02 ≫= Float.to_int;
  radius ← Float.int_mul size radius_ratio ≫= Float.to_int;
  for_each (range size) (draw_row size margin radius) img.

(** [create_rounded_gradient(size)], [radius_ratio] at its default. *)
Definition create_rounded_gradient (size : Z) : result Image :=
  create_rounded_gradient_with size Float.lit_0_18.

(** ** The manifest

    The dict literal of [main]: the records of its "images" list and its
    "info" entry. *)

Module Entry.
Record t := mk {
  filename : string;
  idiom : string;
  scale : string;
  size : string
}.
End Entry.

Record manifest := mkManifest {
  images : list Entry.t;
  info_author : string;
  info_version : Z
}.

(** ** The libraries the script calls

    Pillow's decoder, resampling filter, alpha compositing and PNG
    encoder, and the [json] serialiser, are not code of this repository:
    the script is verified for whatever functions they are. *)

Class Runtime := {
  (** [Image.open(f).convert('RGBA')] on the bytes of [f] *)
  image_decode : list Byte.byte -> result Image;
  (** the pixel at (x, y) of [img.resize((w, h), LANCZOS)] *)
  resample : Image -> Z -> Z -> Z -> Z -> pixel;
  (** one pixel of [paste]: mask pixel, destination pixel, source pixel *)
  blend : pixel -> pixel -> pixel -> pixel;
  (** the bytes of [img.save(path)] for a .png path *)
  png_encode : Image -> list Byte.byte;
  (** the bytes of [json.dump(value, f, indent=2)] *)
  json_dump : manifest -> list Byte.byte
}.

(** ** The file system and the effects of a run *)

Inductive event :=
  | EvMkdir (path : string)
  | EvSave (path : string)
  | EvPrint (line : string).

Record world := mkWorld {
  files : gmap string (list Byte.byte);
  dirs : gset string;
  log : list event
}.

(** A computation that reads and changes the world and may raise; what
    was done before an exception stays done. *)
Definition io (A : Type) : Type := world -> result A * world.

#[global] Instance io_ret : MRet io := fun A a w => (Ok a, w).
#[global] Instance io_bind : MBind io :=
  fun A B f m w =>
    match m w with
    | (Ok a, w') => f a w'
    | (Raise e, w') => (Raise e, w')
    end.

Definition lift {A : Type} (r : result A) : io A := fun w => (r, w).

Fixpoint io_for {A : Type} (xs : list A) (body : A -> io unit) : io unit :=
  match xs with
  | [] => mret tt
  | x :: xs' => _ ← body x; io_for xs' body
  end.

(** [os.path.dirname]: what precedes the last slash, if there is one. *)
Fixpoint dirname (path : string) : option string :=
  match path with
  | EmptyString => None
  | String c rest =>
      match dirname rest with
      | Some d => Some (String c d)
      | None => if Ascii.eqb c "/"%char then Some EmptyString else None
      end
  end.

(** A path and the directories above it, the outermost first. *)
Fixpoint ancestors (fuel : nat) (path : string) : list string :=
  match fuel with
  | O => [path]
  | S fuel' =>
      match dirname path with
      | Some d => if String.eqb d "" then [path] else ancestors fuel' d ++ [path]
      | None => [path]
      end
  end.

(** Is [path] inside a directory that exists? A path with no slash is
    in the working directory. *)
Definition parent_is_dir (w : world) (path : string) : bool :=
  match dirname path with
  | Some d => String.eqb d "" || bool_decide (d ∈ dirs w)
  | None => true
  end.

Definition parent_is_file (w : world) (path : string) : bool :=
  match dirname path with
  | Some d => bool_decide (is_Some (files w !! d))
  | None => false
  end.

(** [open(path, 'rb').read()] *)
Definition read_file (path : string) : io (list Byte.byte) := fun w =>
  match files w !! path with
  | Some data => (Ok data, w)
  | None =>
      (Raise (if bool_decide (path ∈ dirs w) then IsADirectoryError
              else FileNotFoundError), w)
  end.

(** Create or replace the file at [path]. *)
Definition write_file (path : string) (data : list Byte.byte) : io unit := fun w =>
  if bool_decide (path ∈ dirs w) then (Raise IsADirectoryError, w)
  else if parent_is_file w path then (Raise NotADirectoryError, w)
  else if negb (parent_is_dir w path) then (Raise FileNotFoundError, w)
  else (Ok tt, mkWorld (<[path := data]> (files w)) (dirs w) (log w ++ [EvSave path])).

(** One step of [os.makedirs(path, exist_ok=True)]. *)
Definition mkdir_exist_ok (path : string) : io unit := fun w =>
  if bool_decide (path ∈ dirs w) then (Ok tt, w)
  else if bool_decide (is_Some (files w !! path)) then (Raise FileExistsError, w)
  else if parent_is_file w path then (Raise NotADirectoryError, w)
  else if negb (parent_is_dir w path) then (Raise FileNotFoundError, w)
  else (Ok tt, mkWorld (files w) ({[path]} ∪ dirs w) (log w ++ [EvMkdir path])).

Definition makedirs (path : string) : io unit :=
  io_for (ancestors (String.length path) path) mkdir_exist_ok.

Definition print (line : string) : io unit := fun w =>
  (Ok tt, mkWorld (files w) (dirs w) (log w ++ [EvPrint line])).

(** ** create_icon and main *)

Section Script.

Context `{Runtime}.

(** [img.resize((w, h), Image.Resampling.LANCZOS)]: a new bitmap. *)
Definition resize (img : Image) (w h : Z) : Image :=
  mkImage w h (map (fun y => map (fun x => resample img w h x y) (range w)) (range h)).

(** [dst.paste(src, (x0, y0), mask)]: in place, clipped to [dst]. *)
Definition paste (dst src : Image) (box : Z * Z) (mask : Image) : result Image :=
  if negb ((width mask =? width src) && (height mask =? height src))
  then Raise ValueError
  else Ok (mkImage (width dst) (height dst)
             (imap (fun j row =>
                imap (fun i px =>
                  match getpixel src (Z.of_nat i - box.1) (Z.of_nat j - box.2),
                        getpixel mask (Z.of_nat i - box.1) (Z.of_nat j - box.2) with
                  | Some s, Some m => blend m px s
                  | _, _ => px
                  end) row) (rows dst))).

Definition create_icon (size : Z) (pawn_img : Image) : result Image :=
  img ← create_rounded_gradient size;
  pawn_size ← Float.int_mul size Float.lit_0_7 ≫= Float.to_int;
  let pawn_resized := resize pawn_img pawn_size pawn_size in
  let offset := (size - pawn_size) `div` 2 in
  paste img pawn_resized (offset, offset) pawn_resized.

(** [Image.open(path).convert('RGBA')] *)
Definition Image_open (path : string) : io Image :=
  data ← read_file path; lift (image_decode data).

(** [img.save(path)] *)
Definition save (img : Image) (path : string) : io unit :=
  write_file path (png_encode img).

Definition pawn_path : string := "/tmp/pawn.png".
Definition sizes : list Z := [16; 32; 64; 128; 256; 512; 1024].
Definition icon_dir : string := "LichessApp/Assets.xcassets/AppIcon.appiconset".

(** [f"{icon_dir}/icon_{size}x{size}.png"] *)
Definition icon_name (size : Z) : string :=
  "icon_" +:+ pretty size +:+ "x" +:+ pretty size +:+ ".png".
Definition icon_path (size : Z) : string := icon_dir +:+ "/" +:+ icon_name size.

Definition manifest_path : string := icon_dir +:+ "/Contents.json".

Definition contents : manifest :=
  mkManifest
    [ Entry.mk "icon_16x16.png" "mac" "1x" "16x16";
      Entry.mk "icon_32x32.png" "mac" "2x" "16x16";
      Entry.mk "icon_32x32.png" "mac" "1x" "32x32";
      Entry.mk "icon_64x64.png" "mac" "2x" "32x32";
      Entry.mk "icon_128x128.png" "mac" "1x" "128x128";
      Entry.mk "icon_256x256.png" "mac" "2x" "128x128";
      Entry.mk "icon_256x256.png" "mac" "1x" "256x256";
      Entry.mk "icon_512x512.png" "mac" "2x" "256x256";
      Entry.mk "icon_512x512.png" "mac" "1x" "512x512";
      Entry.mk "icon_1024x1024.png" "mac" "2x" "512x512" ]
    "xcode" 1.

(** The body of the size loop. *)
Definition make_icon (pawn : Image) (size : Z) : io unit :=
  icon ← lift (create_icon size pawn);
  _ ← save icon (icon_path size);
  print ("Created " +:+ pretty size +:+ "x" +:+ pretty size).

Definition main : io unit :=
  pawn ← Image_open pawn_path;
  _ ← makedirs icon_dir;
  _ ← io_for sizes (make_icon pawn);
  _ ← write_file manifest_path (json_dump contents);
  print "Done!".

End Script.

(** ** The real value of a float

    Rounding errors are stated over the reals: [B2R x] is the number a
    finite float stands for, and [eps] bounds the relative error of one
    rounding of a number in the normal range. *)

Definition bpow (e : Z) : R := powerRZ 2 e.

Definition B2R (x : Float.float) : R :=
  match x with
  | S754_finite s m e => IZR (cond_Zopp s (Zpos m)) * bpow e
  | _ => 0
  end.

Definition eps : R := bpow (-52).

(** A positive float with a full 53-bit mantissa [m] and exponent [e]. *)
Definition pnormal (x : Float.float) (m : positive) (e : Z) : Prop :=
  x = S754_finite false m e /\ digits2_pos m = 53%positive.

(** ** Specification vocabulary for bitmaps *)

(** A bitmap whose rows match its declared dimensions. *)
Definition image_wf (img : Image) : Prop :=
  0 <= width img /\ 0 <= height img
  /\ length (rows img) = Z.to_nat (height img)
  /\ Forall (fun row => length row = Z.to_nat (width img)) (rows img).

(** Does the corner test put (x, y) inside the rounded rectangle? *)
Definition is_inside (size margin radius x y : Z) : bool :=
  match in_rect size margin radius x y with
  | Ok inside => inside
  | Raise _ => false
  end.

(** What the two loops leave at (x, y): the colour of row [y] inside the
    rounded rectangle, the initial transparent pixel outside. *)
Definition gradient_pixel (size margin radius x y : Z) : pixel :=
  if is_inside size margin radius x y then
    match row_color size y with
    | Ok color => color
    | Raise _ => transparent
    end
  else transparent.

(** Where [create_icon] pastes the pawn: the square that starts at
    (offset, offset) and has side [pawn_size]. *)
Definition in_box (offset pawn_size x y : Z) : bool :=
  (offset <=? x) && (x <? offset + pawn_size)
  && (offset <=? y) && (y <? offset + pawn_size).

(** The channels of a pixel. *)
Definition red (p : pixel) : Z := p.1.1.1.
Definition green (p : pixel) : Z := p.1.1.2.
Definition blue (p : pixel) : Z := p.1.2.
Definition alpha (p : pixel) : Z := p.2.

(** ** Specification vocabulary for a run *)

(** The paths a run saved files to, in order. *)
Definition saved_paths (events : list event) : list string :=
  omap (fun ev => match ev with EvSave path => Some path | _ => None end) events.

Definition is_mkdir (ev : event) : Prop :=
  match ev with EvMkdir _ => True | _ => False end.

(** The effects of one turn of the size loop. *)
Definition icon_events (size : Z) : list event :=
  [EvSave (icon_path size);
   EvPrint ("Created " +:+ pretty size +:+ "x" +:+ pretty size)].

(** The files the script produces. *)
Definition output_paths : list string := map icon_path sizes ++ [manifest_path].

(** A world in which nothing stands in the way of the outputs: no file
    where a directory is needed, no directory where a file is written. *)
Definition outputs_free (w : world) : Prop :=
  Forall (fun d => files w !! d = None) (ancestors (String.length icon_dir) icon_dir)
  /\ Forall (fun p => p ∉ dirs w) output_paths.

(** ** A runtime to run examples with

    A stand-in for the libraries: a decoder that yields one pixel, the
    nearest-neighbour filter, compositing by mask threshold, and
    encoders that write raw bytes. *)

Definition byte_of_Z (z : Z) : Byte.byte :=
  default Byte.x00 (Byte.of_N (Z.to_N (z `mod` 256))).

Definition example_runtime : Runtime := {|
  image_decode := fun data =>
    Ok (mkImage 1 1 [[(Z.of_nat (length data), 0, 0, 255)]]);
  resample := fun img w h x y =>
    default transparent (getpixel img (x * width img `div` w) (y * height img `div` h));
  blend := fun m dst src => if alpha m =? 0 then dst else src;
  png_encode := fun img =>
    flat_map (flat_map (fun p => map byte_of_Z [red p; green p; blue p; alpha p]))
             (rows img);
  json_dump := fun m =>
    flat_map (fun e => list_byte_of_string (Entry.filename e)) (images m)
|}.

(** A world with the source image in place and nothing else. *)
Definition example_world : world :=
  mkWorld {[pawn_path := [Byte.x89; Byte.x50; Byte.x4e; Byte.x47]]} {["/tmp"%string]} [].

(** The source image the example decoder yields for [example_world]. *)
Definition example_pawn : Image := mkImage 1 1 [[(4, 0, 0, 255)]].

(** Another world with the same source image: an unrelated file, a
    directory of the output path already there, an earlier log line. *)
Definition other_world : world :=
  mkWorld (<["notes.txt"%string := [Byte.x68; Byte.x69]]> (files example_world))
          ({["LichessApp"%string]} ∪ dirs example_world)
          [EvPrint "earlier"].

(** ** Specification vocabulary for the shape and for partial runs *)

(** The rounded rectangle in integer arithmetic: the branches of
    [in_rect], each distance test as a comparison of squares. *)
Definition in_rounded_rect (size margin radius x y : Z) : bool :=
  if (x <? margin + radius) && (y <? margin + radius) then
    (x - margin - radius) ^ 2 + (y - margin - radius) ^ 2 <=? radius ^ 2
  else if (size - margin - radius - 1 <? x) && (y <? margin + radius) then
    (x - (size - margin - radius - 1)) ^ 2 + (y - margin - radius) ^ 2 <=? radius ^ 2
  else if (x <? margin + radius) && (size - margin - radius - 1 <? y) then
    (x - margin - radius) ^ 2 + (y - (size - margin - radius - 1)) ^ 2 <=? radius ^ 2
  else if (size - margin - radius - 1 <? x) && (size - margin - radius - 1 <? y) then
    (x - (size - margin - radius - 1)) ^ 2 + (y - (size - margin - radius - 1)) ^ 2
    <=? radius ^ 2
  else (margin <=? x) && (x <? size - margin) && (margin <=? y) && (y <? size - margin).

(** The alpha channel [create_rounded_gradient] leaves at a pixel. *)
Definition mask_alpha (inside : bool) : Z := if inside then 255 else 0.

(** How far (x, y) is from the nearest edge of a [size] x [size] bitmap. *)
Definition edge_distance (size x y : Z) : Z :=
  Z.min (Z.min x (size - 1 - x)) (Z.min y (size - 1 - y)).

(** Does every pixel of the box the pawn is pasted into pass the corner
    test of the background? *)
Definition box_inside (size : Z) : bool :=
  match Float.int_mul size Float.lit_0_02 ≫= Float.to_int,
        Float.int_mul size Float.lit_0_18 ≫= Float.to_int,
        Float.int_mul size Float.lit_0_7 ≫= Float.to_int with
  | Ok margin, Ok radius, Ok pawn_size =>
      forallb (fun y => forallb (fun x =>
        implb (in_box ((size - pawn_size) `div` 2) pawn_size x y)
              (is_inside size margin radius x y))
        (range size)) (range size)
  | _, _, _ => false
  end.

(** What a computation may do to the world, whatever its outcome: write
    files at [paths] only and delete none, create directories among
    [ds] only and remove none, and add to the log. *)
Definition confined (paths ds : list string) (w w' : world) : Prop :=
  (forall p, p ∉ paths -> files w' !! p = files w !! p)
  /\ (forall p, is_Some (files w !! p) -> is_Some (files w' !! p))
  /\ (forall d, d ∈ dirs w -> d ∈ dirs w')
  /\ (forall d, d ∈ dirs w' -> d ∈ dirs w \/ d ∈ ds)
  /\ exists new, log w' = log w ++ new.

(** A computation that stays within [paths] and [ds] from every world. *)
Definition keeps {A : Type} (paths ds : list string) (m : io A) : Prop :=
  forall w, confined paths ds w (m w).2.

(** A decoder that refuses what does not start like a PNG file. *)
Definition picky_runtime : Runtime := {|
  image_decode := fun data =>
    match data with
    | Byte.x89 :: _ => Ok (mkImage 1 1 [[(Z.of_nat (length data), 0, 0, 255)]])
    | _ => Raise UnidentifiedImageError
    end;
  resample := @resample example_runtime;
  blend := @blend example_runtime;
  png_encode := @png_encode example_runtime;
  json_dump := @json_dump example_runtime
|}.

(** A world whose source file is not an image. *)
Definition corrupt_world : world :=
  mkWorld {[pawn_path := [Byte.x00]]} {["/tmp"%string]} [].

(** A world in which a directory sits where the second icon is to be
    written. *)
Definition blocked_world : world :=
  mkWorld (files example_world) ({[icon_path 32]} ∪ dirs example_world) [].

(** * Proofs *)

(** ** Rounding: the error of one binary64 operation

    Every operation rounds an exact result [m * 2^e], given with at
    least 53 bits, to the nearest float; in the normal range the float
    returned is within a factor [1 +- eps] of the exact result. *)

Section Rounding.

Import Float.

Lemma digits2_size p : digits2_pos p = Pos.size p.
Proof. induction p; simpl; congruence. Qed.

Lemma digits2_bounds p :
  2 ^ (Zpos (digits2_pos p) - 1) <= Zpos p < 2 ^ Zpos (digits2_pos p).
Proof.
  rewrite digits2_size. split.
  - pose proof (Pos.size_le p) as Hle.
    assert (Zpos (2 ^ Pos.size p) <= Zpos p~0) as Hz by exact Hle.
    rewrite Pos2Z.inj_pow in Hz.
    replace (Zpos (Pos.size p)) with (Z.succ (Zpos (Pos.size p) - 1)) in Hz by lia.
    rewrite Z.pow_succ_r in Hz by lia. lia.
  - pose proof (Pos.size_gt p) as Hgt.
    assert (Zpos p < Zpos (2 ^ Pos.size p)) as Hz by exact Hgt.
    now rewrite Pos2Z.inj_pow in Hz.
Qed.

Lemma digits2_unique p d :
  2 ^ (d - 1) <= Zpos p < 2 ^ d -> Zpos (digits2_pos p) = d.
Proof.
  intros [Hlo Hhi]. pose proof (digits2_bounds p) as [Hl Hh].
  assert (0 < d) as Hd.
  { destruct (Z.lt_trichotomy d 0) as [Hneg|[->|Hpos]]; [|simpl in Hhi; lia|easy].
    rewrite Z.pow_neg_r in Hhi; lia. }
  destruct (Z.lt_trichotomy (Zpos (digits2_pos p)) d) as [Hlt|[Heq|Hgt]]; [|easy|].
  - assert (2 ^ Zpos (digits2_pos p) <= 2 ^ (d - 1)) by (apply Z.pow_le_mono_r; lia). lia.
  - assert (2 ^ d <= 2 ^ (Zpos (digits2_pos p) - 1)) by (apply Z.pow_le_mono_r; lia). lia.
Qed.

Lemma shr_1_m mrs : 0 <= shr_m mrs -> shr_m (shr_1 mrs) = shr_m mrs / 2.
Proof.
  destruct mrs as [m r s]. simpl. intros Hm.
  destruct m as [|[p|p|]|p]; try lia; try reflexivity.
  - change (Zpos p = Zpos p~1 / 2). apply Z.div_unique with 1; lia.
  - change (Zpos p = Zpos p~0 / 2). apply Z.div_unique with 0; lia.
Qed.

Lemma iter_pos_shr_1_m p : forall mrs,
  0 <= shr_m mrs -> shr_m (SpecFloat.iter_pos shr_1 p mrs) = shr_m mrs / 2 ^ Zpos p.
Proof.
  assert (Hnn : forall mrs, 0 <= shr_m mrs -> 0 <= shr_m (shr_1 mrs)).
  { intros mrs Hm. rewrite shr_1_m by easy. apply Z.div_pos; lia. }
  induction p as [p IH|p IH|]; intros mrs Hm; simpl.
  - rewrite IH, IH, shr_1_m; auto.
    + rewrite !Z.div_div by lia. f_equal.
      replace (Zpos p~1) with (1 + Zpos p + Zpos p) by lia.
      rewrite !Z.pow_add_r by lia. ring.
    + rewrite IH, shr_1_m by auto. apply Z.div_pos; [apply Z.div_pos|]; lia.
  - rewrite IH, IH; auto.
    + rewrite Z.div_div by lia. f_equal.
      replace (Zpos p~0) with (Zpos p + Zpos p) by lia.
      rewrite Z.pow_add_r by lia. ring.
    + rewrite IH by auto. apply Z.div_pos; lia.
  - rewrite shr_1_m by auto. now rewrite Z.pow_1_r.
Qed.

Lemma round_nearest_even_range m l :
  m <= round_nearest_even m l <= m + 1.
Proof. destruct l as [|[]]; simpl; try lia. destruct (Z.even m); lia. Qed.


Lemma bpow_pos e : (0 < bpow e)%R.
Proof. apply powerRZ_lt. lra. Qed.

Lemma bpow_add a b : bpow (a + b) = (bpow a * bpow b)%R.
Proof. apply powerRZ_add. lra. Qed.

Lemma bpow_IZR n : 0 <= n -> bpow n = IZR (2 ^ n).
Proof.
  intros Hn. unfold bpow.
  rewrite <- (Z2Nat.id n) by easy.
  now rewrite <- pow_powerRZ, <- pow_IZR.
Qed.

Lemma bpow_IZR' p : bpow (Zpos p) = IZR (2 ^ Zpos p).
Proof. apply bpow_IZR. lia. Qed.

Lemma bpow_neg_inv p : (bpow (Zneg p) * IZR (2 ^ Zpos p) = 1)%R.
Proof.
  rewrite <- bpow_IZR, <- bpow_add by lia.
  replace (Zneg p + Zpos p) with 0 by lia. reflexivity.
Qed.

Lemma eps_spec : (eps * IZR (2 ^ 52) = 1)%R.
Proof.
  unfold eps. rewrite <- (bpow_IZR 52) by lia.
  rewrite <- bpow_add. reflexivity.
Qed.

Lemma eps_pos : (0 < eps)%R.
Proof. apply bpow_pos. Qed.

Lemma fexp_normal k : -1021 <= k -> fexp prec emax k = k - 53.
Proof. unfold fexp, emin, prec, emax. lia. Qed.

Lemma Zdigits2_pos_bounds m :
  0 < m -> 2 ^ (Zdigits2 m - 1) <= m < 2 ^ Zdigits2 m.
Proof. destruct m as [|p|p]; try lia. intros _. apply digits2_bounds. Qed.

Lemma Zdigits2_unique m d :
  2 ^ (d - 1) <= m < 2 ^ d -> 0 < m -> Zdigits2 m = d.
Proof. destruct m as [|p|p]; try lia. intros Hb _. now apply digits2_unique. Qed.

Lemma shr_fexp_first mx ex l :
  0 < mx -> 53 <= Zdigits2 mx -> -1021 <= Zdigits2 mx + ex ->
  exists mrs, shr_fexp prec emax mx ex l = (mrs, Zdigits2 mx + ex - 53)
              /\ shr_m mrs = mx / 2 ^ (Zdigits2 mx - 53).
Proof.
  intros Hm Hd Hr. unfold shr_fexp. rewrite fexp_normal by easy.
  assert (Hrec : shr_m (shr_record_of_loc mx l) = mx) by (destruct l as [|[]]; reflexivity).
  replace (Zdigits2 mx + ex - 53 - ex) with (Zdigits2 mx - 53) by lia.
  unfold shr. destruct (Zdigits2 mx - 53) as [|p|p] eqn:Hn; try lia.
  - eexists; split; [f_equal; lia|]. rewrite Hrec. now rewrite Z.div_1_r.
  - eexists; split; [f_equal; lia|]. rewrite iter_pos_shr_1_m; rewrite Hrec; [easy|lia].
Qed.

Lemma shr_fexp_second m e :
  2 ^ 52 <= m <= 2 ^ 53 -> -1074 <= e ->
  exists mrs e', shr_fexp prec emax m e loc_Exact = (mrs, e')
    /\ 2 ^ 52 <= shr_m mrs < 2 ^ 53 /\ e <= e' <= e + 1
    /\ shr_m mrs * 2 ^ (e' - e) = m.
Proof.
  intros Hm He. unfold shr_fexp.
  destruct (Z.eq_dec m (2 ^ 53)) as [->|Hne].
  - change (Zdigits2 (2 ^ 53)) with 54. rewrite fexp_normal by lia.
    replace (54 + e - 53 - e) with 1 by lia. simpl.
    eexists _, _; split; [reflexivity|]. simpl. repeat split; try lia.
    replace (e + 1 - e) with 1 by lia. reflexivity.
  - assert (Hd : Zdigits2 m = 53) by (apply Zdigits2_unique; simpl in *; lia).
    rewrite Hd, fexp_normal by lia. replace (53 + e - 53 - e) with 0 by lia. simpl.
    eexists _, _; split; [reflexivity|]. simpl. repeat split; try lia.
    replace (e - e) with 0 by lia. lia.
Qed.


Lemma binary_round_aux_normal s mx ex l :
  0 < mx -> 53 <= Zdigits2 mx -> -1021 <= Zdigits2 mx + ex <= 1023 ->
  exists m' e',
    binary_round_aux prec emax s mx ex l = S754_finite s m' e'
    /\ digits2_pos m' = 53%positive
    /\ Zdigits2 mx + ex - 53 <= e' <= Zdigits2 mx + ex - 52
    /\ (IZR (Zpos m') * bpow e' * (1 - eps) <= IZR mx * bpow ex)%R
    /\ (IZR (mx + 1) * bpow ex <= IZR (Zpos m') * bpow e' * (1 + eps))%R.
Proof.
  intros Hm Hd Hr.
  destruct (shr_fexp_first mx ex l Hm Hd) as (mrs1 & E1 & Hq); [lia|].
  set (n := Zdigits2 mx - 53) in *. set (e1 := Zdigits2 mx + ex - 53) in *.
  set (q := shr_m mrs1) in *.
  pose proof (Zdigits2_pos_bounds mx Hm) as [Hlo Hhi].
  assert (Hn : 0 <= n) by (unfold n; lia).
  assert (HP : 0 < 2 ^ n) by (apply Z.pow_pos_nonneg; lia).
  assert (Hlo' : 2 ^ 52 * 2 ^ n <= mx).
  { rewrite <- Z.pow_add_r by lia. replace (52 + n) with (Zdigits2 mx - 1) by (unfold n; lia). easy. }
  assert (Hhi' : mx < 2 ^ 53 * 2 ^ n).
  { rewrite <- Z.pow_add_r by lia. replace (53 + n) with (Zdigits2 mx) by (unfold n; lia). easy. }
  assert (Hq1 : q * 2 ^ n <= mx) by (rewrite Hq, Z.mul_comm; apply Z.mul_div_le; lia).
  assert (Hq2 : mx < (q + 1) * 2 ^ n).
  { rewrite Hq, Z.mul_comm. apply Z.mul_succ_div_gt. lia. }
  assert (Hqr : 2 ^ 52 <= q < 2 ^ 53) by (split; nia).
  pose proof (round_nearest_even_range q (loc_of_shr_record mrs1)) as Hm1.
  set (m1 := round_nearest_even q (loc_of_shr_record mrs1)) in *.
  destruct (shr_fexp_second m1 e1) as (mrs2 & e2 & E2 & Hm2 & He2 & Hv); [lia|unfold e1; lia|].
  unfold binary_round_aux. rewrite E1. fold q. fold m1. rewrite E2.
  destruct (shr_m mrs2) as [|m'|m'] eqn:Hm'; try lia.
  assert (Hle : (e2 <=? emax - prec) = true) by (apply Z.leb_le; unfold emax, prec, e1 in *; lia).
  rewrite Hle. exists m', e2. split; [reflexivity|].
  split. { apply (f_equal Z.to_pos (x := Zpos (digits2_pos m')) (y := 53)).
           apply digits2_unique. simpl in *. lia. }
  split. { unfold e1 in *. lia. }
  assert (HV : (IZR (Zpos m') * bpow e2 = IZR m1 * IZR (2 ^ n) * bpow ex)%R).
  { replace e2 with ((e2 - e1) + (n + ex)) by (unfold e1, n; lia).
    rewrite !bpow_add, (bpow_IZR (e2 - e1)), (bpow_IZR n) by lia.
    rewrite <- Hv, mult_IZR. ring. }
  rewrite HV.
  pose proof (bpow_pos ex) as HB. pose proof eps_spec as Heps. pose proof eps_pos as Hep.
  assert (HPr : (1 <= IZR (2 ^ n))%R) by (apply IZR_le; lia).
  assert (Hm1r : (IZR (2 ^ 52) <= IZR m1)%R) by (apply IZR_le; lia).
  assert (Hme : (1 <= IZR m1 * eps)%R) by nra.
  assert (Hq1r : (IZR q * IZR (2 ^ n) <= IZR mx)%R) by (rewrite <- mult_IZR; apply IZR_le; lia).
  assert (Hq2r : (IZR (mx + 1) <= (IZR q + 1) * IZR (2 ^ n))%R).
  { rewrite <- (plus_IZR q 1), <- mult_IZR. apply IZR_le. lia. }
  assert (Hm1a : (IZR q <= IZR m1)%R) by (apply IZR_le; lia).
  assert (Hm1b : (IZR m1 <= IZR q + 1)%R) by (rewrite <- (plus_IZR q 1); apply IZR_le; lia).
  set (X := (IZR (2 ^ n) * bpow ex)%R).
  assert (HX : (0 < X)%R) by (unfold X; nra).
  assert (HqX : (IZR q * X <= IZR mx * bpow ex)%R).
  { unfold X. rewrite <- Rmult_assoc. apply Rmult_le_compat_r; lra. }
  assert (HqX' : (IZR (mx + 1) * bpow ex <= (IZR q + 1) * X)%R).
  { unfold X. rewrite <- Rmult_assoc. apply Rmult_le_compat_r; lra. }
  assert (HeX : (0 <= (IZR m1 * eps - 1) * X)%R) by (apply Rmult_le_pos; lra).
  assert (Ha : (0 <= (IZR m1 - IZR q) * X)%R) by (apply Rmult_le_pos; lra).
  assert (Hb : (0 <= (IZR q + 1 - IZR m1) * X)%R) by (apply Rmult_le_pos; lra).
  replace (IZR m1 * IZR (2 ^ n) * bpow ex)%R with (IZR m1 * X)%R by (unfold X; ring).
  clearbody X. clear - HqX HqX' HeX Ha Hb.
  split; nra.
Qed.


Lemma Zdigits2_ge m k : 2 ^ (k - 1) <= m -> 0 < m -> k <= Zdigits2 m.
Proof.
  intros Hk Hm. pose proof (Zdigits2_pos_bounds m Hm) as [_ Hhi].
  destruct (Z.le_gt_cases k (Zdigits2 m)) as [|Hgt]; [easy|].
  assert (2 ^ Zdigits2 m <= 2 ^ (k - 1)) by (apply Z.pow_le_mono_r; lia). lia.
Qed.

Lemma Zdigits2_le m k : m < 2 ^ k -> 0 < m -> 0 <= k -> Zdigits2 m <= k.
Proof.
  intros Hk Hm Hk0. pose proof (Zdigits2_pos_bounds m Hm) as [Hlo _].
  destruct (Z.le_gt_cases (Zdigits2 m) k) as [|Hgt]; [easy|].
  assert (2 ^ k <= 2 ^ (Zdigits2 m - 1)) by (apply Z.pow_le_mono_r; lia). lia.
Qed.

Lemma iter_xO_value m k : Zpos (Pos.iter xO m k) = Zpos m * 2 ^ Zpos k.
Proof.
  change (Pos.iter xO m k) with (shift_pos k m).
  rewrite shift_pos_correct. change (Z.pow_pos 2 k) with (2 ^ Zpos k). ring.
Qed.

(** Aligning a mantissa to a smaller exponent keeps the value. *)
Lemma shl_align_value m e e' :
  e' <= e -> shl_align m e e' = (Z.to_pos (Zpos m * 2 ^ (e - e')), e').
Proof.
  intros Hle. unfold shl_align.
  destruct (e' - e) as [|p|p] eqn:Hd; try lia.
  - replace (e - e') with 0 by lia. simpl. rewrite Pos.mul_1_r. f_equal. lia.
  - replace (e - e') with (Zpos p) by lia. rewrite <- iter_xO_value. reflexivity.
Qed.

Lemma shl_align_noop m e e' : e <= e' -> shl_align m e e' = (m, e).
Proof. intros Hle. unfold shl_align. destruct (e' - e) eqn:Hd; try reflexivity. lia. Qed.

Lemma binary_round_normal s mx ex :
  -1021 <= Zpos (digits2_pos mx) + ex <= 1023 ->
  exists m' e',
    binary_round prec emax s mx ex = S754_finite s m' e'
    /\ digits2_pos m' = 53%positive
    /\ Zpos (digits2_pos mx) + ex - 53 <= e' <= Zpos (digits2_pos mx) + ex - 52
    /\ (IZR (Zpos m') * bpow e' * (1 - eps) <= IZR (Zpos mx) * bpow ex)%R
    /\ (IZR (Zpos mx) * bpow ex <= IZR (Zpos m') * bpow e' * (1 + eps))%R.
Proof.
  intros Hr. unfold binary_round. rewrite fexp_normal by lia.
  set (d := Zpos (digits2_pos mx)) in *.
  pose proof (digits2_bounds mx) as [Hlo Hhi]. fold d in Hlo, Hhi.
  destruct (Z.le_gt_cases 53 d) as [Hd|Hd].
  - rewrite shl_align_noop by lia.
    destruct (binary_round_aux_normal s (Zpos mx) ex loc_Exact) as (m' & e' & E & D & He & H1 & H2);
      try (simpl; fold d; lia).
    exists m', e'. simpl in He. fold d in He. repeat split; try easy.
    eapply Rle_trans; [|exact H2]. apply Rmult_le_compat_r; [left; apply bpow_pos|].
    apply IZR_le. lia.
  - rewrite shl_align_value by lia.
    set (k := ex - (d + ex - 53)). assert (Hk : 0 < k) by (unfold k; lia).
    assert (HP : 0 < 2 ^ k) by (apply Z.pow_pos_nonneg; lia).
    set (mz := Zpos mx * 2 ^ k) in *. assert (Hmz : 0 < mz) by (unfold mz; lia).
    assert (Hdz : Zdigits2 mz = 53).
    { assert (E52 : 2 ^ (53 - 1) = 2 ^ (d - 1) * 2 ^ k).
      { rewrite <- Z.pow_add_r by lia. f_equal. unfold k. lia. }
      assert (E53 : 2 ^ 53 = 2 ^ d * 2 ^ k).
      { rewrite <- Z.pow_add_r by lia. f_equal. unfold k. lia. }
      apply Zdigits2_unique; [|easy]. rewrite E52, E53. unfold mz. split; nia. }
    destruct (binary_round_aux_normal s (Zpos (Z.to_pos mz)) (d + ex - 53) loc_Exact)
      as (m' & e' & E & D & He & H1 & H2); rewrite ?Z2Pos.id by easy; try lia.
    rewrite Z2Pos.id in * by easy. rewrite Hdz in He.
    assert (HV : (IZR mz * bpow (d + ex - 53) = IZR (Zpos mx) * bpow ex)%R).
    { unfold mz. rewrite mult_IZR, <- (bpow_IZR k) by lia.
      rewrite Rmult_assoc, <- bpow_add. f_equal. f_equal. unfold k. lia. }
    rewrite HV in H1.
    exists m', e'. repeat split; try easy; try lia.
    eapply Rle_trans; [|exact H2]. rewrite <- HV.
    apply Rmult_le_compat_r; [left; apply bpow_pos|]. apply IZR_le. lia.
Qed.

(** [float(n)] for a positive int in range. *)
Lemma of_int_normal n :
  0 < n < 2 ^ 1023 ->
  exists m e, of_int n = Ok (S754_finite false m e) /\ pnormal (S754_finite false m e) m e
    /\ Zdigits2 n - 53 <= e <= Zdigits2 n - 52
    /\ (IZR (Zpos m) * bpow e * (1 - eps) <= IZR n <= IZR (Zpos m) * bpow e * (1 + eps))%R.
Proof.
  intros [Hn Hhi]. destruct n as [|p|p]; try lia.
  assert (Hd : Zdigits2 (Zpos p) <= 1023) by (apply Zdigits2_le; lia).
  destruct (binary_round_normal false p 0) as (m & e & E & D & He & H1 & H2).
  { simpl in Hd. lia. }
  exists m, e. unfold of_int, binary_normalize. rewrite E.
  unfold bpow in H1, H2. simpl powerRZ in H1, H2. rewrite Rmult_1_r in H1, H2.
  split; [reflexivity|]. split; [now split|]. split; [simpl in *; lia|]. now split.
Qed.


Lemma pnormal_bounds x m e : pnormal x m e -> 2 ^ 52 <= Zpos m < 2 ^ 53.
Proof. intros [_ D]. pose proof (digits2_bounds m) as Hb. rewrite D in Hb. exact Hb. Qed.

Lemma pnormal_B2R x m e : pnormal x m e -> B2R x = (IZR (Zpos m) * bpow e)%R.
Proof. intros [-> _]. reflexivity. Qed.

Lemma pnormal_pos x m e : pnormal x m e -> (0 < B2R x)%R.
Proof.
  intros Hx. rewrite (pnormal_B2R _ _ _ Hx).
  apply Rmult_lt_0_compat; [apply IZR_lt; lia|apply bpow_pos].
Qed.

(** The product of two positive normal floats. *)
Lemma mul_normal x y mx ex my ey :
  pnormal x mx ex -> pnormal y my ey -> -1126 <= ex + ey <= 917 ->
  exists m e, pnormal (mul x y) m e
    /\ ex + ey + 52 <= e <= ex + ey + 54
    /\ (B2R (mul x y) * (1 - eps) <= B2R x * B2R y <= B2R (mul x y) * (1 + eps))%R.
Proof.
  intros Hx Hy Hr.
  pose proof (pnormal_bounds _ _ _ Hx) as Bx. pose proof (pnormal_bounds _ _ _ Hy) as By.
  rewrite (pnormal_B2R _ _ _ Hx), (pnormal_B2R _ _ _ Hy).
  destruct Hx as [-> Dx], Hy as [-> Dy]. unfold mul. simpl SFmul.
  assert (Hp : 2 ^ 104 <= Zpos (mx * my) < 2 ^ 106).
  { rewrite Pos2Z.inj_mul. change (2 ^ 104) with (2 ^ 52 * 2 ^ 52).
    change (2 ^ 106) with (2 ^ 53 * 2 ^ 53). split; nia. }
  assert (Hd1 : 105 <= Zdigits2 (Zpos (mx * my))) by (apply Zdigits2_ge; lia).
  assert (Hd2 : Zdigits2 (Zpos (mx * my)) <= 106) by (apply Zdigits2_le; lia).
  destruct (binary_round_aux_normal false (Zpos (mx * my)) (ex + ey) loc_Exact)
    as (m & e & E & D & He & H1 & H2); try lia.
  exists m, e. rewrite E. split; [now split|]. split; [lia|].
  simpl B2R. rewrite Pos2Z.inj_mul in H1, H2. rewrite mult_IZR, bpow_add in H1.
  split.
  - eapply Rle_trans; [exact H1|]. right. ring.
  - eapply Rle_trans; [|exact H2]. rewrite bpow_add.
    replace (IZR (Zpos mx) * bpow ex * (IZR (Zpos my) * bpow ey))%R
      with (IZR (Zpos mx * Zpos my) * (bpow ex * bpow ey))%R by (rewrite mult_IZR; ring).
    apply Rmult_le_compat_r.
    + left. apply Rmult_lt_0_compat; apply bpow_pos.
    + apply IZR_le. lia.
Qed.

(** [int(x)] of a positive finite float is the floor of its value. *)
Lemma to_int_floor m e :
  exists z, to_int (S754_finite false m e) = Ok z
    /\ (IZR z <= IZR (Zpos m) * bpow e < IZR z + 1)%R.
Proof.
  unfold to_int. destruct e as [|p|p].
  - exists (Zpos m). split; [reflexivity|]. unfold bpow. simpl. lra.
  - exists (Zpos m * 2 ^ Zpos p). split; [reflexivity|].
    rewrite mult_IZR, <- bpow_IZR by lia. lra.
  - exists (Zpos m / 2 ^ Zpos p). split; [reflexivity|].
    assert (HP : 0 < 2 ^ Zpos p) by (apply Z.pow_pos_nonneg; lia).
    pose proof (Z.mul_div_le (Zpos m) _ HP) as H1.
    pose proof (Z.mul_succ_div_gt (Zpos m) _ HP) as H2.
    set (z := Zpos m / 2 ^ Zpos p) in *.
    pose proof (bpow_neg_inv p) as Hb.
    assert (HPr : (0 < IZR (2 ^ Zpos p))%R) by (apply IZR_lt; lia).
    pose proof (bpow_pos (Zneg p)) as Hbp.
    apply IZR_le in H1. apply IZR_lt in H2.
    rewrite mult_IZR in H1. unfold Z.succ in H2. rewrite mult_IZR, plus_IZR in H2.
    set (P := IZR (2 ^ Zpos p)) in *. set (b := bpow (Zneg p)) in *.
    set (a := IZR (Zpos m)) in *. set (zr := IZR z) in *.
    clearbody P b a zr. clear - H1 H2 Hb HPr Hbp.
    assert (Ha : (zr = zr * (b * P))%R) by (rewrite Hb; ring).
    assert (Ha' : (zr + 1 = (zr + 1) * (b * P))%R) by (rewrite Hb; ring).
    split.
    + rewrite Ha. replace (zr * (b * P))%R with (P * zr * b)%R by ring.
      apply Rmult_le_compat_r; lra.
    + rewrite Ha'. replace ((zr + 1) * (b * P))%R with (P * (zr + 1) * b)%R by ring.
      apply Rmult_lt_compat_r; lra.
Qed.

(** [x <= n] for a positive finite float decides the order of the values. *)
Lemma le_int_spec m e n :
  le_int (S754_finite false m e) n = true <-> (IZR (Zpos m) * bpow e <= IZR n)%R.
Proof.
  unfold le_int. destruct e as [|p|p].
  - unfold bpow. simpl powerRZ. rewrite Rmult_1_r, Z.leb_le.
    split; [apply IZR_le|apply le_IZR].
  - rewrite Z.leb_le, bpow_IZR', <- mult_IZR.
    split; [apply IZR_le|apply le_IZR].
  - rewrite Z.leb_le.
    assert (HP : 0 < 2 ^ Zpos p) by (apply Z.pow_pos_nonneg; lia).
    pose proof (bpow_neg_inv p) as Hb.
    assert (HPr : (0 < IZR (2 ^ Zpos p))%R) by (apply IZR_lt; lia).
    pose proof (bpow_pos (Zneg p)) as Hbp.
    split; intros Hle.
    + apply IZR_le in Hle. rewrite mult_IZR in Hle.
      apply Rmult_le_reg_r with (IZR (2 ^ Zpos p)); [easy|].
      rewrite Rmult_assoc, Hb. lra.
    + apply le_IZR. rewrite mult_IZR.
      apply Rmult_le_compat_r with (r := IZR (2 ^ Zpos p)) in Hle; [|lra].
      rewrite Rmult_assoc, Hb in Hle. lra.
Qed.


Lemma eps_lt_1 : (eps < 1)%R.
Proof.
  pose proof eps_spec as H. pose proof eps_pos as Hp.
  assert (H2 : (2 <= IZR (2 ^ 52))%R) by (apply IZR_le; lia). nra.
Qed.

(** [a / b] for ints with 0 < a <= b. *)
Lemma true_div_normal a b :
  0 < a <= b -> b < 2 ^ 1000 ->
  exists m e, true_div a b = Ok (S754_finite false m e)
    /\ pnormal (S754_finite false m e) m e
    /\ Zdigits2 a - Zdigits2 b - 53 <= e <= Zdigits2 a - Zdigits2 b - 51
    /\ (IZR (Zpos m) * bpow e * (1 - eps) * IZR b <= IZR a
         <= IZR (Zpos m) * bpow e * (1 + eps) * IZR b)%R.
Proof.
  intros [Ha Hab] Hb.
  destruct a as [|pa|pa]; try lia. destruct b as [|pb|pb]; try lia.
  unfold true_div, SFdiv, SFdiv_core_binary.
  set (d1 := Zdigits2 (Zpos pa)). set (d2 := Zdigits2 (Zpos pb)).
  pose proof (Zdigits2_pos_bounds (Zpos pa) Ha) as [La Ua]. fold d1 in La, Ua.
  pose proof (Zdigits2_pos_bounds (Zpos pb)) as [Lb Ub]; [lia|]. fold d2 in Lb, Ub.
  assert (Hd1 : 1 <= d1) by (apply Zdigits2_ge; simpl; lia).
  assert (Hd2' : 1 <= d2) by (apply Zdigits2_ge; simpl; lia).
  assert (Hd12 : d1 <= d2) by (apply Zdigits2_le; lia).
  assert (Hd2 : d2 <= 1000) by (apply Zdigits2_le; lia).
  replace (d1 + 0 - (d2 + 0)) with (d1 - d2) by lia.
  rewrite fexp_normal by lia.
  replace (Z.min (d1 - d2 - 53) (0 - 0)) with (d1 - d2 - 53) by lia.
  set (sh := 0 - 0 - (d1 - d2 - 53)).
  assert (Hsh : 0 < sh) by (unfold sh; lia).
  destruct sh as [|ps|ps] eqn:Es; try lia. rewrite <- Es.
  rewrite Z.shiftl_mul_pow2 by lia.
  set (m' := Zpos pa * 2 ^ sh).
  destruct (Z.div_eucl m' (Zpos pb)) as [q r] eqn:Eq.
  assert (Hq : q = m' / Zpos pb) by (unfold Z.div; now rewrite Eq).
  assert (HP : 0 < 2 ^ sh) by (apply Z.pow_pos_nonneg; lia).
  assert (Hq1 : q * Zpos pb <= m') by (rewrite Hq, Z.mul_comm; apply Z.mul_div_le; lia).
  assert (Hq2 : m' < (q + 1) * Zpos pb).
  { rewrite Hq, Z.mul_comm. apply Z.mul_succ_div_gt. lia. }
  assert (E1 : 2 ^ (d1 - 1 + sh) = 2 ^ 52 * 2 ^ d2).
  { rewrite <- Z.pow_add_r by lia. f_equal. lia. }
  assert (E2 : 2 ^ (d1 + sh) = 2 ^ 54 * 2 ^ (d2 - 1)).
  { rewrite <- Z.pow_add_r by lia. f_equal. lia. }
  assert (Hm1 : 2 ^ 52 * 2 ^ d2 <= m').
  { rewrite <- E1, Z.pow_add_r by lia. unfold m'. nia. }
  assert (Hm2 : m' < 2 ^ 54 * 2 ^ (d2 - 1)).
  { rewrite <- E2, Z.pow_add_r by lia. unfold m'. nia. }
  assert (Hqr : 2 ^ 52 <= q < 2 ^ 54) by (split; nia).
  assert (Hdq1 : 53 <= Zdigits2 q) by (apply Zdigits2_ge; simpl in *; lia).
  assert (Hdq2 : Zdigits2 q <= 54) by (apply Zdigits2_le; lia).
  destruct (binary_round_aux_normal (xorb false false) q (d1 - d2 - 53)
              (new_location (Zpos pb) r))
    as (m & e & E & D & He & H1 & H2); try lia.
  rewrite E. exists m, e. split; [reflexivity|]. split; [now split|]. split; [lia|].
  assert (Hinv : (bpow (d1 - d2 - 53) * IZR (2 ^ sh) = 1)%R).
  { rewrite <- bpow_IZR, <- bpow_add by lia.
    replace (d1 - d2 - 53 + sh) with 0 by lia. reflexivity. }
  pose proof (bpow_pos (d1 - d2 - 53)) as HB.
  assert (Hbr : (0 < IZR (Zpos pb))%R) by (apply IZR_lt; lia).
  apply IZR_le in Hq1. apply IZR_lt in Hq2. unfold m' in Hq1, Hq2.
  rewrite !mult_IZR in Hq1, Hq2.
  set (V := (IZR (Zpos m) * bpow e)%R) in *.
  set (B := bpow (d1 - d2 - 53)) in *. set (P := IZR (2 ^ sh)) in *.
  set (A := IZR (Zpos pa)) in *. set (Bb := IZR (Zpos pb)) in *.
  set (Q := IZR q) in *. set (Q1 := IZR (q + 1)) in *.
  clearbody V B P A Bb Q Q1. clear - H1 H2 Hinv HB Hbr Hq1 Hq2.
  assert (EA : (A = A * P * B)%R) by (rewrite Rmult_assoc, (Rmult_comm P), Hinv; ring).
  split.
  - apply Rle_trans with (Q * B * Bb)%R; [apply Rmult_le_compat_r; lra|].
    rewrite EA. replace (Q * B * Bb)%R with (Q * Bb * B)%R by ring.
    apply Rmult_le_compat_r; lra.
  - apply Rle_trans with (Q1 * B * Bb)%R; [|apply Rmult_le_compat_r; lra].
    rewrite EA. replace (Q1 * B * Bb)%R with (Q1 * Bb * B)%R by ring.
    apply Rmult_le_compat_r; lra.
Qed.

(** The difference of two positive normal floats, the larger first. *)
Lemma sub_normal x y mx ex my ey :
  pnormal x mx ex -> pnormal y my ey -> (B2R y < B2R x)%R ->
  -1000 <= ex <= 900 -> -1000 <= ey <= 900 ->
  exists m e, pnormal (sub x y) m e
    /\ (B2R (sub x y) * (1 - eps) <= B2R x - B2R y <= B2R (sub x y) * (1 + eps))%R.
Proof.
  intros Hx Hy Hlt Hex Hey.
  pose proof (pnormal_bounds _ _ _ Hx) as Bx. pose proof (pnormal_bounds _ _ _ Hy) as By.
  rewrite (pnormal_B2R _ _ _ Hx), (pnormal_B2R _ _ _ Hy) in *.
  destruct Hx as [-> Dx], Hy as [-> Dy]. unfold sub. simpl SFsub.
  set (ez := Z.min ex ey).
  rewrite !shl_align_value by (unfold ez; lia). simpl fst.
  assert (Px : 0 < 2 ^ (ex - ez)) by (apply Z.pow_pos_nonneg; unfold ez; lia).
  assert (Py : 0 < 2 ^ (ey - ez)) by (apply Z.pow_pos_nonneg; unfold ez; lia).
  rewrite !Z2Pos.id by lia.
  set (ax := Zpos mx * 2 ^ (ex - ez)). set (ay := Zpos my * 2 ^ (ey - ez)).
  assert (Vx : (IZR ax * bpow ez = IZR (Zpos mx) * bpow ex)%R).
  { unfold ax. rewrite mult_IZR, <- bpow_IZR by (unfold ez; lia).
    rewrite Rmult_assoc, <- bpow_add. f_equal. f_equal. lia. }
  assert (Vy : (IZR ay * bpow ez = IZR (Zpos my) * bpow ey)%R).
  { unfold ay. rewrite mult_IZR, <- bpow_IZR by (unfold ez; lia).
    rewrite Rmult_assoc, <- bpow_add. f_equal. f_equal. lia. }
  pose proof (bpow_pos ez) as HB.
  assert (Hd : 0 < ax - ay).
  { apply Z.lt_0_sub. apply lt_IZR. apply Rmult_lt_reg_r with (bpow ez); [easy|].
    rewrite Vx, Vy. exact Hlt. }
  assert (Hay : 0 < ay) by (unfold ay; lia).
  assert (Hax : ax < 2 ^ (53 + (ex - ez))).
  { rewrite Z.pow_add_r by (unfold ez; lia). unfold ax. nia. }
  destruct (ax - ay) as [|pd|pd] eqn:Ed; try lia.
  unfold binary_normalize.
  assert (Hd1 : 1 <= Zdigits2 (Zpos pd)) by (apply Zdigits2_ge; simpl; lia).
  assert (Hd2 : Zdigits2 (Zpos pd) <= 53 + (ex - ez)).
  { apply Zdigits2_le; unfold ez in *; lia. }
  destruct (binary_round_normal false pd ez) as (m & e & E & D & He & H1 & H2).
  { simpl in Hd1, Hd2. unfold ez in *. lia. }
  rewrite E. exists m, e. split; [now split|]. simpl B2R.
  rewrite <- Vx, <- Vy, <- Rmult_minus_distr_r, <- minus_IZR, Ed. now split.
Qed.

(** The square root of a positive normal float. *)
Lemma sqrt_normal x mx ex :
  pnormal x mx ex -> -1000 <= ex <= 900 ->
  exists m e, pnormal (sqrt x) m e
    /\ ((B2R (sqrt x) * (1 - eps)) ^ 2 <= B2R x <= (B2R (sqrt x) * (1 + eps)) ^ 2)%R.
Proof.
  intros Hx Hex. pose proof (pnormal_bounds _ _ _ Hx) as Bx.
  rewrite (pnormal_B2R _ _ _ Hx). destruct Hx as [-> Dx].
  unfold sqrt. simpl SFsqrt. unfold SFsqrt_core_binary.
  simpl Zdigits2. rewrite Dx, !Z.div2_div.
  set (h := ex / 2).
  assert (Hh : 2 * h <= ex <= 2 * h + 1).
  { unfold h. pose proof (Z.mul_div_le ex 2). pose proof (Z.mul_succ_div_gt ex 2). lia. }
  replace ((53 + ex + 1) / 2) with (27 + h).
  2:{ unfold h. replace (53 + ex + 1) with (ex + 27 * 2) by lia.
      rewrite Z.div_add by lia. lia. }
  rewrite fexp_normal by lia.
  replace (Z.min (27 + h - 53) h) with (h - 26) by lia.
  set (sh := ex - 2 * (h - 26)).
  assert (Hsh : 52 <= sh <= 53) by (unfold sh; lia).
  destruct sh as [|ps|ps] eqn:Es; try lia. rewrite <- Es.
  rewrite Z.shiftl_mul_pow2 by lia.
  set (m' := Zpos mx * 2 ^ sh).
  assert (Hm' : 2 ^ 104 <= m' < 2 ^ 106).
  { unfold m'. destruct (Z.eq_dec sh 52) as [->|]; [|replace sh with 53 by lia]; simpl in *; lia. }
  pose proof (Z.sqrtrem_spec m') as Hs.
  destruct (Z.sqrtrem m') as [q r]. destruct Hs as [Hqr Hr]; [lia|].
  assert (Hq : 2 ^ 52 <= q < 2 ^ 53).
  { change (2 ^ 104) with (2 ^ 52 * 2 ^ 52) in Hm'. change (2 ^ 106) with (2 ^ 53 * 2 ^ 53) in Hm'.
    split; nia. }
  assert (Hdq : Zdigits2 q = 53) by (apply Zdigits2_unique; simpl in *; lia).
  destruct (binary_round_aux_normal false q (h - 26)
              (if r =? 0 then loc_Exact else loc_Inexact (if r <=? q then Lt else Gt)))
    as (m & e & E & D & He & H1 & H2); try lia.
  rewrite E. exists m, e. split; [now split|]. simpl B2R.
  assert (HX : (IZR (Zpos mx) * bpow ex = IZR m' * (bpow (h - 26)) ^ 2)%R).
  { unfold m'. rewrite mult_IZR, <- bpow_IZR by lia. simpl pow.
    rewrite Rmult_1_r, <- bpow_add, Rmult_assoc, <- bpow_add. f_equal. f_equal. lia. }
  rewrite HX.
  pose proof (bpow_pos (h - 26)) as HB. pose proof eps_lt_1 as He1. pose proof eps_pos as He0.
  assert (HV : (0 < IZR (Zpos m) * bpow e)%R).
  { apply Rmult_lt_0_compat; [apply IZR_lt; lia|apply bpow_pos]. }
  assert (Hq0 : (0 <= IZR q)%R) by (apply IZR_le; lia).
  assert (Hm1 : (IZR q * IZR q <= IZR m')%R) by (rewrite <- mult_IZR; apply IZR_le; lia).
  assert (Hm2 : (IZR m' <= IZR (q + 1) * IZR (q + 1))%R) by (rewrite <- mult_IZR; apply IZR_le; lia).
  assert (Hq1 : (0 <= IZR (q + 1))%R) by (apply IZR_le; lia).
  set (V := (IZR (Zpos m) * bpow e)%R) in *. set (B := bpow (h - 26)) in *.
  set (Q := IZR q) in *. set (Q1 := IZR (q + 1)) in *. set (M := IZR m') in *.
  clearbody V B Q Q1 M. clear - H1 H2 HB He1 He0 HV Hq0 Hq1 Hm1 Hm2.
  split.
  - apply Rle_trans with ((Q * B) ^ 2)%R.
    + apply pow_incr. split; [|easy]. apply Rmult_le_pos; lra.
    + replace ((Q * B) ^ 2)%R with (Q * Q * B ^ 2)%R by ring.
      apply Rmult_le_compat_r; [apply pow2_ge_0|easy].
  - apply Rle_trans with ((Q1 * B) ^ 2)%R.
    + replace ((Q1 * B) ^ 2)%R with (Q1 * Q1 * B ^ 2)%R by ring.
      apply Rmult_le_compat_r; [apply pow2_ge_0|easy].
    + apply pow_incr. split; [|easy]. apply Rmult_le_pos; lra.
Qed.

End Rounding.

(** ** The arithmetic of the script

    What the rounding lemmas give for the expressions the script
    computes: the margin and corner radius, the colour of a row, and the
    distance test at a corner. *)

Section Arith.
Import Float.

Lemma bind_Ok {A B} (a : A) (f : A -> result B) : (Ok a ≫= f) = f a.
Proof. reflexivity. Qed.

Lemma eps_val : eps = (/ 4503599627370496)%R.
Proof.
  pose proof eps_spec as H. change (2 ^ 52) with 4503599627370496 in H.
  apply Rmult_eq_reg_r with 4503599627370496%R; [|lra]. rewrite H. field.
Qed.

Lemma bpow_neg_val p : bpow (Zneg p) = (/ IZR (2 ^ Zpos p))%R.
Proof.
  pose proof (bpow_neg_inv p) as H.
  assert (HP : (0 < IZR (2 ^ Zpos p))%R).
  { apply IZR_lt. apply Z.pow_pos_nonneg; lia. }
  apply Rmult_eq_reg_r with (IZR (2 ^ Zpos p)); [|lra]. rewrite H. field. lra.
Qed.

Lemma INT_MAX_lt n : n <= INT_MAX -> n < 2 ^ 31.
Proof. unfold INT_MAX. change (2 ^ 31) with 2147483648. lia. Qed.

(** [int(n * c)] for a positive int and a positive float constant. *)
Lemma int_mul_floor n c mc ec :
  pnormal c mc ec -> -100 <= ec <= 0 -> 0 < n <= INT_MAX ->
  exists z, (int_mul n c ≫= to_int) = Ok z /\
    (IZR z * (1 - eps) * (1 - eps) <= IZR n * B2R c)%R /\
    (IZR n * B2R c < (IZR z + 1) * (1 + eps) * (1 + eps))%R.
Proof.
  intros Hc Hec [Hn Hmax]. apply INT_MAX_lt in Hmax.
  assert (H31 : 2 ^ 31 <= 2 ^ 1023) by (apply Z.pow_le_mono_r; lia).
  destruct (of_int_normal n) as (mn & en & En & Pn & Hen & Hn1 & Hn2); [lia|].
  assert (Hd1 : 1 <= Zdigits2 n) by (apply Zdigits2_ge; simpl; lia).
  assert (Hd2 : Zdigits2 n <= 31) by (apply Zdigits2_le; lia).
  destruct (mul_normal _ _ _ _ _ _ Pn Hc) as (m & e & Pm & He & Hm1 & Hm2); [lia|].
  destruct (to_int_floor m e) as (z & Ez & Hz1 & Hz2).
  destruct Pm as [Em _].
  exists z. split; [unfold int_mul; rewrite En, !bind_Ok, Em; exact Ez|].
  rewrite Em in Hm1, Hm2. simpl B2R in Hm1, Hm2.
  pose proof (pnormal_pos _ _ _ Hc) as Hcp.
  pose proof eps_pos as He0. pose proof eps_lt_1 as He1.
  set (V := (IZR (Zpos m) * bpow e)%R) in *. set (F := (IZR (Zpos mn) * bpow en)%R) in *.
  set (C := B2R c) in *. set (N := IZR n) in *. set (Z' := IZR z) in *.
  clearbody V F C N Z'. clear - Hn1 Hn2 Hm1 Hm2 Hz1 Hz2 Hcp He0 He1.
  split.
  - apply Rle_trans with (V * (1 - eps) * (1 - eps))%R.
    + apply Rmult_le_compat_r; [lra|]. apply Rmult_le_compat_r; lra.
    + apply Rle_trans with (F * C * (1 - eps))%R; [apply Rmult_le_compat_r; lra|].
      replace (F * C * (1 - eps))%R with (F * (1 - eps) * C)%R by ring.
      apply Rmult_le_compat_r; lra.
  - apply Rle_lt_trans with (F * (1 + eps) * C)%R; [apply Rmult_le_compat_r; lra|].
    apply Rle_lt_trans with (V * (1 + eps) * (1 + eps))%R.
    + replace (F * (1 + eps) * C)%R with (F * C * (1 + eps))%R by ring.
      apply Rmult_le_compat_r; lra.
    + apply Rmult_lt_compat_r; [lra|]. apply Rmult_lt_compat_r; lra.
Qed.

Lemma int_mul_zero c mc ec : pnormal c mc ec -> (int_mul 0 c ≫= to_int) = Ok 0.
Proof. intros [-> _]. reflexivity. Qed.


(** The literals are the correctly rounded decimals 2/100, 18/100 and
    7/10. *)
Lemma literals_rounded :
  true_div 2 100 = Ok lit_0_02 /\ true_div 18 100 = Ok lit_0_18
  /\ true_div 7 10 = Ok lit_0_7.
Proof. repeat split; vm_compute; reflexivity. Qed.

Lemma pnormal_lit_0_02 : pnormal lit_0_02 5764607523034235 (-58).
Proof. split; reflexivity. Qed.
Lemma pnormal_lit_0_18 : pnormal lit_0_18 6485183463413514 (-55).
Proof. split; reflexivity. Qed.
Lemma pnormal_lit_0_7 : pnormal lit_0_7 6305039478318694 (-53).
Proof. split; reflexivity. Qed.

Lemma B2R_lit_0_02 : B2R lit_0_02 = (5764607523034235 / 288230376151711744)%R.
Proof. unfold lit_0_02, B2R. rewrite bpow_neg_val. reflexivity. Qed.
Lemma B2R_lit_0_18 : B2R lit_0_18 = (6485183463413514 / 36028797018963968)%R.
Proof. unfold lit_0_18, B2R. rewrite bpow_neg_val. reflexivity. Qed.
Lemma B2R_lit_0_7 : B2R lit_0_7 = (6305039478318694 / 9007199254740992)%R.
Proof. unfold lit_0_7, B2R. rewrite bpow_neg_val. reflexivity. Qed.

(** The margin and the corner radius of a [size] x [size] icon. *)
Lemma margin_radius_ok size :
  0 <= size <= INT_MAX ->
  exists margin radius,
    (int_mul size lit_0_02 ≫= to_int) = Ok margin
    /\ (int_mul size lit_0_18 ≫= to_int) = Ok radius
    /\ 0 <= margin /\ 0 <= radius /\ 2 * (margin + radius) <= size
    /\ (6 <= size -> 1 <= radius).
Proof.
  intros [H0 Hmax]. destruct (Z.eq_dec size 0) as [->|Hne].
  { exists 0, 0. repeat split; try reflexivity; lia. }
  destruct (int_mul_floor size _ _ _ pnormal_lit_0_02) as (m & Em & Hm1 & Hm2); try lia.
  destruct (int_mul_floor size _ _ _ pnormal_lit_0_18) as (r & Er & Hr1 & Hr2); try lia.
  exists m, r. split; [exact Em|]. split; [exact Er|].
  rewrite B2R_lit_0_02 in *. rewrite B2R_lit_0_18 in *. rewrite eps_val in *.
  assert (Hs : (1 <= IZR size)%R) by (apply IZR_le; lia).
  split. { apply Z.lt_succ_r, lt_IZR. unfold Z.succ. rewrite plus_IZR. lra. }
  split. { apply Z.lt_succ_r, lt_IZR. unfold Z.succ. rewrite plus_IZR. lra. }
  split. { apply le_IZR. rewrite mult_IZR, plus_IZR. lra. }
  intros H6. apply IZR_le in H6.
  assert (Hr : (0 < IZR r)%R) by lra. apply lt_IZR in Hr. lia.
Qed.


(** [y / size] for a row of the bitmap: zero, or a normal float that is
    below 1 by a margin the later roundings cannot close. *)
Lemma ratio_ok y size :
  0 <= y < size -> size <= INT_MAX ->
  true_div y size = Ok (S754_zero false) \/
  exists ratio m e, true_div y size = Ok ratio /\ pnormal ratio m e
    /\ -84 <= e <= -51
    /\ (B2R ratio * (1 - eps) <= 1 - / 2147483648)%R.
Proof.
  intros [Hy Hlt] Hmax. destruct (Z.eq_dec y 0) as [->|Hne].
  { left. destruct size; try lia. reflexivity. }
  right. apply INT_MAX_lt in Hmax.
  assert (H31 : 2 ^ 31 <= 2 ^ 1000) by (apply Z.pow_le_mono_r; lia).
  destruct (true_div_normal y size) as (m & e & E & P & He & H1 & H2); try lia.
  assert (Hd1 : 1 <= Zdigits2 y) by (apply Zdigits2_ge; simpl; lia).
  assert (Hd2 : Zdigits2 y <= 31) by (apply Zdigits2_le; lia).
  assert (Hd3 : 1 <= Zdigits2 size) by (apply Zdigits2_ge; simpl; lia).
  assert (Hd4 : Zdigits2 size <= 31) by (apply Zdigits2_le; lia).
  assert (Hd5 : Zdigits2 y <= Zdigits2 size) by (apply Zdigits2_le; try lia;
    pose proof (Zdigits2_pos_bounds size); lia).
  exists (S754_finite false m e), m, e. split; [exact E|]. split; [exact P|].
  split; [lia|]. simpl B2R.
  assert (Hs1 : (1 <= IZR size)%R) by (apply IZR_le; lia).
  assert (Hs2 : (IZR size <= 2147483648)%R) by (apply IZR_le; change (2 ^ 31) with 2147483648 in Hmax; lia).
  assert (Hys : (IZR y <= IZR size - 1)%R) by (rewrite <- minus_IZR; apply IZR_le; lia).
  set (V := (IZR (Zpos m) * bpow e * (1 - eps))%R) in *.
  set (N := IZR size) in *. set (Y := IZR y) in *.
  clearbody V N Y. clear - H1 Hs1 Hs2 Hys.
  destruct (Rle_or_lt V (1 - / 2147483648)) as [|Hgt]; [easy|exfalso].
  assert (Hp : (0 < (V - (1 - / 2147483648)) * N)%R) by (apply Rmult_lt_0_compat; lra).
  lra.
Qed.

(** [int(base - ratio * span)] stays between [base - span] and [base]. *)
Lemma channel_range base span ratio :
  1 <= span -> span < base <= 255 ->
  (ratio = S754_zero false \/
   exists m e, pnormal ratio m e /\ -84 <= e <= -51
     /\ (B2R ratio * (1 - eps) <= 1 - / 2147483648)%R) ->
  exists z, channel base ratio span = Ok z /\ base - span <= z <= base.
Proof.
  intros Hs Hb Hr.
  assert (H8 : 2 ^ 8 <= 2 ^ 1023) by (apply Z.pow_le_mono_r; lia).
  change (2 ^ 8) with 256 in H8.
  destruct (of_int_normal span) as (ms & es & Es & Ps & Hes & Hs1 & Hs2); [lia|].
  destruct (of_int_normal base) as (mb & eb & Eb & Pb & Heb & Hb1 & Hb2); [lia|].
  assert (Hds1 : 1 <= Zdigits2 span) by (apply Zdigits2_ge; simpl; lia).
  assert (Hds2 : Zdigits2 span <= 8) by (apply Zdigits2_le; simpl; lia).
  assert (Hdb1 : 1 <= Zdigits2 base) by (apply Zdigits2_ge; simpl; lia).
  assert (Hdb2 : Zdigits2 base <= 8) by (apply Zdigits2_le; simpl; lia).
  assert (Hsr : (1 <= IZR span)%R) by (apply IZR_le; lia).
  assert (Hbr : (IZR span + 1 <= IZR base)%R) by (rewrite <- (plus_IZR span 1); apply IZR_le; lia).
  assert (Hbr' : (IZR base <= 255)%R) by (apply IZR_le; lia).
  pose proof eps_val as Hev.
  unfold channel, mul_int, int_sub.
  destruct Hr as [->|(mr & er & Pr & Her & Hk)].
  - destruct (to_int_floor mb eb) as (z & Ez & Hz1 & Hz2).
    exists z. split; [rewrite Es, Eb, !bind_Ok; exact Ez|].
    rewrite Hev in *.
    split; [apply Z.lt_succ_r|apply Z.lt_succ_r]; apply lt_IZR; unfold Z.succ;
      rewrite ?plus_IZR, ?minus_IZR; lra.
  - destruct (mul_normal _ _ _ _ _ _ Pr Ps) as (mt & et & Pt & Het & Ht1 & Ht2); [lia|].
    pose proof (pnormal_pos _ _ _ Pr) as Hrp. pose proof (pnormal_pos _ _ _ Pt) as Htp.
    set (t := mul ratio (S754_finite false ms es)) in *.
    assert (HS : B2R (S754_finite false ms es) = (IZR (Zpos ms) * bpow es)%R) by reflexivity.
    assert (HB : B2R (S754_finite false mb eb) = (IZR (Zpos mb) * bpow eb)%R) by reflexivity.
    rewrite <- HS in Hs1, Hs2. rewrite <- HB in Hb1, Hb2.
    set (Sf := B2R (S754_finite false ms es)) in *.
    set (Bf := B2R (S754_finite false mb eb)) in *.
    assert (Hrs : (B2R ratio * Sf * (1 - eps) <= (1 - / 2147483648) * Sf)%R).
    { replace (B2R ratio * Sf * (1 - eps))%R with (B2R ratio * (1 - eps) * Sf)%R by ring.
      apply Rmult_le_compat_r; [rewrite Hev in *; lra|easy]. }
    assert (Hlt : (B2R t < Bf)%R) by (rewrite Hev in *; lra).
    destruct (sub_normal _ _ _ _ _ _ Pb Pt Hlt) as (mc & ec & Pc & Hc1 & Hc2); try lia.
    destruct (to_int_floor mc ec) as (z & Ez & Hz1 & Hz2).
    rewrite <- (pnormal_B2R _ _ _ Pc) in Hz1, Hz2.
    exists z. split.
    { rewrite Es, Eb, !bind_Ok. fold t. destruct Pc as [-> _]. exact Ez. }
    set (C := B2R (sub (S754_finite false mb eb) t)) in *. set (T := B2R t) in *.
    set (RS := (B2R ratio * Sf)%R) in *.
    change (B2R (S754_finite false mb eb)) with Bf in Hc1, Hc2.
    rewrite Hev in *.
    clearbody C T RS Sf Bf. clear - Hs1 Hs2 Hb1 Hb2 Hsr Hbr Hbr' Ht1 Ht2 Hrs Hc1 Hc2 Hz1 Hz2 Htp.
    split; [apply Z.lt_succ_r|apply Z.lt_succ_r]; apply lt_IZR; unfold Z.succ;
      rewrite ?plus_IZR, ?minus_IZR; lra.
Qed.


(** The colour of a row: opaque, each channel within its gradient. *)
Lemma row_color_range size y :
  0 <= y < size -> size <= INT_MAX ->
  exists r g b, row_color size y = Ok (r, g, b, 255)
    /\ 190 <= r <= 235 /\ 110 <= g <= 145 /\ 40 <= b <= 65.
Proof.
  intros Hy Hmax. unfold row_color.
  assert (Hr : exists ratio, true_div y size = Ok ratio /\
            (ratio = S754_zero false \/
             exists m e, pnormal ratio m e /\ -84 <= e <= -51
               /\ (B2R ratio * (1 - eps) <= 1 - / 2147483648)%R)).
  { destruct (ratio_ok y size Hy Hmax) as [E|(ratio & m & e & E & H)].
    - exists (S754_zero false). split; [exact E|now left].
    - exists ratio. split; [exact E|right; now exists m, e]. }
  destruct Hr as (ratio & E & Hr). rewrite E, bind_Ok.
  destruct (channel_range 235 45 ratio) as (r & Er & Hrr); try lia; try exact Hr.
  destruct (channel_range 145 35 ratio) as (g & Eg & Hgr); try lia; try exact Hr.
  destruct (channel_range 65 25 ratio) as (b & Eb & Hbr); try lia; try exact Hr.
  exists r, g, b. rewrite Er, bind_Ok, Eg, bind_Ok, Eb, bind_Ok.
  split; [reflexivity|lia].
Qed.

(** A point at least [sqrt 2] radii from the corner centre is outside. *)
Lemma far_from_centre s radius :
  0 <= radius -> 2 * (radius * radius) <= s -> 0 < s < 2 ^ 62 ->
  exists dist, sqrt_int s = Ok dist /\ le_int dist radius = false.
Proof.
  intros Hr Hs [Hs0 Hs1].
  assert (H62 : 2 ^ 62 <= 2 ^ 1023) by (apply Z.pow_le_mono_r; lia).
  destruct (of_int_normal s) as (mf & ef & Ef & Pf & Hef & Hf1 & Hf2); [lia|].
  assert (Hd1 : 1 <= Zdigits2 s) by (apply Zdigits2_ge; simpl; lia).
  assert (Hd2 : Zdigits2 s <= 62) by (apply Zdigits2_le; lia).
  destruct (sqrt_normal _ _ _ Pf) as (m & e & Pd & Hd3 & Hd4); [lia|].
  exists (sqrt (S754_finite false mf ef)). split.
  { unfold sqrt_int. destruct (Z.ltb_spec s 0); [lia|]. now rewrite Ef, bind_Ok. }
  pose proof (pnormal_pos _ _ _ Pd) as HD. pose proof (pnormal_B2R _ _ _ Pd) as HV.
  destruct Pd as [Ed _]. rewrite Ed in *.
  destruct (le_int (S754_finite false m e) radius) eqn:Hle; [exfalso|reflexivity].
  apply le_int_spec in Hle. rewrite <- HV in Hle. simpl B2R in Hd4.
  fold (B2R (S754_finite false m e)) in Hd4. rewrite HV in *.
  apply IZR_le in Hs. rewrite !mult_IZR in Hs.
  pose proof eps_val as Hev.
  set (D := (IZR (Zpos m) * bpow e)%R) in *. set (F := (IZR (Zpos mf) * bpow ef)%R) in *.
  set (S' := IZR s) in *. set (Rr := IZR radius) in *.
  clearbody D F S' Rr. clear - Hf2 Hd4 HD Hle Hs Hev.
  assert (Hsq : ((D * (1 + eps)) ^ 2 <= (Rr * (1 + eps)) ^ 2)%R).
  { apply pow_incr. rewrite Hev. split; [apply Rmult_le_pos; lra|].
    apply Rmult_le_compat_r; lra. }
  replace ((Rr * (1 + eps)) ^ 2)%R with (Rr * Rr * ((1 + eps) * (1 + eps)))%R in Hsq by ring.
  assert (Hrr : (0 < Rr * Rr)%R) by (apply Rmult_lt_0_compat; lra).
  set (R2 := (Rr * Rr)%R) in *. rewrite Hev in *. clearbody R2. lra.
Qed.

End Arith.

(** ** Bitmaps and the drawing loops *)

Section Bitmaps.

Lemma getpixel_Some img x y p :
  getpixel img x y = Some p ->
  0 <= x /\ 0 <= y /\ exists row, rows img !! Z.to_nat y = Some row /\ row !! Z.to_nat x = Some p.
Proof.
  unfold getpixel. destruct (Z.ltb_spec x 0), (Z.ltb_spec y 0); simpl; try discriminate.
  intros Hp. destruct (rows img !! Z.to_nat y) as [row|] eqn:Hrow; simpl in Hp; [|discriminate].
  repeat split; try lia. now exists row.
Qed.

Lemma getpixel_in_range img x y :
  image_wf img -> 0 <= x < width img -> 0 <= y < height img ->
  exists row p, rows img !! Z.to_nat y = Some row /\ row !! Z.to_nat x = Some p
                /\ getpixel img x y = Some p.
Proof.
  intros (Hw & Hh & Hlen & Hrows) Hx Hy.
  destruct (lookup_lt_is_Some_2 (rows img) (Z.to_nat y)) as [row Hrow]; [lia|].
  assert (Hl : length row = Z.to_nat (width img)).
  { rewrite Forall_lookup in Hrows. eapply Hrows, Hrow. }
  destruct (lookup_lt_is_Some_2 row (Z.to_nat x)) as [p Hp]; [lia|].
  exists row, p. repeat split; try easy.
  unfold getpixel. destruct (Z.ltb_spec x 0), (Z.ltb_spec y 0); try lia.
  simpl. rewrite Hrow. simpl. exact Hp.
Qed.

Lemma Image_new_ok w h color :
  0 <= w <= INT_MAX -> 0 <= h <= INT_MAX ->
  exists img, Image_new w h color = Ok img /\ image_wf img
    /\ width img = w /\ height img = h
    /\ forall x y, 0 <= x < w -> 0 <= y < h -> getpixel img x y = Some color.
Proof.
  intros Hw Hh. unfold Image_new.
  destruct (Z.ltb_spec w 0), (Z.ltb_spec h 0); try lia.
  destruct (Z.ltb_spec INT_MAX w), (Z.ltb_spec INT_MAX h); try lia. simpl.
  eexists. split; [reflexivity|]. split; [|split; [reflexivity|split; [reflexivity|]]].
  - repeat split; simpl; try lia.
    + apply length_replicate.
    + apply Forall_replicate. apply length_replicate.
  - intros x y Hx Hy. unfold getpixel. simpl.
    destruct (Z.ltb_spec x 0), (Z.ltb_spec y 0); try lia. simpl.
    rewrite lookup_replicate_2 by lia. simpl. apply lookup_replicate_2. lia.
Qed.

Lemma Image_new_inv w h color img :
  Image_new w h color = Ok img -> 0 <= w <= INT_MAX /\ 0 <= h <= INT_MAX.
Proof.
  unfold Image_new.
  destruct (Z.ltb_spec w 0), (Z.ltb_spec h 0); simpl; try discriminate.
  destruct (Z.ltb_spec INT_MAX w), (Z.ltb_spec INT_MAX h); simpl; try discriminate. lia.
Qed.

Lemma putpixel_ok img x y v :
  image_wf img -> 0 <= x < width img -> 0 <= y < height img ->
  exists img', putpixel img (x, y) v = Ok img' /\ image_wf img'
    /\ width img' = width img /\ height img' = height img
    /\ forall x' y', getpixel img' x' y' =
         if (x' =? x) && (y' =? y) then Some v else getpixel img x' y'.
Proof.
  intros Hwf Hx Hy. pose proof Hwf as (Hw & Hh & Hlen & Hrows).
  destruct (getpixel_in_range img x y Hwf Hx Hy) as (row & p & Hrow & Hp & _).
  unfold putpixel. simpl fst. simpl snd.
  destruct (Z.ltb_spec x 0), (Z.ltb_spec y 0); try lia.
  destruct (Z.ltb_spec x 0), (Z.leb_spec (width img) x),
    (Z.ltb_spec y 0), (Z.leb_spec (height img) y); try lia. simpl.
  eexists. split; [reflexivity|]. split; [|split; [reflexivity|split; [reflexivity|]]].
  - repeat split; simpl; try lia.
    + now rewrite length_alter.
    + apply Forall_lookup. intros j r Hj.
      rewrite list_lookup_alter in Hj. rewrite Forall_lookup in Hrows.
      destruct (decide (Z.to_nat y = j)) as [<-|Hne].
      * rewrite Hrow in Hj. simpl in Hj. injection Hj as <-.
        rewrite length_insert. eapply Hrows, Hrow.
      * eapply Hrows, Hj.
  - intros x' y'. unfold getpixel. simpl.
    destruct (Z.ltb_spec x' 0), (Z.ltb_spec y' 0), (Z.eqb_spec x' x), (Z.eqb_spec y' y);
      simpl; try lia; try reflexivity.
    + subst. rewrite list_lookup_alter_eq, Hrow. simpl.
      apply list_lookup_insert_eq. apply lookup_lt_Some in Hp. exact Hp.
    + rewrite list_lookup_alter_ne by lia. reflexivity.
    + subst. rewrite list_lookup_alter_eq, Hrow. simpl.
      apply list_lookup_insert_ne. lia.
    + rewrite list_lookup_alter_ne by lia. reflexivity.
Qed.

(** A loop that keeps an invariant runs to the end. *)
Lemma for_each_ok {A S : Type} (body : S -> A -> result S) (xs : list A) :
  forall (Inv : nat -> S -> Prop) (s : S),
    Inv O s ->
    (forall i x s, xs !! i = Some x -> Inv i s ->
       exists s', body s x = Ok s' /\ Inv (Datatypes.S i) s') ->
    exists s', for_each xs body s = Ok s' /\ Inv (length xs) s'.
Proof.
  induction xs as [|x xs IH]; intros Inv s H0 Hstep; simpl.
  - now exists s.
  - destruct (Hstep O x s eq_refl H0) as (s1 & E1 & H1). rewrite E1. simpl.
    apply (IH (fun i => Inv (Datatypes.S i))); [exact H1|].
    intros i x' s2 Hx'. apply (Hstep (Datatypes.S i)). exact Hx'.
Qed.


Lemma sqrt_int_total s : 0 <= s < 2 ^ 1023 -> exists d, Float.sqrt_int s = Ok d.
Proof.
  intros [H0 H1]. destruct (Z.eq_dec s 0) as [->|Hne].
  { eexists. reflexivity. }
  destruct (of_int_normal s) as (m & e & E & _); [lia|].
  unfold Float.sqrt_int. destruct (Z.ltb_spec s 0); [lia|].
  rewrite E. eexists. reflexivity.
Qed.

Lemma sum_squares_small a b :
  - 2 ^ 33 <= a <= 2 ^ 33 -> - 2 ^ 33 <= b <= 2 ^ 33 -> 0 <= a ^ 2 + b ^ 2 < 2 ^ 1023.
Proof.
  intros Ha Hb. rewrite !Z.pow_2_r.
  assert (H : 2 ^ 68 <= 2 ^ 1023) by (apply Z.pow_le_mono_r; lia).
  change (2 ^ 68) with (2 * (2 ^ 33 * 2 ^ 33) + 2 * (2 ^ 33 * 2 ^ 33)) in H.
  split; nia.
Qed.

(** The corner test raises nothing on the coordinates of a bitmap. *)
Lemma in_rect_total size margin radius x y :
  0 <= size <= INT_MAX -> 0 <= margin <= size -> 0 <= radius <= size ->
  0 <= x < size -> 0 <= y < size ->
  in_rect size margin radius x y = Ok (is_inside size margin radius x y).
Proof.
  intros Hs Hm Hr Hx Hy. unfold is_inside.
  assert (H31 : INT_MAX < 2 ^ 31) by (apply INT_MAX_lt; lia).
  assert (H33 : 2 ^ 31 <= 2 ^ 33) by (apply Z.pow_le_mono_r; lia).
  assert (E : exists b, in_rect size margin radius x y = Ok b); [|destruct E as [b ->]; reflexivity].
  unfold in_rect.
  repeat match goal with
  | |- context [if ?c then _ else _] => destruct c
  | |- context [Float.sqrt_int ?s] =>
      let d := fresh "d" in let E := fresh "E" in
      destruct (sqrt_int_total s) as [d E];
      [apply sum_squares_small; lia|rewrite E, bind_Ok]
  end; eexists; reflexivity.
Qed.


Lemma range_lookup n i x : range n !! i = Some x -> x = Z.of_nat i /\ 0 <= x < n.
Proof. unfold range. rewrite lookup_seqZ. lia. Qed.

Lemma range_length n : 0 <= n -> Z.of_nat (length (range n)) = n.
Proof. intros Hn. unfold range. rewrite length_seqZ. lia. Qed.

(** The inner loop paints, in row [y], the pixels inside the rounded
    rectangle and leaves every other pixel as it was. *)
Lemma draw_row_ok size margin radius y color img :
  0 <= size <= INT_MAX -> 0 <= margin <= size -> 0 <= radius <= size ->
  0 <= y < size -> image_wf img -> width img = size -> height img = size ->
  exists img',
    for_each (range size) (draw_pixel size margin radius y color) img = Ok img'
    /\ image_wf img' /\ width img' = size /\ height img' = size
    /\ forall x' y', 0 <= x' < size ->
         getpixel img' x' y' =
           if (y' =? y) && is_inside size margin radius x' y
           then Some color else getpixel img x' y'.
Proof.
  intros Hs Hm Hr Hy Hwf Hw Hh.
  destruct (for_each_ok (draw_pixel size margin radius y color) (range size)
    (fun i img' =>
       image_wf img' /\ width img' = size /\ height img' = size
       /\ forall x' y',
            getpixel img' x' y' =
              if (y' =? y) && (0 <=? x') && (x' <? Z.of_nat i)
                 && is_inside size margin radius x' y
              then Some color else getpixel img x' y') img)
    as (img' & E & Hwf' & Hw' & Hh' & Hpix).
  - split; [exact Hwf|]. split; [exact Hw|]. split; [exact Hh|].
    intros x' y'. destruct (y' =? y), (Z.leb_spec 0 x'), (Z.ltb_spec x' (Z.of_nat 0)); simpl; try reflexivity; lia.
  - intros i x cur Hi (Hwfc & Hwc & Hhc & Hpc).
    apply range_lookup in Hi. destruct Hi as [-> Hi].
    unfold draw_pixel. rewrite in_rect_total by lia. rewrite bind_Ok.
    destruct (is_inside size margin radius (Z.of_nat i) y) eqn:Hin.
    + destruct (putpixel_ok cur (Z.of_nat i) y color) as (nxt & En & Hwfn & Hwn & Hhn & Hpn);
        try lia; try easy.
      exists nxt. split; [exact En|]. split; [exact Hwfn|].
      split; [lia|]. split; [lia|].
      intros x' y'. rewrite Hpn, Hpc.
      destruct (Z.eqb_spec x' (Z.of_nat i)), (Z.eqb_spec y' y), (Z.leb_spec 0 x'),
        (Z.ltb_spec x' (Z.of_nat i)), (Z.ltb_spec x' (Z.of_nat (S i)));
        simpl; try subst x'; try subst y'; rewrite ?Hin; try reflexivity; lia.
    + exists cur. split; [reflexivity|]. split; [exact Hwfc|].
      split; [exact Hwc|]. split; [exact Hhc|].
      intros x' y'. rewrite Hpc.
      destruct (Z.eqb_spec y' y), (Z.leb_spec 0 x'),
        (Z.ltb_spec x' (Z.of_nat i)), (Z.ltb_spec x' (Z.of_nat (S i)));
        simpl; try reflexivity; try lia.
      assert (x' = Z.of_nat i) as -> by lia. now rewrite Hin.
  - exists img'. split; [exact E|]. split; [exact Hwf'|]. split; [exact Hw'|].
    split; [exact Hh'|]. intros x' y' Hx'. rewrite Hpix, range_length by lia.
    destruct (Z.leb_spec 0 x'), (Z.ltb_spec x' size); try lia.
    now rewrite !andb_true_r.
Qed.

(** The bitmap [create_rounded_gradient] builds, pixel by pixel. *)
Lemma gradient_ok size :
  0 <= size <= INT_MAX ->
  exists img margin radius,
    create_rounded_gradient size = Ok img
    /\ (Float.int_mul size Float.lit_0_02 ≫= Float.to_int) = Ok margin
    /\ (Float.int_mul size Float.lit_0_18 ≫= Float.to_int) = Ok radius
    /\ 0 <= margin /\ 0 <= radius /\ 2 * (margin + radius) <= size
    /\ (6 <= size -> 1 <= radius)
    /\ image_wf img /\ width img = size /\ height img = size
    /\ forall x y, 0 <= x < size -> 0 <= y < size ->
         getpixel img x y = Some (gradient_pixel size margin radius x y).
Proof.
  intros Hs.
  destruct (margin_radius_ok size Hs) as (margin & radius & Em & Er & Hm & Hr & Hmr & H6).
  destruct (Image_new_ok size size transparent Hs Hs) as (img0 & E0 & Hwf0 & Hw0 & Hh0 & Hp0).
  destruct (for_each_ok (draw_row size margin radius) (range size)
    (fun j img =>
       image_wf img /\ width img = size /\ height img = size
       /\ forall x y, 0 <= x < size -> 0 <= y < size ->
            getpixel img x y =
              Some (if y <? Z.of_nat j then gradient_pixel size margin radius x y
                    else transparent)) img0)
    as (img & E & Hwf & Hw & Hh & Hpix).
  - split; [exact Hwf0|]. split; [exact Hw0|]. split; [exact Hh0|].
    intros x y Hx Hy. rewrite Hp0 by lia.
    destruct (Z.ltb_spec y (Z.of_nat 0)); [lia|reflexivity].
  - intros j y cur Hj (Hwfc & Hwc & Hhc & Hpc).
    apply range_lookup in Hj. destruct Hj as [-> Hj].
    destruct (row_color_range size (Z.of_nat j)) as (r & g & b & Ec & _); try lia.
    unfold draw_row. rewrite Ec, bind_Ok.
    destruct (draw_row_ok size margin radius (Z.of_nat j) (r, g, b, 255) cur)
      as (nxt & En & Hwfn & Hwn & Hhn & Hpn); try lia; try easy.
    exists nxt. split; [exact En|]. split; [exact Hwfn|]. split; [exact Hwn|].
    split; [exact Hhn|]. intros x y Hx Hy. rewrite Hpn, Hpc by lia.
    unfold gradient_pixel.
    destruct (Z.eqb_spec y (Z.of_nat j)), (Z.ltb_spec y (Z.of_nat j)),
      (Z.ltb_spec y (Z.of_nat (S j))); simpl; try subst y; try lia; try reflexivity.
    rewrite Ec. now destruct (is_inside size margin radius x (Z.of_nat j)).
  - exists img, margin, radius. unfold create_rounded_gradient, create_rounded_gradient_with.
    rewrite E0, bind_Ok, Em, bind_Ok, Er, bind_Ok.
    split; [exact E|]. repeat (split; [easy|]).
    intros x y Hx Hy. rewrite Hpix, range_length by lia.
    destruct (Z.ltb_spec y size); [reflexivity|lia].
Qed.

Lemma gradient_inv size img :
  create_rounded_gradient size = Ok img -> 0 <= size <= INT_MAX.
Proof.
  unfold create_rounded_gradient, create_rounded_gradient_with.
  destruct (Image_new size size transparent) as [img0|e] eqn:E0; [|discriminate].
  intros _. now apply Image_new_inv in E0.
Qed.

End Bitmaps.

(** ** create_rounded_gradient: the claims about the background *)

Section Gradient.

Lemma getpixel_range img x y p :
  image_wf img -> getpixel img x y = Some p ->
  0 <= x < width img /\ 0 <= y < height img.
Proof.
  intros (Hw & Hh & Hlen & Hrows) Hp.
  apply getpixel_Some in Hp. destruct Hp as (Hx & Hy & row & Hrow & Hp).
  rewrite Forall_lookup in Hrows. pose proof (Hrows _ _ Hrow) as Hl.
  apply lookup_lt_Some in Hrow, Hp. lia.
Qed.

Ltac decide_tests :=
  repeat match goal with
  | |- context [?a <? ?b] => destruct (Z.ltb_spec a b); try lia
  | |- context [?a <=? ?b] => destruct (Z.leb_spec a b); try lia
  end.

(** The corner test does not tell left from right. *)
Lemma in_rect_mirror size margin radius x y :
  0 <= margin -> 0 <= radius -> 2 * (margin + radius) <= size ->
  in_rect size margin radius (size - 1 - x) y = in_rect size margin radius x y.
Proof.
  intros Hm Hr Hmr. unfold in_rect.
  replace ((size - 1 - x - margin - radius) ^ 2)
    with ((x - (size - margin - radius - 1)) ^ 2) by ring.
  replace ((size - 1 - x - (size - margin - radius - 1)) ^ 2)
    with ((x - margin - radius) ^ 2) by ring.
  decide_tests; reflexivity.
Qed.


(** What a returned bitmap is: [size] x [size], with the pixels of
    [gradient_pixel] for the margin and radius of that size. *)
Lemma gradient_spec size img :
  create_rounded_gradient size = Ok img ->
  exists margin radius,
    0 <= size <= INT_MAX
    /\ 0 <= margin /\ 0 <= radius /\ 2 * (margin + radius) <= size
    /\ (6 <= size -> 1 <= radius)
    /\ image_wf img /\ width img = size /\ height img = size
    /\ forall x y, 0 <= x < size -> 0 <= y < size ->
         getpixel img x y = Some (gradient_pixel size margin radius x y).
Proof.
  intros E. pose proof (gradient_inv _ _ E) as Hs.
  destruct (gradient_ok size Hs) as (img' & margin & radius & E' & _ & _ & H).
  rewrite E in E'. injection E' as <-.
  exists margin, radius. split; [exact Hs|exact H].
Qed.

(** C9. The bitmap returned by [create_rounded_gradient] is left-right
    mirror symmetric: the pixel at (x, y) equals the pixel at
    (size - 1 - x, y), for all 0 <= x, y < size. *)
Theorem gradient_mirror_symmetric size img x y :
  create_rounded_gradient size = Ok img ->
  0 <= x < size -> 0 <= y < size ->
  getpixel img x y = getpixel img (size - 1 - x) y.
Proof.
  intros E Hx Hy.
  destruct (gradient_spec size img E)
    as (margin & radius & _ & Hm & Hr & Hmr & _ & _ & _ & _ & Hpix).
  rewrite !Hpix by lia. f_equal.
  unfold gradient_pixel, is_inside. now rewrite in_rect_mirror.
Qed.

Lemma gradient_mirror_symmetric_witness :
  exists img, create_rounded_gradient 6 = Ok img
              /\ getpixel img 1 0 = getpixel img (6 - 1 - 1) 0.
Proof.
  eexists. split; [vm_compute; reflexivity|].
  apply (gradient_mirror_symmetric 6); [vm_compute; reflexivity|lia|lia].
Defined.

(** A corner pixel fails the corner test. *)
Lemma corner_outside size margin radius x y :
  0 <= margin -> 1 <= radius -> 2 * (margin + radius) <= size -> size <= INT_MAX ->
  x = 0 \/ x = size - 1 -> y = 0 \/ y = size - 1 ->
  is_inside size margin radius x y = false.
Proof.
  intros Hm Hr Hmr Hs Hx Hy.
  assert (H31 : size < 2 ^ 31) by (apply INT_MAX_lt; lia).
  change (2 ^ 31) with 2147483648 in H31.
  assert (Hfar : forall a b,
            (a = margin + radius \/ a = - (margin + radius)) ->
            (b = margin + radius \/ b = - (margin + radius)) ->
            exists dist, Float.sqrt_int (a ^ 2 + b ^ 2) = Ok dist
                         /\ Float.le_int dist radius = false).
  { intros a b Ha Hb. apply far_from_centre; [lia| |].
    - rewrite !Z.pow_2_r. destruct Ha as [-> | ->], Hb as [-> | ->]; nia.
    - rewrite !Z.pow_2_r. change (2 ^ 62) with 4611686018427387904.
      destruct Ha as [-> | ->], Hb as [-> | ->]; nia. }
  unfold is_inside, in_rect.
  destruct Hx as [-> | ->], Hy as [-> | ->]; decide_tests; simpl;
    match goal with
    | |- context [Float.sqrt_int (?a ^ 2 + ?b ^ 2)] =>
        destruct (Hfar a b) as (dist & -> & Hd); [lia|lia|]
    end; rewrite bind_Ok; exact Hd.
Qed.

(** C10. For size >= 6 the four extreme corner pixels (0, 0),
    (size - 1, 0), (0, size - 1) and (size - 1, size - 1) of the bitmap
    returned by [create_rounded_gradient] are fully transparent. *)
Theorem gradient_corners_transparent size img :
  create_rounded_gradient size = Ok img -> 6 <= size ->
  alpha <$> getpixel img 0 0 = Some 0
  /\ alpha <$> getpixel img (size - 1) 0 = Some 0
  /\ alpha <$> getpixel img 0 (size - 1) = Some 0
  /\ alpha <$> getpixel img (size - 1) (size - 1) = Some 0.
Proof.
  intros E H6.
  destruct (gradient_spec size img E)
    as (margin & radius & Hs & Hm & Hr & Hmr & Hr1 & _ & _ & _ & Hpix).
  specialize (Hr1 H6).
  rewrite !Hpix by lia. unfold gradient_pixel.
  rewrite !corner_outside by (auto; lia). easy.
Qed.

Lemma gradient_corners_transparent_witness :
  exists img, create_rounded_gradient 6 = Ok img
    /\ alpha <$> getpixel img 0 0 = Some 0
    /\ alpha <$> getpixel img (6 - 1) 0 = Some 0
    /\ alpha <$> getpixel img 0 (6 - 1) = Some 0
    /\ alpha <$> getpixel img (6 - 1) (6 - 1) = Some 0.
Proof.
  eexists. split; [vm_compute; reflexivity|].
  apply (gradient_corners_transparent 6); [vm_compute; reflexivity|lia].
Defined.


(** C8, as amended. Every pixel of the bitmap returned by
    [create_rounded_gradient] has alpha exactly 0 or exactly 255; a pixel
    of row y with alpha 255 is the colour of that row,
    (int(235 - y/size*45), int(145 - y/size*35), int(65 - y/size*25), 255),
    and its channels lie in R [190, 235], G [110, 145], B [40, 65]. *)
Theorem gradient_pixels_opaque_or_clear size img x y p :
  create_rounded_gradient size = Ok img ->
  getpixel img x y = Some p ->
  (alpha p = 0 \/ alpha p = 255)
  /\ (alpha p = 255 ->
      row_color size y = Ok p
      /\ 190 <= red p <= 235 /\ 110 <= green p <= 145 /\ 40 <= blue p <= 65).
Proof.
  intros E Hp.
  destruct (gradient_spec size img E)
    as (margin & radius & Hs & _ & _ & _ & _ & Hwf & Hw & Hh & Hpix).
  destruct (getpixel_range img x y p Hwf Hp) as [Hx Hy].
  rewrite Hpix in Hp by lia. injection Hp as <-.
  destruct (row_color_range size y) as (r & g & b & Ec & Hr & Hg & Hb); try lia.
  unfold gradient_pixel. rewrite Ec.
  destruct (is_inside size margin radius x y).
  - split; [now right|]. intros _. split; [reflexivity|]. unfold red, green, blue. simpl. lia.
  - split; [now left|]. unfold alpha, transparent. simpl. discriminate.
Qed.

Lemma gradient_pixels_opaque_or_clear_witness :
  exists img, create_rounded_gradient 6 = Ok img
    /\ (alpha (235, 145, 65, 255) = 0 \/ alpha (235, 145, 65, 255) = 255)
    /\ (alpha (235, 145, 65, 255) = 255 ->
        row_color 6 0 = Ok (235, 145, 65, 255)
        /\ 190 <= red (235, 145, 65, 255) <= 235
        /\ 110 <= green (235, 145, 65, 255) <= 145
        /\ 40 <= blue (235, 145, 65, 255) <= 65).
Proof.
  eexists. split; [vm_compute; reflexivity|].
  eapply (gradient_pixels_opaque_or_clear 6 _ 1 0); vm_compute; reflexivity.
Defined.

(** C8, as stated, fails: in the 46 x 46 bitmap the opaque pixel at
    (20, 45) is (190, 110, 40, 255), below each of the claimed lower
    bounds 191, 111 and 41. *)
Lemma gradient_pixels_claimed_ranges_fail :
  exists img p,
    create_rounded_gradient 46 = Ok img /\ getpixel img 20 45 = Some p
    /\ alpha p = 255
    /\ ~ (191 <= red p <= 235) /\ ~ (111 <= green p <= 145) /\ ~ (41 <= blue p <= 65).
Proof.
  eexists. exists (190, 110, 40, 255).
  split; [vm_compute; reflexivity|].
  split; [vm_compute; reflexivity|].
  split; [reflexivity|]. unfold red, green, blue. simpl. lia.
Qed.

End Gradient.

(** ** create_icon: the pawn on the background *)

Section Icon.

Context `{Runtime}.

Lemma resize_wf img w h :
  0 <= w -> 0 <= h ->
  image_wf (resize img w h) /\ width (resize img w h) = w /\ height (resize img w h) = h.
Proof.
  intros Hw Hh. unfold resize, image_wf. simpl. repeat split; try lia.
  - rewrite length_map. unfold range. now rewrite length_seqZ.
  - apply Forall_forall. intros row Hrow. apply list_elem_of_fmap in Hrow.
    destruct Hrow as (y & -> & _). rewrite length_map. unfold range. now rewrite length_seqZ.
Qed.

Lemma resize_getpixel img w h x y :
  0 <= x < w -> 0 <= y < h ->
  getpixel (resize img w h) x y = Some (resample img w h x y).
Proof.
  intros Hx Hy. unfold getpixel, resize. simpl.
  destruct (Z.ltb_spec x 0), (Z.ltb_spec y 0); try lia. simpl.
  rewrite list_lookup_fmap. unfold range.
  rewrite lookup_seqZ_lt by lia. simpl.
  rewrite list_lookup_fmap, lookup_seqZ_lt by lia. simpl.
  f_equal. f_equal; lia.
Qed.

Lemma resize_getpixel_outside img w h x y :
  0 <= w -> 0 <= h -> ~ (0 <= x < w /\ 0 <= y < h) ->
  getpixel (resize img w h) x y = None.
Proof.
  intros Hw Hh Hout.
  destruct (getpixel (resize img w h) x y) as [p|] eqn:Hp; [|reflexivity].
  apply getpixel_range in Hp; [|now apply resize_wf].
  destruct (resize_wf img w h Hw Hh) as (_ & -> & ->) in Hp. tauto.
Qed.

Lemma getpixel_nonneg img x y :
  0 <= x -> 0 <= y ->
  getpixel img x y = rows img !! Z.to_nat y ≫= fun row => row !! Z.to_nat x.
Proof.
  intros Hx Hy. unfold getpixel.
  destruct (Z.ltb_spec x 0), (Z.ltb_spec y 0); try lia. reflexivity.
Qed.

(** What [paste] leaves at (x, y). *)
Lemma paste_ok dst src box :
  image_wf dst ->
  exists out, paste dst src box src = Ok out
    /\ image_wf out /\ width out = width dst /\ height out = height dst
    /\ forall x y, 0 <= x -> 0 <= y ->
         getpixel out x y =
           (fun px => match getpixel src (x - box.1) (y - box.2) with
                      | Some s => blend s px s
                      | None => px
                      end) <$> getpixel dst x y.
Proof.
  intros (Hw & Hh & Hlen & Hrows). unfold paste.
  rewrite !Z.eqb_refl. simpl negb. cbv iota.
  eexists. split; [reflexivity|]. split; [|split; [reflexivity|split; [reflexivity|]]].
  - repeat split; simpl; try lia.
    + now rewrite length_imap.
    + apply Forall_lookup. intros j row Hj. rewrite list_lookup_imap in Hj.
      destruct (rows dst !! j) as [row0|] eqn:Hr; simpl in Hj; [|discriminate].
      injection Hj as <-. rewrite length_imap.
      rewrite Forall_lookup in Hrows. eapply Hrows, Hr.
  - intros x y Hx Hy.
    rewrite (getpixel_nonneg (mkImage _ _ _)), (getpixel_nonneg dst) by lia. simpl.
    rewrite list_lookup_imap.
    destruct (rows dst !! Z.to_nat y) as [row|]; simpl; [|reflexivity].
    rewrite list_lookup_imap.
    destruct (row !! Z.to_nat x) as [px|]; simpl; [|reflexivity].
    rewrite !Z2Nat.id by lia.
    now destruct (getpixel src (x - box.1) (y - box.2)).
Qed.


(** [int(size * 0.7)], the side of the resized pawn. *)
Lemma pawn_size_ok size :
  0 <= size <= INT_MAX ->
  exists pawn_size,
    (Float.int_mul size Float.lit_0_7 ≫= Float.to_int) = Ok pawn_size
    /\ 0 <= pawn_size <= size.
Proof.
  intros [H0 Hmax]. destruct (Z.eq_dec size 0) as [->|Hne].
  { exists 0. split; [reflexivity|lia]. }
  destruct (int_mul_floor size _ _ _ pnormal_lit_0_7) as (ps & E & H1 & H2); try lia.
  exists ps. split; [exact E|].
  rewrite B2R_lit_0_7, eps_val in *.
  assert (Hs : (1 <= IZR size)%R) by (apply IZR_le; lia).
  split.
  - apply Z.lt_succ_r, lt_IZR. unfold Z.succ. rewrite plus_IZR. lra.
  - apply le_IZR. lra.
Qed.

Lemma create_icon_ok size pawn_img :
  0 <= size <= INT_MAX ->
  exists bg pawn_size icon,
    create_rounded_gradient size = Ok bg
    /\ (Float.int_mul size Float.lit_0_7 ≫= Float.to_int) = Ok pawn_size
    /\ 0 <= pawn_size <= size
    /\ create_icon size pawn_img = Ok icon
    /\ paste bg (resize pawn_img pawn_size pawn_size)
             ((size - pawn_size) `div` 2, (size - pawn_size) `div` 2)
             (resize pawn_img pawn_size pawn_size) = Ok icon
    /\ image_wf icon /\ width icon = size /\ height icon = size
    /\ forall x y, 0 <= x < size -> 0 <= y < size ->
         getpixel icon x y =
           (fun px =>
              if in_box ((size - pawn_size) `div` 2) pawn_size x y then
                blend (resample pawn_img pawn_size pawn_size
                         (x - (size - pawn_size) `div` 2) (y - (size - pawn_size) `div` 2))
                      px
                      (resample pawn_img pawn_size pawn_size
                         (x - (size - pawn_size) `div` 2) (y - (size - pawn_size) `div` 2))
              else px) <$> getpixel bg x y.
Proof.
  intros Hs.
  destruct (gradient_ok size Hs) as (bg & m & r & Eb & _ & _ & _ & _ & _ & _ & Hwf & Hw & Hh & _).
  destruct (pawn_size_ok size Hs) as (ps & Ep & Hps).
  set (off := (size - ps) `div` 2).
  destruct (paste_ok bg (resize pawn_img ps ps) (off, off) Hwf)
    as (icon & Ei & Hwfi & Hwi & Hhi & Hpix).
  exists bg, ps, icon. split; [exact Eb|]. split; [exact Ep|]. split; [exact Hps|].
  split. { unfold create_icon. rewrite Eb, bind_Ok, Ep, bind_Ok. exact Ei. }
  split; [exact Ei|]. split; [exact Hwfi|]. split; [lia|]. split; [lia|].
  intros x y Hx Hy. rewrite Hpix by lia. simpl fst. simpl snd.
  destruct (getpixel bg x y) as [px|]; simpl; [|reflexivity]. f_equal.
  unfold in_box. fold off.
  destruct (Z.leb_spec off x), (Z.ltb_spec x (off + ps)),
    (Z.leb_spec off y), (Z.ltb_spec y (off + ps)); cbn [andb];
    first [rewrite resize_getpixel by lia; reflexivity
          |rewrite resize_getpixel_outside by lia; reflexivity].
Qed.

(** C2. [create_icon] pastes the resized foreground, of side
    int(size * 0.7), at the same offset on both axes; that offset is
    (size - int(size * 0.7)) // 2, within rounding of half the free
    space, so the foreground sits centred inside the icon. *)
Theorem pawn_is_centered size pawn_img icon :
  create_icon size pawn_img = Ok icon ->
  exists bg pawn_size offset,
    create_rounded_gradient size = Ok bg
    /\ (Float.int_mul size Float.lit_0_7 ≫= Float.to_int) = Ok pawn_size
    /\ offset = (size - pawn_size) `div` 2
    /\ paste bg (resize pawn_img pawn_size pawn_size) (offset, offset)
             (resize pawn_img pawn_size pawn_size) = Ok icon
    /\ 2 * offset <= size - pawn_size <= 2 * offset + 1
    /\ 0 <= offset /\ offset + pawn_size <= size
    /\ forall x y, 0 <= x < size -> 0 <= y < size ->
         getpixel icon x y =
           (fun px =>
              if in_box offset pawn_size x y then
                blend (resample pawn_img pawn_size pawn_size (x - offset) (y - offset))
                      px
                      (resample pawn_img pawn_size pawn_size (x - offset) (y - offset))
              else px) <$> getpixel bg x y.
Proof.
  intros E.
  assert (Hs : 0 <= size <= INT_MAX).
  { unfold create_icon in E.
    destruct (create_rounded_gradient size) as [bg|e] eqn:Eb; [|discriminate].
    now apply gradient_inv in Eb. }
  destruct (create_icon_ok size pawn_img Hs)
    as (bg & ps & icon' & Eb & Ep & Hps & Ei & Epaste & _ & _ & _ & Hpix).
  rewrite E in Ei. injection Ei as <-.
  exists bg, ps, ((size - ps) `div` 2).
  split; [exact Eb|]. split; [exact Ep|]. split; [reflexivity|]. split; [exact Epaste|].
  pose proof (Z.mul_div_le (size - ps) 2) as H1.
  pose proof (Z.mul_succ_div_gt (size - ps) 2) as H2.
  split; [lia|]. split; [apply Z.div_pos; lia|]. split; [lia|]. exact Hpix.
Qed.

End Icon.

(** ** main: a run over the file system *)

Section Run.

Context `{Runtime}.

Lemma io_bind_inv {A B : Type} (m : io A) (f : A -> io B) w b w' :
  (m ≫= f) w = (Ok b, w') ->
  exists a w1, m w = (Ok a, w1) /\ f a w1 = (Ok b, w').
Proof.
  unfold mbind, io_bind. destruct (m w) as [[a|e] w1]; [eauto|discriminate].
Qed.

Lemma io_bind_ok {A B : Type} (m : io A) (f : A -> io B) w a w1 :
  m w = (Ok a, w1) -> (m ≫= f) w = f a w1.
Proof. unfold mbind, io_bind. now intros ->. Qed.

Lemma io_bind_raise {A B : Type} (m : io A) (f : A -> io B) w e w1 :
  m w = (Raise e, w1) -> (m ≫= f) w = (Raise e, w1).
Proof. unfold mbind, io_bind. now intros ->. Qed.

Lemma write_file_inv path data w w' :
  write_file path data w = (Ok tt, w') ->
  w' = mkWorld (<[path := data]> (files w)) (dirs w) (log w ++ [EvSave path]).
Proof.
  unfold write_file. repeat case_match; intros [=]; congruence.
Qed.

Lemma write_file_ok path data w d :
  dirname path = Some d -> d ∈ dirs w -> files w !! d = None -> path ∉ dirs w ->
  write_file path data w =
    (Ok tt, mkWorld (<[path := data]> (files w)) (dirs w) (log w ++ [EvSave path])).
Proof.
  intros Hd Hin Hf Hp. unfold write_file, parent_is_file, parent_is_dir. rewrite Hd.
  rewrite (bool_decide_eq_false_2 (path ∈ dirs w)) by easy.
  rewrite (bool_decide_eq_false_2 (is_Some (files w !! d))) by (rewrite Hf; apply is_Some_None).
  rewrite (bool_decide_eq_true_2 (d ∈ dirs w)) by easy.
  now rewrite orb_true_r.
Qed.

Lemma make_icon_inv pawn size w w' :
  make_icon pawn size w = (Ok tt, w') ->
  exists icon, create_icon size pawn = Ok icon
    /\ w' = mkWorld (<[icon_path size := png_encode icon]> (files w)) (dirs w)
                    (log w ++ icon_events size).
Proof.
  unfold make_icon. intros Hrun.
  apply io_bind_inv in Hrun. destruct Hrun as (icon & w1 & H1 & Hrun).
  unfold lift in H1. injection H1 as H1 <-.
  apply io_bind_inv in Hrun. destruct Hrun as ([] & w2 & H2 & Hrun).
  apply write_file_inv in H2. subst w2.
  unfold print in Hrun. injection Hrun as <-. simpl.
  exists icon. split; [exact H1|]. now rewrite <- app_assoc.
Qed.

Lemma make_icon_ok pawn size w :
  0 <= size <= INT_MAX ->
  dirname (icon_path size) = Some icon_dir -> icon_dir ∈ dirs w ->
  files w !! icon_dir = None -> icon_path size ∉ dirs w ->
  exists icon, create_icon size pawn = Ok icon
    /\ make_icon pawn size w =
         (Ok tt, mkWorld (<[icon_path size := png_encode icon]> (files w)) (dirs w)
                         (log w ++ icon_events size)).
Proof.
  intros Hs Hd Hin Hf Hp.
  destruct (create_icon_ok size pawn Hs) as (_ & _ & icon & _ & _ & _ & E & _).
  exists icon. split; [exact E|]. unfold make_icon.
  rewrite (io_bind_ok _ _ w icon w) by (unfold lift; now rewrite E).
  unfold save. erewrite io_bind_ok by (eapply write_file_ok; eauto).
  unfold print. simpl. now rewrite <- app_assoc.
Qed.

(** The size loop: what it leaves behind. *)
Lemma icon_loop_inv pawn xs :
  NoDup (map icon_path xs) ->
  forall w w', io_for xs (make_icon pawn) w = (Ok tt, w') ->
    dirs w' = dirs w
    /\ log w' = log w ++ flat_map icon_events xs
    /\ (forall p, p ∉ map icon_path xs -> files w' !! p = files w !! p)
    /\ Forall (fun size => exists icon, create_icon size pawn = Ok icon
                 /\ files w' !! icon_path size = Some (png_encode icon)) xs.
Proof.
  induction xs as [|x xs IH]; intros Hnd w w' Hrun; simpl in *.
  - injection Hrun as <-. rewrite app_nil_r. repeat split; auto.
  - apply NoDup_cons in Hnd. destruct Hnd as [Hx Hnd].
    apply io_bind_inv in Hrun. destruct Hrun as ([] & w1 & H1 & Hrun).
    apply make_icon_inv in H1. destruct H1 as (icon & Ei & ->).
    destruct (IH Hnd _ _ Hrun) as (Hd & Hl & Hf & Hall). simpl in *.
    split; [exact Hd|]. split; [rewrite Hl, <- !app_assoc; reflexivity|].
    split.
    + intros p Hp. apply not_elem_of_cons in Hp. destruct Hp as [Hne Hp].
      rewrite Hf by exact Hp. now rewrite lookup_insert_ne.
    + constructor; [|exact Hall].
      exists icon. split; [exact Ei|]. rewrite Hf by exact Hx. apply lookup_insert_eq.
Qed.

Lemma icon_loop_ok pawn xs :
  Forall (fun size => 0 <= size <= INT_MAX
                      /\ dirname (icon_path size) = Some icon_dir
                      /\ icon_path size <> icon_dir) xs ->
  forall w, icon_dir ∈ dirs w -> files w !! icon_dir = None ->
    Forall (fun size => icon_path size ∉ dirs w) xs ->
    exists w', io_for xs (make_icon pawn) w = (Ok tt, w').
Proof.
  induction 1 as [|x xs (Hs & Hd & Hne) _ IH]; intros w Hin Hf Hfree; simpl.
  - eexists. reflexivity.
  - apply Forall_cons in Hfree. destruct Hfree as [Hx Hfree].
    destruct (make_icon_ok pawn x w Hs Hd Hin Hf Hx) as (icon & _ & E).
    erewrite io_bind_ok by exact E.
    apply IH; simpl; try easy. now rewrite lookup_insert_ne.
Qed.


Lemma output_paths_NoDup : NoDup output_paths.
Proof. apply (bool_decide_unpack _). vm_compute. exact I. Qed.

Lemma icon_paths_NoDup : NoDup (map icon_path sizes).
Proof.
  pose proof output_paths_NoDup as Hnd. unfold output_paths in Hnd.
  now apply NoDup_app in Hnd.
Qed.

Lemma manifest_not_icon : manifest_path ∉ map icon_path sizes.
Proof.
  pose proof output_paths_NoDup as Hnd. unfold output_paths in Hnd.
  apply NoDup_app in Hnd. destruct Hnd as (_ & Hd & _).
  intros Hin. apply (Hd _ Hin). now left.
Qed.

Lemma output_paths_not_ancestors :
  Forall (fun p => p ∉ ["LichessApp"; "LichessApp/Assets.xcassets"; icon_dir]%string)
         output_paths.
Proof. apply (bool_decide_unpack _). vm_compute. exact I. Qed.

Lemma icon_dir_not_icon : icon_dir ∉ map icon_path sizes.
Proof. apply (bool_decide_unpack _). vm_compute. exact I. Qed.

Lemma icon_dir_ancestors :
  ancestors (String.length icon_dir) icon_dir
  = ["LichessApp"; "LichessApp/Assets.xcassets"; icon_dir]%string.
Proof. vm_compute. reflexivity. Qed.

Lemma sizes_facts :
  Forall (fun size => 0 <= size <= INT_MAX
                      /\ dirname (icon_path size) = Some icon_dir
                      /\ icon_path size <> icon_dir) sizes.
Proof.
  unfold sizes. repeat constructor; try (vm_compute; congruence).
Qed.

Lemma manifest_facts :
  dirname manifest_path = Some icon_dir /\ manifest_path <> icon_dir.
Proof. split; [vm_compute; reflexivity|vm_compute; congruence]. Qed.

Lemma mkdir_exist_ok_inv path w w' :
  mkdir_exist_ok path w = (Ok tt, w') ->
  files w' = files w /\ path ∈ dirs w'
  /\ (forall d, d ∈ dirs w' <-> d = path \/ d ∈ dirs w)
  /\ exists mk, log w' = log w ++ mk /\ Forall is_mkdir mk.
Proof.
  unfold mkdir_exist_ok. destruct (bool_decide (path ∈ dirs w)) eqn:Hin.
  - intros [= <-]. apply bool_decide_eq_true_1 in Hin.
    repeat split; auto; [intros [->|]; auto|].
    exists []. now rewrite app_nil_r.
  - repeat case_match; intros [=]; subst; simpl.
    repeat split; try set_solver.
    exists [EvMkdir path]. split; [reflexivity|]. now repeat constructor.
Qed.

Lemma mkdirs_inv paths :
  forall w w', io_for paths mkdir_exist_ok w = (Ok tt, w') ->
    files w' = files w
    /\ (forall d, d ∈ dirs w' <-> d ∈ paths \/ d ∈ dirs w)
    /\ exists mk, log w' = log w ++ mk /\ Forall is_mkdir mk.
Proof.
  induction paths as [|p ps IH]; intros w w' Hrun; simpl in *.
  - injection Hrun as <-. split; [reflexivity|]. split; [set_solver|].
    exists []. now rewrite app_nil_r.
  - apply io_bind_inv in Hrun. destruct Hrun as ([] & w1 & H1 & Hrun).
    apply mkdir_exist_ok_inv in H1. destruct H1 as (Hf1 & _ & Hd1 & mk1 & Hl1 & Hm1).
    destruct (IH _ _ Hrun) as (Hf & Hd & mk & Hl & Hm).
    split; [congruence|]. split.
    + intros d. rewrite Hd, Hd1. set_solver.
    + exists (mk1 ++ mk). split; [rewrite Hl, Hl1; now rewrite app_assoc|].
      now apply Forall_app.
Qed.

Lemma mkdir_exist_ok_ok path w :
  files w !! path = None ->
  match dirname path with
  | Some d => d ∈ dirs w /\ files w !! d = None
  | None => True
  end ->
  exists w', mkdir_exist_ok path w = (Ok tt, w').
Proof.
  intros Hf Hp. unfold mkdir_exist_ok, parent_is_file, parent_is_dir.
  destruct (bool_decide (path ∈ dirs w)); [eexists; reflexivity|].
  rewrite (bool_decide_eq_false_2 (is_Some (files w !! path)))
    by (rewrite Hf; apply is_Some_None).
  destruct (dirname path) as [d|].
  - destruct Hp as [Hd Hfd].
    rewrite (bool_decide_eq_false_2 (is_Some (files w !! d)))
      by (rewrite Hfd; apply is_Some_None).
    rewrite (bool_decide_eq_true_2 (d ∈ dirs w)) by easy.
    rewrite orb_true_r. eexists. reflexivity.
  - eexists. reflexivity.
Qed.

Lemma makedirs_icon_dir_ok w :
  Forall (fun d => files w !! d = None) (ancestors (String.length icon_dir) icon_dir) ->
  exists w', makedirs icon_dir w = (Ok tt, w').
Proof.
  unfold makedirs. rewrite icon_dir_ancestors. intros Hfree.
  apply Forall_cons in Hfree. destruct Hfree as [F1 Hfree].
  apply Forall_cons in Hfree. destruct Hfree as [F2 Hfree].
  apply Forall_cons in Hfree. destruct Hfree as [F3 _].
  simpl io_for.
  destruct (mkdir_exist_ok_ok "LichessApp" w F1) as [w1 E1]; [exact I|].
  erewrite io_bind_ok by exact E1.
  apply mkdir_exist_ok_inv in E1. destruct E1 as (Hf1 & Hin1 & Hd1 & _).
  destruct (mkdir_exist_ok_ok "LichessApp/Assets.xcassets" w1) as [w2 E2].
  { now rewrite Hf1. } { simpl. split; [exact Hin1|now rewrite Hf1]. }
  erewrite io_bind_ok by exact E2.
  apply mkdir_exist_ok_inv in E2. destruct E2 as (Hf2 & Hin2 & Hd2 & _).
  destruct (mkdir_exist_ok_ok icon_dir w2) as [w3 E3].
  { now rewrite Hf2, Hf1. } { simpl. split; [exact Hin2|now rewrite Hf2, Hf1]. }
  erewrite io_bind_ok by exact E3. eexists. reflexivity.
Qed.


(** A complete run, taken apart: what was read, and what is on disk and
    in the log afterwards. *)
Lemma main_inv w w' :
  main w = (Ok tt, w') ->
  exists data pawn mk,
    files w !! pawn_path = Some data
    /\ image_decode data = Ok pawn
    /\ Forall is_mkdir mk
    /\ log w' = log w ++ mk ++ flat_map icon_events sizes
                 ++ [EvSave manifest_path; EvPrint "Done!"]
    /\ files w' !! manifest_path = Some (json_dump contents)
    /\ Forall (fun size => exists icon, create_icon size pawn = Ok icon
                 /\ files w' !! icon_path size = Some (png_encode icon)) sizes
    /\ (forall p, p ∉ output_paths -> files w' !! p = files w !! p).
Proof.
  unfold main. intros Hrun.
  apply io_bind_inv in Hrun. destruct Hrun as (pawn & w0 & Hopen & Hrun).
  unfold Image_open in Hopen.
  apply io_bind_inv in Hopen. destruct Hopen as (data & w00 & Hread & Hdec).
  unfold read_file in Hread.
  destruct (files w !! pawn_path) as [data'|] eqn:Hpawn; [|discriminate].
  injection Hread as -> ->. unfold lift in Hdec. injection Hdec as Hdec <-.
  apply io_bind_inv in Hrun. destruct Hrun as ([] & w1 & Hmk & Hrun).
  apply mkdirs_inv in Hmk. destruct Hmk as (Hf1 & _ & mk & Hl1 & Hmk).
  apply io_bind_inv in Hrun. destruct Hrun as ([] & w2 & Hloop & Hrun).
  apply (icon_loop_inv pawn sizes icon_paths_NoDup) in Hloop.
  destruct Hloop as (_ & Hl2 & Hf2 & Hicons).
  apply io_bind_inv in Hrun. destruct Hrun as ([] & w3 & Hman & Hrun).
  apply write_file_inv in Hman. subst w3.
  unfold print in Hrun. injection Hrun as <-. simpl.
  exists data, pawn, mk. split; [reflexivity|]. split; [exact Hdec|]. split; [exact Hmk|].
  split. { rewrite Hl2, Hl1, <- !app_assoc. reflexivity. }
  split. { apply lookup_insert_eq. }
  split.
  - rewrite Forall_forall in Hicons. apply Forall_forall. intros size Hin.
    destruct (Hicons size Hin) as (icon & Ei & Hfile).
    exists icon. split; [exact Ei|]. rewrite lookup_insert_ne; [exact Hfile|].
    intros Heq. apply manifest_not_icon. rewrite Heq.
    apply list_elem_of_fmap. now exists size.
  - intros p Hp. unfold output_paths in Hp. apply not_elem_of_app in Hp.
    destruct Hp as [Hp1 Hp2]. apply not_elem_of_cons in Hp2. destruct Hp2 as [Hp2 _].
    rewrite lookup_insert_ne by congruence. rewrite Hf2 by exact Hp1. now rewrite Hf1.
Qed.

(** A run completes whenever the source image is there and decodes, and
    nothing stands in the way of the outputs. *)
Lemma main_ok w data pawn :
  files w !! pawn_path = Some data -> image_decode data = Ok pawn ->
  outputs_free w ->
  exists w', main w = (Ok tt, w').
Proof.
  intros Hpawn Hdec [Hanc Hfree]. unfold main.
  rewrite (io_bind_ok _ _ w pawn w).
  2:{ unfold Image_open. rewrite (io_bind_ok _ _ w data w).
      - unfold lift. now rewrite Hdec.
      - unfold read_file. now rewrite Hpawn. }
  destruct (makedirs_icon_dir_ok w Hanc) as [w1 Emk].
  erewrite io_bind_ok by exact Emk.
  apply mkdirs_inv in Emk. destruct Emk as (Hf1 & Hd1 & _).
  rewrite icon_dir_ancestors in Hanc, Hd1.
  assert (Hdir : icon_dir ∈ dirs w1) by (apply Hd1; left; set_solver).
  assert (Hnf : files w1 !! icon_dir = None).
  { rewrite Hf1. rewrite Forall_forall in Hanc. apply Hanc. set_solver. }
  assert (Hfree1 : Forall (fun p => p ∉ dirs w1) output_paths).
  { rewrite Forall_forall in Hfree. apply Forall_forall. intros p Hp Hin.
    apply Hd1 in Hin. destruct Hin as [Hin|Hin]; [|now apply (Hfree p Hp)].
    pose proof output_paths_not_ancestors as Hna. rewrite Forall_forall in Hna.
    now apply (Hna p Hp). }
  unfold output_paths in Hfree1. apply Forall_app in Hfree1.
  destruct Hfree1 as [Hfi Hfm]. apply Forall_cons in Hfm. destruct Hfm as [Hfm _].
  destruct (icon_loop_ok pawn sizes sizes_facts w1 Hdir Hnf) as [w2 Eloop].
  { apply Forall_forall. intros size Hin. rewrite Forall_forall in Hfi.
    apply Hfi. apply list_elem_of_fmap. now exists size. }
  erewrite io_bind_ok by exact Eloop.
  apply (icon_loop_inv pawn sizes icon_paths_NoDup) in Eloop.
  destruct Eloop as (Hd2 & _ & Hf2 & _).
  destruct manifest_facts as [Hmd Hmne].
  erewrite io_bind_ok.
  2:{ eapply write_file_ok; [exact Hmd| | |]; rewrite ?Hd2; try easy.
      rewrite Hf2; [exact Hnf|]. apply icon_dir_not_icon. }
  eexists. reflexivity.
Qed.

Lemma saved_paths_app l1 l2 : saved_paths (l1 ++ l2) = saved_paths l1 ++ saved_paths l2.
Proof. unfold saved_paths. apply omap_app. Qed.

Lemma saved_paths_mkdirs mk : Forall is_mkdir mk -> saved_paths mk = [].
Proof.
  induction 1 as [|ev mk Hev _ IH]; [reflexivity|].
  destruct ev; try contradiction. exact IH.
Qed.

Lemma saved_paths_icons xs : saved_paths (flat_map icon_events xs) = map icon_path xs.
Proof. induction xs as [|x xs IH]; [reflexivity|]. simpl. now rewrite <- IH. Qed.

(** The files a complete run saves, in order: one PNG per size, then
    the manifest. *)
Lemma main_saves w w' :
  main w = (Ok tt, w') ->
  exists new, log w' = log w ++ new /\ saved_paths new = output_paths.
Proof.
  intros Hrun. destruct (main_inv w w' Hrun) as (_ & _ & mk & _ & _ & Hmk & Hlog & _).
  eexists. split; [exact Hlog|].
  rewrite !saved_paths_app, saved_paths_mkdirs, saved_paths_icons by exact Hmk.
  reflexivity.
Qed.

(** C1. For every size N of the fixed size list, [create_icon N pawn]
    returns an image exactly N pixels wide and N pixels tall, and a
    complete run saves that image as icon_NxN.png. *)
Theorem icons_have_requested_size pawn size :
  size ∈ sizes ->
  exists icon,
    create_icon size pawn = Ok icon
    /\ width icon = size /\ height icon = size
    /\ length (rows icon) = Z.to_nat size
    /\ Forall (fun row => length row = Z.to_nat size) (rows icon)
    /\ forall w w' data,
         files w !! pawn_path = Some data -> image_decode data = Ok pawn ->
         main w = (Ok tt, w') ->
         files w' !! icon_path size = Some (png_encode icon).
Proof.
  intros Hin. pose proof sizes_facts as Hsz. rewrite Forall_forall in Hsz.
  destruct (Hsz size Hin) as (Hs & _).
  destruct (create_icon_ok size pawn Hs)
    as (_ & _ & icon & _ & _ & _ & Ei & _ & (_ & _ & Hlen & Hrows) & Hw & Hh & _).
  exists icon. split; [exact Ei|]. split; [exact Hw|]. split; [exact Hh|].
  rewrite Hh in Hlen. rewrite Hw in Hrows. split; [exact Hlen|]. split; [exact Hrows|].
  intros w w' data Hdata Hdec Hrun.
  destruct (main_inv w w' Hrun) as (data' & pawn' & _ & Hdata' & Hdec' & _ & _ & _ & Hicons & _).
  rewrite Hdata in Hdata'. injection Hdata' as <-.
  rewrite Hdec in Hdec'. injection Hdec' as <-.
  rewrite Forall_forall in Hicons. destruct (Hicons size Hin) as (icon' & Ei' & Hfile).
  rewrite Ei in Ei'. injection Ei' as <-. exact Hfile.
Qed.

(** C3. The manifest a complete run writes to Contents.json is the fixed
    catalog of the script: its images array has exactly 10 records,
    whatever the input. *)
Theorem manifest_has_ten_entries w w' :
  main w = (Ok tt, w') ->
  files w' !! manifest_path = Some (json_dump contents)
  /\ length (images contents) = 10%nat.
Proof.
  intros Hrun. destruct (main_inv w w' Hrun) as (_ & _ & _ & _ & _ & _ & _ & Hman & _).
  split; [exact Hman|reflexivity].
Qed.

(** C4. The manifest lists the generated assets: a complete run saves
    icon_NxN.png for each N of the size list; each of these names is
    the filename of at least one record of the manifest, and every
    filename in the manifest is one of these names. *)
Theorem manifest_lists_generated_files w w' :
  main w = (Ok tt, w') ->
  (exists new, log w' = log w ++ new
               /\ saved_paths new = map icon_path sizes ++ [manifest_path])
  /\ files w' !! manifest_path = Some (json_dump contents)
  /\ Forall (fun size => icon_name size ∈ map Entry.filename (images contents)) sizes
  /\ Forall (fun entry => Entry.filename entry ∈ map icon_name sizes) (images contents).
Proof.
  intros Hrun. split; [exact (main_saves w w' Hrun)|].
  destruct (main_inv w w' Hrun) as (_ & _ & _ & _ & _ & _ & _ & Hman & _).
  split; [exact Hman|].
  split; apply (bool_decide_unpack _); vm_compute; exact I.
Qed.

(** C5, as amended. A complete run saves one PNG per requested size,
    seven in all and under seven different names, and then the
    manifest: eight files. *)
Theorem run_saves_icons_and_manifest w w' :
  main w = (Ok tt, w') ->
  exists new,
    log w' = log w ++ new
    /\ saved_paths new = map icon_path sizes ++ [manifest_path]
    /\ NoDup (saved_paths new)
    /\ length (map icon_path sizes) = length sizes
    /\ length sizes = 7%nat
    /\ length (saved_paths new) = 8%nat.
Proof.
  intros Hrun. destruct (main_saves w w' Hrun) as (new & Hlog & Hsaved).
  exists new. split; [exact Hlog|]. split; [exact Hsaved|].
  rewrite Hsaved. split; [exact output_paths_NoDup|]. repeat split.
Qed.

(** C6. If there is no file at the fixed input path the run aborts with
    an exception, FileNotFoundError unless the path is a directory, and
    leaves the world as it was: no directory created, no file written,
    nothing logged. *)
Theorem missing_source_aborts w :
  files w !! pawn_path = None ->
  exists e, main w = (Raise e, w)
            /\ (pawn_path ∉ dirs w -> e = FileNotFoundError).
Proof.
  intros Hnone. unfold main, Image_open.
  exists (if bool_decide (pawn_path ∈ dirs w) then IsADirectoryError else FileNotFoundError).
  split.
  - apply io_bind_raise. apply io_bind_raise. unfold read_file. now rewrite Hnone.
  - intros Hnd. now rewrite bool_decide_eq_false_2.
Qed.

(** C7. The outputs are a function of the source image alone: two
    complete runs that read the same bytes at the input path leave the
    same contents in every output PNG and in the manifest, whatever else
    the two worlds hold. *)
Theorem outputs_depend_only_on_source w1 w2 w1' w2' :
  files w1 !! pawn_path = files w2 !! pawn_path ->
  main w1 = (Ok tt, w1') -> main w2 = (Ok tt, w2') ->
  Forall (fun p => is_Some (files w1' !! p) /\ files w1' !! p = files w2' !! p)
         output_paths.
Proof.
  intros Hsame Hrun1 Hrun2.
  destruct (main_inv w1 w1' Hrun1) as (data & pawn & _ & Hd1 & Hdec1 & _ & _ & Hm1 & Hi1 & _).
  destruct (main_inv w2 w2' Hrun2) as (data' & pawn' & _ & Hd2 & Hdec2 & _ & _ & Hm2 & Hi2 & _).
  rewrite Hsame, Hd2 in Hd1. injection Hd1 as ->.
  rewrite Hdec1 in Hdec2. injection Hdec2 as <-.
  unfold output_paths. apply Forall_app. split.
  - apply Forall_fmap. rewrite Forall_forall in Hi1, Hi2. apply Forall_forall.
    intros size Hin. simpl.
    destruct (Hi1 size Hin) as (icon & Ei & ->).
    destruct (Hi2 size Hin) as (icon' & Ei' & ->).
    rewrite Ei in Ei'. injection Ei' as <-. split; [by eexists|reflexivity].
  - constructor; [|constructor]. rewrite Hm1, Hm2. split; [by eexists|reflexivity].
Qed.

End Run.

(** ** Examples: the claims at concrete inputs *)

Section Examples.

#[local] Existing Instance example_runtime.

Lemma example_world_free : outputs_free example_world.
Proof.
  split.
  - rewrite icon_dir_ancestors. repeat constructor.
  - apply (bool_decide_unpack _). vm_compute. exact I.
Qed.

Lemma other_world_free : outputs_free other_world.
Proof.
  split.
  - rewrite icon_dir_ancestors. repeat constructor.
  - apply (bool_decide_unpack _). vm_compute. exact I.
Qed.

Lemma example_run : exists w', main example_world = (Ok tt, w').
Proof.
  apply (main_ok example_world [Byte.x89; Byte.x50; Byte.x4e; Byte.x47] example_pawn);
    [reflexivity|reflexivity|exact example_world_free].
Qed.

Lemma other_run : exists w', main other_world = (Ok tt, w').
Proof.
  apply (main_ok other_world [Byte.x89; Byte.x50; Byte.x4e; Byte.x47] example_pawn);
    [reflexivity|reflexivity|exact other_world_free].
Qed.

Lemma icons_have_requested_size_witness :
  16 ∈ sizes
  /\ exists icon,
      create_icon 16 example_pawn = Ok icon
      /\ width icon = 16 /\ height icon = 16
      /\ length (rows icon) = Z.to_nat 16
      /\ Forall (fun row => length row = Z.to_nat 16) (rows icon)
      /\ forall w w' data,
           files w !! pawn_path = Some data -> image_decode data = Ok example_pawn ->
           main w = (Ok tt, w') ->
           files w' !! icon_path 16 = Some (png_encode icon).
Proof.
  assert (Hin : 16 ∈ sizes) by (unfold sizes; constructor).
  split; [exact Hin|]. exact (icons_have_requested_size example_pawn 16 Hin).
Defined.

Lemma manifest_has_ten_entries_witness :
  exists w', main example_world = (Ok tt, w')
    /\ files w' !! manifest_path = Some (json_dump contents)
    /\ length (images contents) = 10%nat.
Proof.
  destruct example_run as [w' Hrun]. exists w'.
  split; [exact Hrun|]. exact (manifest_has_ten_entries example_world w' Hrun).
Defined.

Lemma manifest_lists_generated_files_witness :
  exists w', main example_world = (Ok tt, w')
    /\ (exists new, log w' = log example_world ++ new
                    /\ saved_paths new = map icon_path sizes ++ [manifest_path])
    /\ files w' !! manifest_path = Some (json_dump contents)
    /\ Forall (fun size => icon_name size ∈ map Entry.filename (images contents)) sizes
    /\ Forall (fun entry => Entry.filename entry ∈ map icon_name sizes) (images contents).
Proof.
  destruct example_run as [w' Hrun]. exists w'.
  split; [exact Hrun|]. exact (manifest_lists_generated_files example_world w' Hrun).
Defined.

Lemma run_saves_icons_and_manifest_witness :
  exists w', main example_world = (Ok tt, w')
    /\ exists new,
        log w' = log example_world ++ new
        /\ saved_paths new = map icon_path sizes ++ [manifest_path]
        /\ NoDup (saved_paths new)
        /\ length (map icon_path sizes) = length sizes
        /\ length sizes = 7%nat
        /\ length (saved_paths new) = 8%nat.
Proof.
  destruct example_run as [w' Hrun]. exists w'.
  split; [exact Hrun|]. exact (run_saves_icons_and_manifest example_world w' Hrun).
Defined.

(** C5, as stated, fails: a complete run from [example_world] saves
    eight files, one more than the seven requested sizes. *)
Lemma run_saves_more_files_than_sizes :
  exists w', main example_world = (Ok tt, w')
    /\ length (saved_paths (log w')) = 8%nat
    /\ length (saved_paths (log w')) <> length sizes.
Proof.
  destruct example_run as [w' Hrun]. exists w'. split; [exact Hrun|].
  destruct (main_saves example_world w' Hrun) as (new & Hlog & Hsaved).
  simpl in Hlog. rewrite Hlog, Hsaved. split; [reflexivity|discriminate].
Qed.

Lemma missing_source_aborts_witness :
  files (mkWorld ∅ ∅ []) !! pawn_path = None
  /\ exists e, main (mkWorld ∅ ∅ []) = (Raise e, mkWorld ∅ ∅ [])
               /\ (pawn_path ∉ dirs (mkWorld ∅ ∅ []) -> e = FileNotFoundError).
Proof.
  split; [reflexivity|]. apply (missing_source_aborts (mkWorld ∅ ∅ [])). reflexivity.
Defined.

Lemma outputs_depend_only_on_source_witness :
  exists w1' w2',
    files example_world !! pawn_path = files other_world !! pawn_path
    /\ main example_world = (Ok tt, w1') /\ main other_world = (Ok tt, w2')
    /\ Forall (fun p => is_Some (files w1' !! p) /\ files w1' !! p = files w2' !! p)
              output_paths.
Proof.
  destruct example_run as [w1' Hrun1]. destruct other_run as [w2' Hrun2].
  exists w1', w2'. split; [reflexivity|]. split; [exact Hrun1|]. split; [exact Hrun2|].
  exact (outputs_depend_only_on_source example_world other_world w1' w2'
           eq_refl Hrun1 Hrun2).
Defined.

Lemma pawn_is_centered_witness :
  exists icon,
    create_icon 16 example_pawn = Ok icon
    /\ exists bg pawn_size offset,
        create_rounded_gradient 16 = Ok bg
        /\ (Float.int_mul 16 Float.lit_0_7 ≫= Float.to_int) = Ok pawn_size
        /\ offset = (16 - pawn_size) `div` 2
        /\ paste bg (resize example_pawn pawn_size pawn_size) (offset, offset)
                 (resize example_pawn pawn_size pawn_size) = Ok icon
        /\ 2 * offset <= 16 - pawn_size <= 2 * offset + 1
        /\ 0 <= offset /\ offset + pawn_size <= 16
        /\ forall x y, 0 <= x < 16 -> 0 <= y < 16 ->
             getpixel icon x y =
               (fun px =>
                  if in_box offset pawn_size x y then
                    blend (resample example_pawn pawn_size pawn_size (x - offset) (y - offset))
                          px
                          (resample example_pawn pawn_size pawn_size (x - offset) (y - offset))
                  else px) <$> getpixel bg x y.
Proof.
  eexists. split; [vm_compute; reflexivity|].
  apply (pawn_is_centered 16 example_pawn). vm_compute. reflexivity.
Defined.

End Examples.

(** ** The distance test, exactly

    Below 2^53 an int converts to a float without rounding and the
    square root of a perfect square is exact, so that for radii up to
    2^25 the float test [dist <= radius] is the comparison of the
    squares; for larger radii the rounding lemmas still decide the test
    away from the circle. *)

Section Distance.
Import Float.

(** A value that already has 53 bits is not changed by rounding. *)
Lemma binary_round_aux_exact s mx ex :
  2 ^ 52 <= mx < 2 ^ 53 -> -1074 <= ex <= 971 ->
  binary_round_aux prec emax s mx ex loc_Exact = S754_finite s (Z.to_pos mx) ex.
Proof.
  intros Hm He.
  assert (Hd : Zdigits2 mx = 53) by (apply Zdigits2_unique; simpl; lia).
  unfold binary_round_aux, shr_fexp. simpl round_nearest_even.
  rewrite Hd, fexp_normal by lia.
  replace (53 + ex - 53 - ex) with 0 by lia. simpl.
  rewrite Hd, fexp_normal by lia.
  replace (53 + ex - 53 - ex) with 0 by lia. simpl.
  destruct mx as [|p|p]; try lia. simpl.
  destruct (Z.leb_spec ex (emax - prec)); [reflexivity|unfold emax, prec in *; lia].
Qed.

(** An int below 2^53 converts without rounding. *)
Lemma of_int_exact n :
  0 < n < 2 ^ 53 ->
  exists m e, of_int n = Ok (S754_finite false m e)
    /\ 2 ^ 52 <= Zpos m < 2 ^ 53 /\ -52 <= e <= 0 /\ n * 2 ^ (- e) = Zpos m.
Proof.
  intros Hn. destruct n as [|p|p]; try lia.
  unfold of_int, binary_normalize, binary_round.
  pose proof (digits2_bounds p) as Hb. set (d := Zpos (digits2_pos p)) in *.
  assert (Hd : 1 <= d <= 53).
  { split; [unfold d; lia|].
    destruct (Z.le_gt_cases d 53); [easy|].
    assert (2 ^ 53 <= 2 ^ (d - 1)) by (apply Z.pow_le_mono_r; lia). lia. }
  rewrite fexp_normal by lia. rewrite shl_align_value by lia.
  replace (0 - (d + 0 - 53)) with (53 - d) by lia.
  assert (Hp : 2 ^ 52 <= Zpos p * 2 ^ (53 - d) < 2 ^ 53).
  { assert (E1 : 2 ^ 52 = 2 ^ (d - 1) * 2 ^ (53 - d)).
    { rewrite <- Z.pow_add_r by lia. f_equal. lia. }
    assert (E2 : 2 ^ 53 = 2 ^ d * 2 ^ (53 - d)).
    { rewrite <- Z.pow_add_r by lia. f_equal. lia. }
    assert (0 < 2 ^ (53 - d)) by (apply Z.pow_pos_nonneg; lia).
    rewrite E1, E2. split; nia. }
  rewrite binary_round_aux_exact; rewrite ?Z2Pos.id by lia; try lia.
  exists (Z.to_pos (Zpos p * 2 ^ (53 - d))), (d + 0 - 53).
  rewrite Z2Pos.id by lia. split; [reflexivity|].
  split; [exact Hp|]. split; [lia|]. f_equal. f_equal. lia.
Qed.

(** The square root of a perfect square below 2^52 is exact. *)
Lemma sqrt_int_square r :
  0 < r < 2 ^ 26 ->
  exists dist, sqrt_int (r * r) = Ok dist /\ le_int dist r = true.
Proof.
  intros Hr.
  assert (Hrr : 0 < r * r < 2 ^ 53).
  { change (2 ^ 53) with (2 ^ 26 * (2 ^ 26 * 2)). split; nia. }
  destruct (of_int_exact (r * r) Hrr) as (mx & ex & E & Bx & Hex & Hv).
  unfold sqrt_int. destruct (Z.ltb_spec (r * r) 0); [lia|]. rewrite E, bind_Ok.
  eexists. split; [reflexivity|].
  assert (Dx : digits2_pos mx = 53%positive).
  { apply Pos2Z.inj. apply digits2_unique. simpl. lia. }
  unfold sqrt. simpl SFsqrt. unfold SFsqrt_core_binary.
  simpl Zdigits2. rewrite Dx, !Z.div2_div.
  set (h := ex / 2).
  assert (Hh : 2 * h <= ex <= 2 * h + 1).
  { unfold h. pose proof (Z.mul_div_le ex 2). pose proof (Z.mul_succ_div_gt ex 2). lia. }
  replace ((53 + ex + 1) / 2) with (27 + h).
  2:{ unfold h. replace (53 + ex + 1) with (ex + 27 * 2) by lia.
      rewrite Z.div_add by lia. lia. }
  rewrite fexp_normal by lia.
  replace (Z.min (27 + h - 53) h) with (h - 26) by lia.
  set (sh := ex - 2 * (h - 26)).
  assert (Hsh : 52 <= sh <= 53) by (unfold sh; lia).
  destruct sh as [|ps|ps] eqn:Es; try lia. rewrite <- Es.
  rewrite Z.shiftl_mul_pow2 by lia.
  set (t := 26 - h).
  assert (Ht : 26 <= t <= 52) by (unfold t; lia).
  assert (Hm' : Zpos mx * 2 ^ sh = (r * 2 ^ t) * (r * 2 ^ t)).
  { rewrite <- Hv. replace sh with (ex + 2 * t) by (unfold sh, t; lia).
    replace (r * r * 2 ^ (- ex) * 2 ^ (ex + 2 * t))
      with (r * r * (2 ^ (- ex) * 2 ^ (ex + 2 * t))) by ring.
    rewrite <- Z.pow_add_r by lia. replace (- ex + (ex + 2 * t)) with (t + t) by lia.
    rewrite Z.pow_add_r by lia. ring. }
  rewrite Hm'. set (a := r * 2 ^ t) in *.
  assert (Ha : 0 < a).
  { unfold a. assert (0 < 2 ^ t) by (apply Z.pow_pos_nonneg; lia). nia. }
  pose proof (Z.sqrtrem_spec (a * a)) as Hs.
  destruct (Z.sqrtrem (a * a)) as [q rem]. destruct Hs as [Hqr Hrem]; [nia|].
  assert (Hq : q = a) by nia. subst q.
  assert (Hrem0 : rem = 0) by lia. subst rem. simpl (0 =? 0).
  assert (Ba : 2 ^ 52 <= a < 2 ^ 53).
  { assert (Hsh' : sh = 52 \/ sh = 53) by lia.
    change (2 ^ 52) with 4503599627370496 in *. change (2 ^ 53) with 9007199254740992 in *.
    destruct Hsh' as [Hs|Hs]; rewrite Hs in Hm'.
    - change (2 ^ 52) with 4503599627370496 in Hm'. nia.
    - change (2 ^ 53) with 9007199254740992 in Hm'. nia. }
  rewrite binary_round_aux_exact by lia.
  replace (h - 26) with (- t) by (unfold t; lia).
  destruct t as [|pt|pt] eqn:Et; try lia. simpl Z.opp. unfold le_int.
  rewrite Z2Pos.id by lia. apply Z.leb_le. unfold a. lia.
Qed.

(** The distance [math.sqrt(s)] of an int, with the error of its two
    roundings. *)
Lemma sqrt_int_enclosure s :
  0 < s < 2 ^ 62 ->
  exists m e, sqrt_int s = Ok (S754_finite false m e)
    /\ (0 < IZR (Zpos m) * bpow e)%R
    /\ ((IZR (Zpos m) * bpow e * (1 - eps)) ^ 2 * (1 - eps) <= IZR s)%R
    /\ (IZR s <= (IZR (Zpos m) * bpow e * (1 + eps)) ^ 2 * (1 + eps))%R.
Proof.
  intros [Hs0 Hs1].
  assert (H62 : 2 ^ 62 <= 2 ^ 1023) by (apply Z.pow_le_mono_r; lia).
  destruct (of_int_normal s) as (mf & ef & Ef & Pf & Hef & Hf1 & Hf2); [lia|].
  assert (Hd1 : 1 <= Zdigits2 s) by (apply Zdigits2_ge; simpl; lia).
  assert (Hd2 : Zdigits2 s <= 62) by (apply Zdigits2_le; lia).
  destruct (sqrt_normal _ _ _ Pf) as (m & e & Pd & Hd3 & Hd4); [lia|].
  pose proof (pnormal_pos _ _ _ Pd) as HD. pose proof (pnormal_B2R _ _ _ Pd) as HV.
  exists m, e. split.
  { unfold sqrt_int. destruct (Z.ltb_spec s 0); [lia|]. rewrite Ef, bind_Ok.
    destruct Pd as [-> _]. reflexivity. }
  rewrite HV in *. simpl B2R in Hd3, Hd4.
  pose proof eps_val as Hev.
  set (D := (IZR (Zpos m) * bpow e)%R) in *. set (F := (IZR (Zpos mf) * bpow ef)%R) in *.
  set (S' := IZR s) in *. clearbody D F S'. clear - Hf1 Hf2 Hd3 Hd4 HD Hev.
  split; [exact HD|]. split.
  - apply Rle_trans with (F * (1 - eps))%R; [|easy].
    apply Rmult_le_compat_r; [rewrite Hev; lra|easy].
  - apply Rle_trans with (F * (1 + eps))%R; [easy|].
    apply Rmult_le_compat_r; [rewrite Hev; lra|easy].
Qed.

(** A point within [radius / sqrt 2] of the corner centre passes the
    test, whatever the size. *)
Lemma near_centre s radius :
  0 <= s -> 2 * s <= radius * radius -> 0 <= radius <= INT_MAX ->
  exists dist, sqrt_int s = Ok dist /\ le_int dist radius = true.
Proof.
  intros Hs0 Hs Hr. destruct (Z.eq_dec s 0) as [->|Hne].
  { exists (S754_zero false). split; [reflexivity|]. apply Z.leb_le. lia. }
  assert (Hs62 : s < 2 ^ 62).
  { unfold INT_MAX in Hr. change (2 ^ 62) with 4611686018427387904. nia. }
  destruct (sqrt_int_enclosure s) as (m & e & E & HD & H1 & _); [lia|].
  eexists. split; [exact E|].
  destruct (le_int (S754_finite false m e) radius) eqn:Hle; [reflexivity|exfalso].
  assert (Hgt : (IZR radius < IZR (Zpos m) * bpow e)%R).
  { apply Rnot_le_lt. intros Hc. apply le_int_spec in Hc. congruence. }
  apply IZR_le in Hs. rewrite !mult_IZR in Hs.
  assert (Hr0 : (0 <= IZR radius)%R) by (apply IZR_le; lia).
  pose proof eps_val as Hev.
  set (D := (IZR (Zpos m) * bpow e)%R) in *. set (S' := IZR s) in *.
  set (Rr := IZR radius) in *. clearbody D S' Rr. clear - H1 Hgt Hs Hr0 Hev.
  assert (Hsq : ((Rr * (1 - eps)) ^ 2 <= (D * (1 - eps)) ^ 2)%R).
  { apply pow_incr. rewrite Hev. split; [apply Rmult_le_pos; lra|].
    apply Rmult_le_compat_r; lra. }
  replace ((Rr * (1 - eps)) ^ 2)%R with (Rr * Rr * ((1 - eps) * (1 - eps)))%R in Hsq by ring.
  assert (Hdd : (0 < D * D)%R) by (apply Rmult_lt_0_compat; lra).
  assert (Hsq2 : (Rr * Rr * ((1 - eps) * (1 - eps)) * (1 - eps)
                  <= (D * (1 - eps)) ^ 2 * (1 - eps))%R).
  { apply Rmult_le_compat_r; [rewrite Hev; lra|easy]. }
  assert (Hpos : (0 < (D * (1 - eps)) ^ 2 * (1 - eps))%R).
  { replace ((D * (1 - eps)) ^ 2 * (1 - eps))%R
      with (D * D * ((1 - eps) * (1 - eps) * (1 - eps)))%R by ring.
    apply Rmult_lt_0_compat; [easy|]. rewrite Hev. lra. }
  set (R2 := (Rr * Rr)%R) in *. set (X := ((D * (1 - eps)) ^ 2 * (1 - eps))%R) in *.
  rewrite Hev in *. clearbody R2 X. lra.
Qed.

(** A point more than a pixel beyond the radius fails the test, whatever
    the size. *)
Lemma beyond_radius s radius :
  0 <= radius <= INT_MAX -> (radius + 1) * (radius + 1) <= s -> s < 2 ^ 62 ->
  exists dist, sqrt_int s = Ok dist /\ le_int dist radius = false.
Proof.
  intros Hr Hs Hs62.
  destruct (sqrt_int_enclosure s) as (m & e & E & HD & _ & H2); [nia|].
  eexists. split; [exact E|].
  destruct (le_int (S754_finite false m e) radius) eqn:Hle; [exfalso|reflexivity].
  apply le_int_spec in Hle.
  apply IZR_le in Hs. rewrite !mult_IZR, !plus_IZR in Hs.
  assert (Hr0 : (0 <= IZR radius)%R) by (apply IZR_le; lia).
  assert (Hr1 : (IZR radius <= 2147483648)%R) by (apply IZR_le; unfold INT_MAX in Hr; lia).
  pose proof eps_val as Hev.
  set (D := (IZR (Zpos m) * bpow e)%R) in *. set (S' := IZR s) in *.
  set (Rr := IZR radius) in *. clearbody D S' Rr. clear - H2 Hle Hs Hr0 Hr1 HD Hev.
  assert (Hsq : ((D * (1 + eps)) ^ 2 <= (Rr * (1 + eps)) ^ 2)%R).
  { apply pow_incr. rewrite Hev. split; [apply Rmult_le_pos; lra|].
    apply Rmult_le_compat_r; lra. }
  replace ((Rr * (1 + eps)) ^ 2)%R with (Rr * Rr * ((1 + eps) * (1 + eps)))%R in Hsq by ring.
  assert (Hsq2 : ((D * (1 + eps)) ^ 2 * (1 + eps)
                  <= Rr * Rr * ((1 + eps) * (1 + eps)) * (1 + eps))%R).
  { apply Rmult_le_compat_r; [rewrite Hev; lra|easy]. }
  assert (Hrr : (Rr * Rr <= Rr * 2147483648)%R) by (apply Rmult_le_compat_l; lra).
  assert (Hrr0 : (0 <= Rr * Rr)%R) by (apply Rmult_le_pos; lra).
  replace ((Rr + 1) * (Rr + 1))%R with (Rr * Rr + 2 * Rr + 1)%R in Hs by ring.
  set (R2 := (Rr * Rr)%R) in *. set (X := ((D * (1 + eps)) ^ 2 * (1 + eps))%R) in *.
  rewrite Hev in *. clearbody R2 X. lra.
Qed.

(** For radii up to 2^25 the test is the exact integer comparison of
    the squares. *)
Lemma dist_test_exact s radius :
  0 <= s < 2 ^ 62 -> 0 <= radius <= 2 ^ 25 ->
  exists dist, sqrt_int s = Ok dist /\ le_int dist radius = (s <=? radius * radius).
Proof.
  intros Hs Hr. destruct (Z.eq_dec s 0) as [->|Hne].
  { exists (S754_zero false). split; [reflexivity|].
    simpl le_int. destruct (Z.leb_spec 0 radius), (Z.leb_spec 0 (radius * radius)); nia. }
  destruct (Z.eq_dec s (radius * radius)) as [->|Hsq].
  { destruct (sqrt_int_square radius) as (d & E & Hd).
    { change (2 ^ 26) with (2 ^ 25 * 2). split; [nia|lia]. }
    exists d. split; [exact E|]. rewrite Hd. symmetry. apply Z.leb_le. lia. }
  destruct (sqrt_int_enclosure s) as (m & e & E & HD & H1 & H2); [lia|].
  eexists. split; [exact E|].
  assert (Hr0 : (0 <= IZR radius)%R) by (apply IZR_le; lia).
  assert (Hr2 : (IZR radius * IZR radius <= 1125899906842624)%R).
  { rewrite <- mult_IZR. apply IZR_le. change (2 ^ 25) with 33554432 in Hr. nia. }
  pose proof eps_val as Hev.
  destruct (Z.leb_spec s (radius * radius)) as [Hle|Hgt].
  - assert (Hlt : s + 1 <= radius * radius) by lia.
    apply IZR_le in Hlt. rewrite mult_IZR, plus_IZR in Hlt.
    apply le_int_spec. apply Rnot_lt_le. intros Hc.
    set (D := (IZR (Zpos m) * bpow e)%R) in *. set (S' := IZR s) in *.
    set (Rr := IZR radius) in *. clearbody D S' Rr. clear - H1 Hc Hlt Hr0 Hr2 Hev.
    assert (Hsq : ((Rr * (1 - eps)) ^ 2 <= (D * (1 - eps)) ^ 2)%R).
    { apply pow_incr. rewrite Hev. split; [apply Rmult_le_pos; lra|].
      apply Rmult_le_compat_r; lra. }
    replace ((Rr * (1 - eps)) ^ 2)%R with (Rr * Rr * ((1 - eps) * (1 - eps)))%R in Hsq by ring.
    assert (Hsq2 : (Rr * Rr * ((1 - eps) * (1 - eps)) * (1 - eps)
                    <= (D * (1 - eps)) ^ 2 * (1 - eps))%R).
    { apply Rmult_le_compat_r; [rewrite Hev; lra|easy]. }
    set (R2 := (Rr * Rr)%R) in *. set (X := ((D * (1 - eps)) ^ 2 * (1 - eps))%R) in *.
    rewrite Hev in *. clearbody R2 X. lra.
  - assert (Hlt : radius * radius + 1 <= s) by lia.
    apply IZR_le in Hlt. rewrite plus_IZR, mult_IZR in Hlt.
    destruct (le_int (S754_finite false m e) radius) eqn:Hc; [exfalso|reflexivity].
    apply le_int_spec in Hc.
    set (D := (IZR (Zpos m) * bpow e)%R) in *. set (S' := IZR s) in *.
    set (Rr := IZR radius) in *. clearbody D S' Rr. clear - H2 Hc Hlt Hr0 Hr2 HD Hev.
    assert (Hsq : ((D * (1 + eps)) ^ 2 <= (Rr * (1 + eps)) ^ 2)%R).
    { apply pow_incr. rewrite Hev. split; [apply Rmult_le_pos; lra|].
      apply Rmult_le_compat_r; lra. }
    replace ((Rr * (1 + eps)) ^ 2)%R with (Rr * Rr * ((1 + eps) * (1 + eps)))%R in Hsq by ring.
    assert (Hsq2 : ((D * (1 + eps)) ^ 2 * (1 + eps)
                    <= Rr * Rr * ((1 + eps) * (1 + eps)) * (1 + eps))%R).
    { apply Rmult_le_compat_r; [rewrite Hev; lra|easy]. }
    assert (Hrr0 : (0 <= Rr * Rr)%R) by (apply Rmult_le_pos; lra).
    set (R2 := (Rr * Rr)%R) in *. set (X := ((D * (1 + eps)) ^ 2 * (1 + eps))%R) in *.
    rewrite Hev in *. clearbody R2 X. lra.
Qed.

(** The arithmetic behind [int(size * c)] for the three constants: the
    two roundings cannot move the product across an integer. *)
Lemma scaled_0_02 (z n : R) :
  (z * (1 - / 4503599627370496) * (1 - / 4503599627370496)
   <= n * (5764607523034235 / 288230376151711744))%R ->
  (n * (5764607523034235 / 288230376151711744)
   < (z + 1) * (1 + / 4503599627370496) * (1 + / 4503599627370496))%R ->
  (1 <= n <= 2147483647)%R ->
  (n - 50 < 50 * z + 1 /\ 50 * z < n + 1)%R.
Proof. intros H1 H2 Hn. split; lra. Qed.

Lemma scaled_0_18 (z n : R) :
  (z * (1 - / 4503599627370496) * (1 - / 4503599627370496)
   <= n * (6485183463413514 / 36028797018963968))%R ->
  (n * (6485183463413514 / 36028797018963968)
   < (z + 1) * (1 + / 4503599627370496) * (1 + / 4503599627370496))%R ->
  (1 <= n <= 2147483647)%R ->
  (9 * n - 50 < 50 * z + 1 /\ 50 * z < 9 * n + 1)%R.
Proof. intros H1 H2 Hn. split; lra. Qed.

Lemma scaled_0_7 (z n : R) :
  (z * (1 - / 4503599627370496) * (1 - / 4503599627370496)
   <= n * (6305039478318694 / 9007199254740992))%R ->
  (n * (6305039478318694 / 9007199254740992)
   < (z + 1) * (1 + / 4503599627370496) * (1 + / 4503599627370496))%R ->
  (1 <= n <= 2147483647)%R ->
  (7 * n - 10 < 10 * z + 1 /\ 10 * z < 7 * n + 1)%R.
Proof. intros H1 H2 Hn. split; lra. Qed.

(** [int(size * c)] against the exact product, for the three constants
    of the script: never above it, and less than one below. *)
Lemma scaled_bounds size :
  0 <= size <= INT_MAX ->
  exists margin radius pawn_size,
    (int_mul size lit_0_02 ≫= to_int) = Ok margin
    /\ (int_mul size lit_0_18 ≫= to_int) = Ok radius
    /\ (int_mul size lit_0_7 ≫= to_int) = Ok pawn_size
    /\ size - 50 <= 50 * margin <= size
    /\ 9 * size - 50 <= 50 * radius <= 9 * size
    /\ 7 * size - 10 <= 10 * pawn_size <= 7 * size.
Proof.
  intros [H0 Hmax]. destruct (Z.eq_dec size 0) as [->|Hne].
  { exists 0, 0, 0. repeat split; try reflexivity; lia. }
  destruct (int_mul_floor size _ _ _ pnormal_lit_0_02) as (m & Em & Hm1 & Hm2); try lia.
  destruct (int_mul_floor size _ _ _ pnormal_lit_0_18) as (r & Er & Hr1 & Hr2); try lia.
  destruct (int_mul_floor size _ _ _ pnormal_lit_0_7) as (p & Ep & Hp1 & Hp2); try lia.
  exists m, r, p. split; [exact Em|]. split; [exact Er|]. split; [exact Ep|].
  rewrite B2R_lit_0_02 in *. rewrite B2R_lit_0_18 in *. rewrite B2R_lit_0_7 in *.
  rewrite eps_val in *.
  assert (Hs : (1 <= IZR size <= 2147483647)%R).
  { split; apply IZR_le; unfold INT_MAX in Hmax; lia. }
  destruct (scaled_0_02 _ _ Hm1 Hm2 Hs) as [Hm3 Hm4].
  destruct (scaled_0_18 _ _ Hr1 Hr2 Hs) as [Hr3 Hr4].
  destruct (scaled_0_7 _ _ Hp1 Hp2 Hs) as [Hp3 Hp4].
  repeat split; apply Z.lt_succ_r, lt_IZR; unfold Z.succ;
    rewrite ?plus_IZR, ?minus_IZR, ?mult_IZR; assumption.
Qed.

End Distance.

(** ** The shape of the background *)

Section Shape.

Ltac split_tests :=
  repeat match goal with
  | |- context [?a <? ?b] => destruct (Z.ltb_spec a b); try lia
  | |- context [?a <=? ?b] => destruct (Z.leb_spec a b); try lia
  end.

(** What a returned bitmap is, with the margin and radius as the script
    computes them and their distance from 2% and 18% of the size. *)
Lemma gradient_geometry size img :
  create_rounded_gradient size = Ok img ->
  exists margin radius,
    (Float.int_mul size Float.lit_0_02 ≫= Float.to_int) = Ok margin
    /\ (Float.int_mul size Float.lit_0_18 ≫= Float.to_int) = Ok radius
    /\ 0 <= size <= INT_MAX
    /\ 0 <= margin /\ 0 <= radius
    /\ size - 50 <= 50 * margin <= size
    /\ 9 * size - 50 <= 50 * radius <= 9 * size
    /\ forall x y, 0 <= x < size -> 0 <= y < size ->
         getpixel img x y = Some (gradient_pixel size margin radius x y).
Proof.
  intros E. pose proof (gradient_inv _ _ E) as Hs.
  destruct (gradient_ok size Hs)
    as (img' & margin & radius & E' & Em & Er & Hm & Hr & _ & _ & _ & _ & _ & Hpix).
  rewrite E in E'. injection E' as <-.
  destruct (scaled_bounds size Hs) as (m' & r' & _ & Em' & Er' & _ & Bm & Br & _).
  rewrite Em in Em'. injection Em' as <-. rewrite Er in Er'. injection Er' as <-.
  exists margin, radius. repeat split; try assumption; lia.
Qed.

(** The alpha of a pixel of the bitmap is decided by the corner test
    alone. *)
Lemma gradient_pixel_alpha size margin radius x y :
  0 <= y < size -> size <= INT_MAX ->
  alpha (gradient_pixel size margin radius x y)
  = mask_alpha (is_inside size margin radius x y).
Proof.
  intros Hy Hs. unfold gradient_pixel.
  destruct (row_color_range size y Hy Hs) as (r & g & b & -> & _).
  now destruct (is_inside size margin radius x y).
Qed.

(** The corner test does not tell top from bottom. *)
Lemma in_rect_flip size margin radius x y :
  0 <= margin -> 0 <= radius -> 2 * (margin + radius) <= size ->
  in_rect size margin radius x (size - 1 - y) = in_rect size margin radius x y.
Proof.
  intros Hm Hr Hmr. unfold in_rect.
  replace ((size - 1 - y - margin - radius) ^ 2)
    with ((y - (size - margin - radius - 1)) ^ 2) by ring.
  replace ((size - 1 - y - (size - margin - radius - 1)) ^ 2)
    with ((y - margin - radius) ^ 2) by ring.
  split_tests; reflexivity.
Qed.

(** Nor a column from a row. *)
Lemma in_rect_transpose size margin radius x y :
  0 <= margin -> 0 <= radius -> 2 * (margin + radius) <= size ->
  in_rect size margin radius y x = in_rect size margin radius x y.
Proof.
  intros Hm Hr Hmr. unfold in_rect.
  rewrite (Z.add_comm ((y - margin - radius) ^ 2)).
  rewrite (Z.add_comm ((y - (size - margin - radius - 1)) ^ 2) ((x - margin - radius) ^ 2)).
  rewrite (Z.add_comm ((y - margin - radius) ^ 2) ((x - (size - margin - radius - 1)) ^ 2)).
  rewrite (Z.add_comm ((y - (size - margin - radius - 1)) ^ 2)
                      ((x - (size - margin - radius - 1)) ^ 2)).
  split_tests; reflexivity.
Qed.


(** Up to 2^26 pixels a side, the corner test is the integer one. *)
Lemma is_inside_exact size margin radius x y :
  0 <= size <= 2 ^ 26 -> 0 <= margin -> 0 <= radius ->
  50 * margin <= size -> 50 * radius <= 9 * size ->
  0 <= x < size -> 0 <= y < size ->
  is_inside size margin radius x y = in_rounded_rect size margin radius x y.
Proof.
  intros Hs Hm Hr Bm Br Hx Hy.
  change (2 ^ 26) with 67108864 in Hs.
  assert (Hd : forall a b, - size <= a <= size -> - size <= b <= size ->
            exists dist, Float.sqrt_int (a ^ 2 + b ^ 2) = Ok dist
              /\ Float.le_int dist radius = (a ^ 2 + b ^ 2 <=? radius ^ 2)).
  { intros a b Ha Hb. rewrite !Z.pow_2_r. apply dist_test_exact.
    - change (2 ^ 62) with 4611686018427387904. nia.
    - change (2 ^ 25) with 33554432. lia. }
  unfold is_inside, in_rect, in_rounded_rect.
  destruct (Hd (x - margin - radius) (y - margin - radius)) as (d1 & -> & L1); [lia|lia|].
  destruct (Hd (x - (size - margin - radius - 1)) (y - margin - radius))
    as (d2 & -> & L2); [lia|lia|].
  destruct (Hd (x - margin - radius) (y - (size - margin - radius - 1)))
    as (d3 & -> & L3); [lia|lia|].
  destruct (Hd (x - (size - margin - radius - 1)) (y - (size - margin - radius - 1)))
    as (d4 & -> & L4); [lia|lia|].
  rewrite !bind_Ok. cbv beta. rewrite L1, L2, L3, L4. clear.
  destruct ((x <? margin + radius) && (y <? margin + radius)); [reflexivity|].
  destruct ((size - margin - radius - 1 <? x) && (y <? margin + radius)); [reflexivity|].
  destruct ((x <? margin + radius) && (size - margin - radius - 1 <? y)); [reflexivity|].
  destruct ((size - margin - radius - 1 <? x) && (size - margin - radius - 1 <? y));
    [reflexivity|].
  split_tests; reflexivity.
Qed.

(** X1. For a size of at most 2^26, the alpha channel of the bitmap
    returned by [create_rounded_gradient] is the rounded rectangle of
    integer geometry: 255 where [in_rounded_rect] holds for the margin
    int(size * 0.02) and the radius int(size * 0.18), 0 elsewhere. The
    float square root and comparison of the corner test decide exactly
    as the comparison of the squared distance with the squared radius. *)
Theorem gradient_mask_exact size img :
  create_rounded_gradient size = Ok img -> size <= 2 ^ 26 ->
  exists margin radius,
    (Float.int_mul size Float.lit_0_02 ≫= Float.to_int) = Ok margin
    /\ (Float.int_mul size Float.lit_0_18 ≫= Float.to_int) = Ok radius
    /\ forall x y, 0 <= x < size -> 0 <= y < size ->
         alpha <$> getpixel img x y
         = Some (mask_alpha (in_rounded_rect size margin radius x y)).
Proof.
  intros E H26.
  destruct (gradient_geometry size img E)
    as (margin & radius & Em & Er & Hs & Hm & Hr & Bm & Br & Hpix).
  exists margin, radius. split; [exact Em|]. split; [exact Er|].
  intros x y Hx Hy. rewrite Hpix by lia. simpl. f_equal.
  rewrite gradient_pixel_alpha by lia. f_equal.
  apply is_inside_exact; lia.
Qed.

(** X2. The alpha channel of the bitmap returned by
    [create_rounded_gradient] is top-bottom symmetric: the pixels at
    (x, y) and (x, size - 1 - y) have the same alpha, although their
    colours differ with the row. *)
Theorem gradient_mask_flip size img x y :
  create_rounded_gradient size = Ok img ->
  0 <= x < size -> 0 <= y < size ->
  alpha <$> getpixel img x y = alpha <$> getpixel img x (size - 1 - y).
Proof.
  intros E Hx Hy.
  destruct (gradient_geometry size img E)
    as (margin & radius & _ & _ & Hs & Hm & Hr & Bm & Br & Hpix).
  rewrite !Hpix by lia. simpl. f_equal.
  rewrite !gradient_pixel_alpha by lia. f_equal.
  unfold is_inside. rewrite in_rect_flip by lia. reflexivity.
Qed.

(** X3. The alpha channel of the bitmap returned by
    [create_rounded_gradient] is symmetric about the main diagonal: the
    pixels at (x, y) and (y, x) have the same alpha. *)
Theorem gradient_mask_transpose size img x y :
  create_rounded_gradient size = Ok img ->
  0 <= x < size -> 0 <= y < size ->
  alpha <$> getpixel img x y = alpha <$> getpixel img y x.
Proof.
  intros E Hx Hy.
  destruct (gradient_geometry size img E)
    as (margin & radius & _ & _ & Hs & Hm & Hr & Bm & Br & Hpix).
  rewrite !Hpix by lia. simpl. f_equal.
  rewrite !gradient_pixel_alpha by lia. f_equal.
  unfold is_inside. rewrite (in_rect_transpose size margin radius x y) by lia. reflexivity.
Qed.

(** Inside the central cross no corner branch applies and the margin
    test passes. *)
Lemma cross_inside size margin radius x y :
  0 <= margin -> 0 <= radius -> 50 * margin <= size -> 50 * radius <= 9 * size ->
  (size <= 5 * x /\ 5 * x + 5 <= 4 * size /\ size <= 50 * y /\ 50 * y + 50 <= 49 * size)
  \/ (size <= 5 * y /\ 5 * y + 5 <= 4 * size /\ size <= 50 * x /\ 50 * x + 50 <= 49 * size) ->
  in_rect size margin radius x y = Ok true.
Proof.
  intros Hm Hr Bm Br H. unfold in_rect.
  destruct H as [H|H]; split_tests; reflexivity.
Qed.

(** X4. The central cross of the bitmap returned by
    [create_rounded_gradient] is opaque: a pixel whose column lies in the
    middle three fifths of the width and whose row lies between the 2%
    margins, or the same with column and row exchanged, has alpha 255 and
    the colour of its row. *)
Theorem gradient_cross_opaque size img x y :
  create_rounded_gradient size = Ok img ->
  (size <= 5 * x /\ 5 * x + 5 <= 4 * size /\ size <= 50 * y /\ 50 * y + 50 <= 49 * size)
  \/ (size <= 5 * y /\ 5 * y + 5 <= 4 * size /\ size <= 50 * x /\ 50 * x + 50 <= 49 * size) ->
  exists p, getpixel img x y = Some p /\ alpha p = 255 /\ row_color size y = Ok p.
Proof.
  intros E H.
  destruct (gradient_geometry size img E)
    as (margin & radius & _ & _ & Hs & Hm & Hr & Bm & Br & Hpix).
  assert (Hx : 0 <= x < size) by lia. assert (Hy : 0 <= y < size) by lia.
  rewrite Hpix by lia. eexists. split; [reflexivity|].
  unfold gradient_pixel, is_inside. rewrite cross_inside by (auto; lia).
  destruct (row_color_range size y) as (r & g & b & -> & _); try lia.
  split; reflexivity.
Qed.

(** A column left of the margin is outside, whatever the row. *)
Lemma left_band_outside size margin radius x y :
  0 <= size <= INT_MAX -> 0 <= margin -> 0 <= radius ->
  2 * (margin + radius) <= size ->
  0 <= x < margin -> 0 <= y < size ->
  is_inside size margin radius x y = false.
Proof.
  intros Hs Hm Hr Hmr Hx Hy. unfold INT_MAX in Hs.
  assert (Hfar : forall b, - (margin + radius) <= b <= margin + radius ->
            exists dist, Float.sqrt_int ((x - margin - radius) ^ 2 + b ^ 2) = Ok dist
                         /\ Float.le_int dist radius = false).
  { intros b Hb. set (a := x - margin - radius).
    assert (Ha : - (margin + radius) <= a <= - (radius + 1)) by (unfold a; lia). clearbody a.
    assert (Hk : margin + radius <= 1073741823) by lia.
    set (k := margin + radius) in *. clearbody k.
    assert (Ha1 : (radius + 1) * (radius + 1) <= a * a) by nia.
    assert (Ha2 : a * a <= k * k) by nia.
    assert (Hb1 : 0 <= b * b) by nia.
    assert (Hb2 : b * b <= k * k) by nia.
    assert (Hk2 : k * k <= 1073741823 * 1073741823) by nia.
    apply beyond_radius.
    - unfold INT_MAX. lia.
    - rewrite !Z.pow_2_r. lia.
    - rewrite !Z.pow_2_r. change (2 ^ 62) with 4611686018427387904. lia. }
  unfold is_inside, in_rect.
  destruct (Z.ltb_spec x (margin + radius)); [|lia].
  destruct (Z.ltb_spec (size - margin - radius - 1) x); [lia|].
  destruct (Z.ltb_spec x margin); [|lia]. simpl.
  destruct (Z.ltb_spec y (margin + radius)).
  { destruct (Hfar (y - margin - radius)) as (dist & -> & Hd); [lia|].
    rewrite bind_Ok. exact Hd. }
  destruct (Z.ltb_spec (size - margin - radius - 1) y); [|reflexivity].
  destruct (Hfar (y - (size - margin - radius - 1))) as (dist & -> & Hd); [lia|].
  rewrite bind_Ok. exact Hd.
Qed.

(** X5. The outer band of the bitmap returned by
    [create_rounded_gradient] is transparent: a pixel closer to an edge
    than size/50 - 1 pixels has alpha 0. *)
Theorem gradient_band_transparent size img x y :
  create_rounded_gradient size = Ok img ->
  0 <= x < size -> 0 <= y < size ->
  50 * (edge_distance size x y + 2) <= size ->
  alpha <$> getpixel img x y = Some 0.
Proof.
  intros E Hx Hy Hd.
  destruct (gradient_geometry size img E)
    as (margin & radius & _ & _ & Hs & Hm & Hr & Bm & Br & Hpix).
  rewrite Hpix by lia. simpl. f_equal.
  rewrite gradient_pixel_alpha by lia.
  assert (Hmr : 2 * (margin + radius) <= size) by lia.
  assert (Hin : is_inside size margin radius x y = false); [|now rewrite Hin].
  pose proof (left_band_outside size margin radius) as L.
  unfold edge_distance in Hd.
  destruct (Z.min_spec x (size - 1 - x)) as [[_ Ex]|[_ Ex]],
           (Z.min_spec y (size - 1 - y)) as [[_ Ey]|[_ Ey]];
    rewrite Ex, Ey in Hd;
    match type of Hd with
    | context [Z.min ?a ?b] => destruct (Z.min_spec a b) as [[_ Em]|[_ Em]]; rewrite Em in Hd
    end.
  all: unfold is_inside in *.
  - apply L; lia.
  - rewrite <- in_rect_transpose by lia. apply L; lia.
  - apply L; lia.
  - rewrite <- in_rect_flip, <- in_rect_transpose by lia. apply L; lia.
  - rewrite <- in_rect_mirror by lia. apply L; lia.
  - rewrite <- in_rect_transpose by lia. apply L; lia.
  - rewrite <- in_rect_mirror by lia. apply L; lia.
  - rewrite <- in_rect_flip, <- in_rect_transpose by lia. apply L; lia.
Qed.

End Shape.

(** ** The pawn on the background *)

Section Composition.

Context `{Runtime}.

(** Up to 24 pixels a side, by evaluation. *)
Lemma box_inside_small size : 0 <= size < 25 -> box_inside size = true.
Proof.
  intros Hs.
  assert (Hall : forallb box_inside (seqZ 0 25) = true) by (vm_compute; reflexivity).
  rewrite forallb_forall in Hall. apply Hall.
  apply list_elem_of_In, elem_of_seqZ. lia.
Qed.

(** A pixel of the pawn's box passes the corner test of the
    background. *)
Lemma box_is_inside size margin radius pawn_size x y :
  0 <= size <= INT_MAX ->
  (Float.int_mul size Float.lit_0_02 ≫= Float.to_int) = Ok margin ->
  (Float.int_mul size Float.lit_0_18 ≫= Float.to_int) = Ok radius ->
  (Float.int_mul size Float.lit_0_7 ≫= Float.to_int) = Ok pawn_size ->
  0 <= x < size -> 0 <= y < size ->
  in_box ((size - pawn_size) `div` 2) pawn_size x y = true ->
  is_inside size margin radius x y = true.
Proof.
  intros Hs Em Er Ep Hx Hy Hbox.
  destruct (Z.lt_ge_cases size 25) as [Hsmall|Hbig].
  { pose proof (box_inside_small size ltac:(lia)) as Hb.
    unfold box_inside in Hb. rewrite Em, Er, Ep in Hb.
    rewrite forallb_forall in Hb.
    assert (Hiy : In y (range size)) by (apply list_elem_of_In, elem_of_seqZ; lia).
    specialize (Hb y Hiy). rewrite forallb_forall in Hb.
    assert (Hix : In x (range size)) by (apply list_elem_of_In, elem_of_seqZ; lia).
    specialize (Hb x Hix). rewrite Hbox in Hb. exact Hb. }
  destruct (scaled_bounds size Hs) as (m' & r' & p' & Em' & Er' & Ep' & Bm & Br & Bp).
  rewrite Em in Em'. injection Em' as <-. rewrite Er in Er'. injection Er' as <-.
  rewrite Ep in Ep'. injection Ep' as <-.
  set (off := (size - pawn_size) `div` 2) in *.
  pose proof (Z.mul_div_le (size - pawn_size) 2) as H1.
  pose proof (Z.mul_succ_div_gt (size - pawn_size) 2) as H2. fold off in H1, H2.
  unfold in_box in Hbox. apply andb_prop in Hbox. destruct Hbox as [Hbox Hy2].
  apply andb_prop in Hbox. destruct Hbox as [Hbox Hy1].
  apply andb_prop in Hbox. destruct Hbox as [Hx1 Hx2].
  apply Z.leb_le in Hx1, Hy1. apply Z.ltb_lt in Hx2, Hy2.
  assert (Hnear : forall a b,
            - (margin + radius - off) <= a <= margin + radius - off ->
            - (margin + radius - off) <= b <= margin + radius - off ->
            exists dist, Float.sqrt_int (a ^ 2 + b ^ 2) = Ok dist
                         /\ Float.le_int dist radius = true).
  { intros a b Ha Hb. rewrite !Z.pow_2_r.
    set (k := margin + radius - off) in *.
    assert (Hk : 0 <= 2 * k <= radius) by (unfold k; lia). clearbody k.
    assert (Ha2 : 0 <= a * a <= k * k) by nia.
    assert (Hb2 : 0 <= b * b <= k * k) by nia.
    assert (Hk2 : 4 * (k * k) <= radius * radius) by nia.
    apply near_centre; lia. }
  unfold is_inside, in_rect.
  destruct (Z.ltb_spec x margin); [lia|].
  destruct (Z.leb_spec (size - margin) x); [lia|].
  destruct (Z.ltb_spec y margin); [lia|].
  destruct (Z.leb_spec (size - margin) y); [lia|].
  destruct (Z.ltb_spec x (margin + radius)), (Z.ltb_spec y (margin + radius)),
    (Z.ltb_spec (size - margin - radius - 1) x),
    (Z.ltb_spec (size - margin - radius - 1) y); try lia; simpl;
    try reflexivity;
    match goal with
    | |- context [Float.sqrt_int (?a ^ 2 + ?b ^ 2)] =>
        destruct (Hnear a b) as (dist & -> & Hd); [lia|lia|]
    end; rewrite bind_Ok; exact Hd.
Qed.


(** X7. The pawn takes 70% of the icon and leaves 15% on each side, to
    within a pixel: its side int(size * 0.7) is at most 7 * size / 10 and
    more than one below it never, and the offset of its box is within
    half a pixel of 3 * size / 20. *)
Theorem pawn_box_bounds size pawn_img icon :
  create_icon size pawn_img = Ok icon ->
  exists pawn_size,
    (Float.int_mul size Float.lit_0_7 ≫= Float.to_int) = Ok pawn_size
    /\ 7 * size - 10 <= 10 * pawn_size <= 7 * size
    /\ 3 * size - 10 <= 20 * ((size - pawn_size) `div` 2) <= 3 * size + 10.
Proof.
  intros E.
  assert (Hs : 0 <= size <= INT_MAX).
  { unfold create_icon in E.
    destruct (create_rounded_gradient size) as [bg|e] eqn:Eb; [|discriminate].
    now apply gradient_inv in Eb. }
  destruct (scaled_bounds size Hs) as (_ & _ & ps & _ & _ & Ep & _ & _ & Bp).
  exists ps. split; [exact Ep|]. split; [exact Bp|].
  pose proof (Z.mul_div_le (size - ps) 2) as H1.
  pose proof (Z.mul_succ_div_gt (size - ps) 2) as H2. lia.
Qed.

(** X8. Pasting the pawn keeps the rounded shape: a pixel that is
    transparent in the background gradient is the same transparent pixel
    in the icon, whatever the pawn image, because the pawn's box lies
    entirely on opaque pixels of the background. *)
Theorem icon_keeps_transparent_pixels size pawn_img icon bg x y p :
  create_icon size pawn_img = Ok icon ->
  create_rounded_gradient size = Ok bg ->
  getpixel bg x y = Some p -> alpha p = 0 ->
  getpixel icon x y = Some p.
Proof.
  intros Ei Eb Hp Ha.
  destruct (gradient_geometry size bg Eb)
    as (margin & radius & Em & Er & Hs & Hm & Hr & Bm & Br & Hpix).
  destruct (gradient_spec size bg Eb) as (_ & _ & _ & _ & _ & _ & _ & Hwf & Hw & Hh & _).
  destruct (getpixel_range bg x y p Hwf Hp) as [Hx Hy]. rewrite Hw in Hx. rewrite Hh in Hy.
  destruct (create_icon_ok size pawn_img Hs)
    as (bg' & ps & icon' & Eb' & Ep & Hps & Ei' & _ & _ & _ & _ & Hicon).
  rewrite Eb in Eb'. injection Eb' as <-. rewrite Ei in Ei'. injection Ei' as <-.
  rewrite Hicon, Hp by lia. simpl. f_equal.
  destruct (in_box ((size - ps) `div` 2) ps x y) eqn:Hbox; [exfalso|reflexivity].
  pose proof (box_is_inside size margin radius ps x y Hs Em Er Ep Hx Hy Hbox) as Hin.
  rewrite Hpix in Hp by lia. injection Hp as <-.
  rewrite gradient_pixel_alpha, Hin in Ha by lia. discriminate.
Qed.

End Composition.

(** ** What a run may touch, and what a failed run leaves *)

Section Frame.

Context `{Runtime}.

Lemma confined_refl paths ds w : confined paths ds w w.
Proof.
  repeat split; auto. exists []. now rewrite app_nil_r.
Qed.

Lemma confined_trans paths ds w1 w2 w3 :
  confined paths ds w1 w2 -> confined paths ds w2 w3 -> confined paths ds w1 w3.
Proof.
  intros (F1 & S1 & D1 & E1 & l1 & L1) (F2 & S2 & D2 & E2 & l2 & L2).
  split; [intros p Hp; rewrite F2, F1 by exact Hp; reflexivity|].
  split; [auto|]. split; [auto|].
  split. { intros d Hd. destruct (E2 d Hd) as [Hd'|]; auto. }
  exists (l1 ++ l2). now rewrite L2, L1, app_assoc.
Qed.

Lemma keeps_bind {A B : Type} paths ds (m : io A) (f : A -> io B) :
  keeps paths ds m -> (forall a, keeps paths ds (f a)) -> keeps paths ds (m ≫= f).
Proof.
  intros Hm Hf w. specialize (Hm w). unfold mbind, io_bind.
  destruct (m w) as [[a|e] w1]; simpl in *; [|exact Hm].
  eapply confined_trans; [exact Hm|apply Hf].
Qed.

Lemma keeps_io_for {A : Type} paths ds (xs : list A) (body : A -> io unit) :
  (forall x, x ∈ xs -> keeps paths ds (body x)) -> keeps paths ds (io_for xs body).
Proof.
  induction xs as [|x xs IH]; intros Hb; simpl.
  - intros w. apply confined_refl.
  - apply keeps_bind; [apply Hb; now left|].
    intros _. apply IH. intros y Hy. apply Hb. now right.
Qed.

Lemma keeps_read_file paths ds path : keeps paths ds (read_file path).
Proof.
  intros w. unfold read_file. destruct (files w !! path); apply confined_refl.
Qed.

Lemma keeps_lift {A : Type} paths ds (r : result A) : keeps paths ds (lift r).
Proof. intros w. apply confined_refl. Qed.

Lemma keeps_print paths ds line : keeps paths ds (print line).
Proof.
  intros w. unfold print, confined. simpl. repeat split; auto. now exists [EvPrint line].
Qed.

Lemma keeps_write_file paths ds path data :
  path ∈ paths -> keeps paths ds (write_file path data).
Proof.
  intros Hin w. unfold write_file.
  repeat case_match; try apply confined_refl. unfold confined. simpl.
  split. { intros p Hp. apply lookup_insert_ne. intros ->. now apply Hp. }
  split. { intros p Hp. destruct (decide (path = p)) as [->|Hne].
           - rewrite lookup_insert_eq. eauto.
           - now rewrite lookup_insert_ne. }
  repeat split; auto. now exists [EvSave path].
Qed.

Lemma keeps_mkdir paths ds path :
  path ∈ ds -> keeps paths ds (mkdir_exist_ok path).
Proof.
  intros Hin w. unfold mkdir_exist_ok.
  repeat case_match; try apply confined_refl. unfold confined. simpl.
  split; [auto|]. split; [auto|].
  split; [set_solver|]. split; [|now exists [EvMkdir path]].
  intros d Hd. apply elem_of_union in Hd. destruct Hd as [Hd|Hd]; [|now left].
  apply elem_of_singleton in Hd. subst d. now right.
Qed.

Lemma keeps_main :
  keeps output_paths (ancestors (String.length icon_dir) icon_dir) main.
Proof.
  unfold main. apply keeps_bind.
  { unfold Image_open. apply keeps_bind; [apply keeps_read_file|].
    intros data. apply keeps_lift. }
  intros pawn. apply keeps_bind.
  { unfold makedirs. apply keeps_io_for. intros d Hd. now apply keeps_mkdir. }
  intros _. apply keeps_bind.
  { apply keeps_io_for. intros size Hs. unfold make_icon.
    apply keeps_bind; [apply keeps_lift|]. intros icon.
    apply keeps_bind; [|intros _; apply keeps_print].
    unfold save. apply keeps_write_file. unfold output_paths.
    apply elem_of_app. left. apply list_elem_of_fmap. now exists size. }
  intros _. apply keeps_bind; [|intros _; apply keeps_print].
  apply keeps_write_file. unfold output_paths. apply elem_of_app. right. now left.
Qed.

(** X9. Whatever its outcome, a run of [main] touches nothing but its
    outputs: every file outside the seven icon paths and the manifest
    path is unchanged, no file is deleted, no directory is removed, the
    only directories created are the output directory and the two above
    it, and the log only grows. *)
Theorem run_is_confined w r w' :
  main w = (r, w') ->
  confined output_paths (ancestors (String.length icon_dir) icon_dir) w w'.
Proof.
  intros Hrun. pose proof (keeps_main w) as Hk. now rewrite Hrun in Hk.
Qed.

(** A turn of the loop that raises has changed nothing. *)
Lemma make_icon_raise pawn size w e w' :
  make_icon pawn size w = (Raise e, w') -> w' = w.
Proof.
  unfold make_icon, mbind, io_bind, lift, save, write_file, print.
  destruct (create_icon size pawn); [|now intros [= _ <-]].
  repeat case_match; intros [=]; congruence.
Qed.

(** The size loop, whatever its outcome: it has written the icons of an
    initial segment of the list, all of it when it returns. *)
Lemma icon_loop_any pawn xs :
  NoDup (map icon_path xs) ->
  forall w r w', io_for xs (make_icon pawn) w = (r, w') ->
    exists done,
      done `prefix_of` xs /\ (r = Ok tt -> done = xs)
      /\ dirs w' = dirs w
      /\ log w' = log w ++ flat_map icon_events done
      /\ (forall p, p ∉ map icon_path done -> files w' !! p = files w !! p)
      /\ Forall (fun size => exists icon, create_icon size pawn = Ok icon
                   /\ files w' !! icon_path size = Some (png_encode icon)) done.
Proof.
  induction xs as [|x xs IH]; intros Hnd w r w' Hrun; simpl in *.
  - injection Hrun as <- <-. exists []. rewrite app_nil_r. repeat split; auto.
  - apply NoDup_cons in Hnd. destruct Hnd as [Hx Hnd].
    unfold mbind, io_bind in Hrun.
    destruct (make_icon pawn x w) as [[[]|e] w1] eqn:E1.
    + apply make_icon_inv in E1. destruct E1 as (icon & Ei & ->).
      destruct (IH Hnd _ _ _ Hrun) as (done & Hpre & Hall & Hd & Hl & Hf & Hicons).
      simpl in *. exists (x :: done).
      split; [now apply prefix_cons|].
      split; [intros Hr; now rewrite Hall|].
      split; [exact Hd|].
      split; [rewrite Hl, <- !app_assoc; reflexivity|].
      assert (Hxd : icon_path x ∉ map icon_path done).
      { intros Hin. apply Hx. destruct Hpre as [rest ->].
        rewrite map_app. apply elem_of_app. now left. }
      split.
      * intros p Hp. apply not_elem_of_cons in Hp. destruct Hp as [Hne Hp].
        rewrite Hf by exact Hp. now rewrite lookup_insert_ne.
      * constructor; [|exact Hicons].
        exists icon. split; [exact Ei|]. rewrite Hf by exact Hxd. apply lookup_insert_eq.
    + apply make_icon_raise in E1. subst w1. injection Hrun as <- <-.
      exists []. rewrite app_nil_r.
      split; [apply prefix_nil|]. split; [discriminate|]. repeat split; auto.
Qed.

(** Creating the directories, whatever the outcome: no file changes, and
    the log gains directory events only. *)
Lemma mkdirs_any paths :
  forall w r w', io_for paths mkdir_exist_ok w = (r, w') ->
    files w' = files w /\ exists mk, log w' = log w ++ mk /\ Forall is_mkdir mk.
Proof.
  induction paths as [|p ps IH]; intros w r w' Hrun; simpl in *.
  - injection Hrun as <- <-. split; [reflexivity|]. exists []. now rewrite app_nil_r.
  - unfold mbind, io_bind in Hrun.
    destruct (mkdir_exist_ok p w) as [[[]|e] w1] eqn:E1.
    + apply mkdir_exist_ok_inv in E1. destruct E1 as (Hf1 & _ & _ & mk1 & Hl1 & Hm1).
      destruct (IH _ _ _ Hrun) as (Hf & mk & Hl & Hm).
      split; [congruence|]. exists (mk1 ++ mk).
      split; [rewrite Hl, Hl1; now rewrite app_assoc|now apply Forall_app].
    + injection Hrun as <- <-. unfold mkdir_exist_ok in E1.
      repeat case_match; simplify_eq;
        (split; [reflexivity|]; exists []; now rewrite app_nil_r).
Qed.

(** X10. A run of [main] that raises has written the icons of an
    initial segment of the size list, in order, and nothing else: every
    other file, the manifest among them, is as it was. A failure never
    leaves a manifest without its icons, nor a later icon without the
    earlier ones. *)
Theorem failed_run_is_partial w e w' :
  main w = (Raise e, w') ->
  exists new done,
    log w' = log w ++ new
    /\ done `prefix_of` sizes
    /\ saved_paths new = map icon_path done
    /\ Forall (fun size => is_Some (files w' !! icon_path size)) done
    /\ (forall p, p ∉ map icon_path done -> files w' !! p = files w !! p)
    /\ files w' !! manifest_path = files w !! manifest_path.
Proof.
  intros Hrun.
  assert (Hgoal : exists new done,
    log w' = log w ++ new
    /\ done `prefix_of` sizes
    /\ saved_paths new = map icon_path done
    /\ Forall (fun size => is_Some (files w' !! icon_path size)) done
    /\ (forall p, p ∉ map icon_path done -> files w' !! p = files w !! p)).
  2:{ destruct Hgoal as (new & done & Hl & Hp & Hs & Hi & Hf).
      exists new, done. repeat split; try assumption.
      apply Hf. intros Hin. apply manifest_not_icon.
      destruct Hp as [rest ->]. rewrite map_app. apply elem_of_app. now left. }
  unfold main, mbind, io_bind in Hrun.
  destruct (Image_open pawn_path w) as [[pawn|e0] w0] eqn:E0.
  2:{ injection Hrun as <- <-.
      assert (w0 = w) as ->.
      { unfold Image_open, mbind, io_bind, read_file, lift in E0.
        destruct (files w !! pawn_path); now injection E0. }
      exists [], []. rewrite app_nil_r. repeat split; auto. apply prefix_nil. }
  assert (w0 = w) as ->.
  { unfold Image_open, mbind, io_bind, read_file, lift in E0.
    destruct (files w !! pawn_path); now injection E0. }
  destruct (makedirs icon_dir w) as [[[]|e1] w1] eqn:E1; unfold makedirs in E1;
    apply mkdirs_any in E1; destruct E1 as (Hf1 & mk & Hl1 & Hmk).
  2:{ injection Hrun as <- <-. exists mk, [].
      split; [exact Hl1|]. split; [apply prefix_nil|].
      split; [now apply saved_paths_mkdirs|]. split; [constructor|].
      intros p _. now rewrite Hf1. }
  destruct (io_for sizes (make_icon pawn) w1) as [[[]|e2] w2] eqn:E2;
    apply (icon_loop_any pawn sizes icon_paths_NoDup) in E2;
    destruct E2 as (done & Hpre & Hall & Hd2 & Hl2 & Hf2 & Hicons).
  2:{ injection Hrun as <- <-. exists (mk ++ flat_map icon_events done), done.
      split; [rewrite Hl2, Hl1, <- app_assoc; reflexivity|]. split; [exact Hpre|].
      split. { rewrite saved_paths_app, saved_paths_mkdirs, saved_paths_icons by exact Hmk.
               reflexivity. }
      split. { eapply Forall_impl; [exact Hicons|]. intros size (icon & _ & ->). eauto. }
      intros p Hp. rewrite Hf2 by exact Hp. now rewrite Hf1. }
  destruct (write_file manifest_path (json_dump contents) w2) as [[[]|e3] w3] eqn:E3.
  { unfold print in Hrun. discriminate. }
  injection Hrun as <- <-.
  assert (w3 = w2) as ->.
  { unfold write_file in E3. repeat case_match; now injection E3. }
  exists (mk ++ flat_map icon_events done), done.
  split; [rewrite Hl2, Hl1, <- app_assoc; reflexivity|]. split; [exact Hpre|].
  split. { rewrite saved_paths_app, saved_paths_mkdirs, saved_paths_icons by exact Hmk.
           reflexivity. }
  split. { eapply Forall_impl; [exact Hicons|]. intros size (icon & _ & ->). eauto. }
  intros p Hp. rewrite Hf2 by exact Hp. now rewrite Hf1.
Qed.

(** X12. A source file that is there but does not decode makes [main]
    raise the decoder's exception before anything is created: the world
    is as it was, without the output directory and without a log
    line. *)
Theorem undecodable_source_aborts w data e :
  files w !! pawn_path = Some data -> image_decode data = Raise e ->
  main w = (Raise e, w).
Proof.
  intros Hf Hd. unfold main, Image_open, mbind, io_bind, read_file, lift.
  now rewrite Hf, Hd.
Qed.

End Frame.

(** ** Running twice *)

Section Rerun.

Context `{Runtime}.

(** What a write that went through met. *)
Lemma write_file_guard path data w w' :
  write_file path data w = (Ok tt, w') ->
  (path ∉ dirs w) /\ parent_is_file w path = false.
Proof.
  unfold write_file.
  destruct (bool_decide (path ∈ dirs w)) eqn:Hd; [discriminate|].
  destruct (parent_is_file w path); [discriminate|].
  intros _. split; [|reflexivity]. now apply bool_decide_eq_false_1 in Hd.
Qed.

Lemma icon_loop_guard pawn xs :
  forall w w', io_for xs (make_icon pawn) w = (Ok tt, w') ->
    Forall (fun size => icon_path size ∉ dirs w) xs.
Proof.
  induction xs as [|x xs IH]; intros w w' Hrun; simpl in *; [constructor|].
  apply io_bind_inv in Hrun. destruct Hrun as ([] & w1 & H1 & Hrun).
  pose proof H1 as H1'. apply make_icon_inv in H1'. destruct H1' as (icon & _ & ->).
  constructor; [|exact (IH _ _ Hrun)].
  unfold make_icon in H1.
  apply io_bind_inv in H1. destruct H1 as (icon' & w0 & Hl & H1).
  unfold lift in Hl. injection Hl as _ <-.
  apply io_bind_inv in H1. destruct H1 as ([] & w2 & Hw & _).
  now apply write_file_guard in Hw.
Qed.

Lemma pawn_not_output : pawn_path ∉ output_paths.
Proof. apply (bool_decide_unpack _). vm_compute. exact I. Qed.

(** After a complete run the output directory stands, with no file in
    its place and no directory in the place of an output. *)
Lemma main_guard w w' :
  main w = (Ok tt, w') ->
  Forall (fun d => d ∈ dirs w') (ancestors (String.length icon_dir) icon_dir)
  /\ files w' !! icon_dir = None
  /\ Forall (fun p => p ∉ dirs w') output_paths.
Proof.
  unfold main. intros Hrun.
  apply io_bind_inv in Hrun. destruct Hrun as (pawn & w0 & _ & Hrun).
  apply io_bind_inv in Hrun. destruct Hrun as ([] & w1 & Hmk & Hrun).
  apply mkdirs_inv in Hmk. destruct Hmk as (_ & Hd1 & _).
  apply io_bind_inv in Hrun. destruct Hrun as ([] & w2 & Hloop & Hrun).
  pose proof (icon_loop_guard _ _ _ _ Hloop) as Hg.
  apply (icon_loop_inv pawn sizes icon_paths_NoDup) in Hloop.
  destruct Hloop as (Hd2 & _ & _ & _).
  apply io_bind_inv in Hrun. destruct Hrun as ([] & w3 & Hman & Hrun).
  pose proof (write_file_guard _ _ _ _ Hman) as [Hmd Hmf].
  apply write_file_inv in Hman. subst w3.
  unfold print in Hrun. injection Hrun as <-. simpl. rewrite Hd2 in *.
  split. { apply Forall_forall. intros d Hd. apply Hd1. now left. }
  split.
  { destruct manifest_facts as [Hdn Hne]. rewrite lookup_insert_ne by exact Hne.
    unfold parent_is_file in Hmf. rewrite Hdn in Hmf.
    apply bool_decide_eq_false_1 in Hmf.
    destruct (files w2 !! icon_dir) eqn:E; [|reflexivity]. exfalso. apply Hmf. eauto. }
  unfold output_paths. apply Forall_app. split.
  - apply Forall_fmap. exact Hg.
  - now repeat constructor.
Qed.

(** [os.makedirs(..., exist_ok=True)] on directories that exist does
    nothing. *)
Lemma makedirs_noop paths w :
  Forall (fun d => d ∈ dirs w) paths -> io_for paths mkdir_exist_ok w = (Ok tt, w).
Proof.
  induction 1 as [|p ps Hp _ IH]; [reflexivity|]. simpl.
  erewrite io_bind_ok; [exact IH|].
  unfold mkdir_exist_ok. now rewrite bool_decide_eq_true_2.
Qed.

(** X11. [main] can be run again: after a complete run a second run
    completes too, creates no directory (they exist, and
    [exist_ok=True] accepts that), rewrites the eight outputs with the
    same bytes and so leaves every file and directory as the first run
    left them. *)
Theorem rerun_changes_nothing w w' :
  main w = (Ok tt, w') ->
  exists w'',
    main w' = (Ok tt, w'')
    /\ files w'' = files w' /\ dirs w'' = dirs w'
    /\ log w'' = log w' ++ flat_map icon_events sizes
                  ++ [EvSave manifest_path; EvPrint "Done!"].
Proof.
  intros Hrun.
  destruct (main_inv w w' Hrun) as (data & pawn & mk & Hpawn & Hdec & _ & _ & Hman & Hicons & Hfr).
  destruct (main_guard w w' Hrun) as (Hanc & Hnf & Hfree).
  assert (Hpawn' : files w' !! pawn_path = Some data).
  { rewrite Hfr; [exact Hpawn|apply pawn_not_output]. }
  assert (Hdir : icon_dir ∈ dirs w').
  { rewrite icon_dir_ancestors in Hanc. rewrite Forall_forall in Hanc.
    apply Hanc. set_solver. }
  unfold output_paths in Hfree. apply Forall_app in Hfree.
  destruct Hfree as [Hfi Hfm]. apply Forall_cons in Hfm. destruct Hfm as [Hfm _].
  destruct (icon_loop_ok pawn sizes sizes_facts w' Hdir Hnf) as [w2 Eloop].
  { apply Forall_forall. intros size Hin. rewrite Forall_forall in Hfi.
    apply Hfi. apply list_elem_of_fmap. now exists size. }
  pose proof Eloop as Hloop.
  apply (icon_loop_inv pawn sizes icon_paths_NoDup) in Hloop.
  destruct Hloop as (Hd2 & Hl2 & Hf2 & Hicons2).
  destruct manifest_facts as [Hmd Hmne].
  eexists. split.
  { unfold main.
    rewrite (io_bind_ok _ _ w' pawn w').
    2:{ unfold Image_open. rewrite (io_bind_ok _ _ w' data w').
        - unfold lift. now rewrite Hdec.
        - unfold read_file. now rewrite Hpawn'. }
    unfold makedirs. erewrite io_bind_ok by (apply makedirs_noop; exact Hanc).
    erewrite io_bind_ok by exact Eloop.
    erewrite io_bind_ok.
    2:{ eapply write_file_ok; [exact Hmd| | |].
        - rewrite Hd2. exact Hdir.
        - rewrite Hf2; [exact Hnf|]. apply icon_dir_not_icon.
        - rewrite Hd2. exact Hfm. }
    unfold print. reflexivity. }
  cbn [files dirs log]. split; [|split; [exact Hd2|]].
  - apply map_eq. intros p.
    destruct (decide (p = manifest_path)) as [->|Hne].
    { now rewrite lookup_insert_eq, Hman. }
    rewrite lookup_insert_ne by congruence.
    destruct (decide (p ∈ map icon_path sizes)) as [Hin|Hnin].
    + apply list_elem_of_fmap in Hin. destruct Hin as (size & -> & Hin).
      rewrite Forall_forall in Hicons, Hicons2.
      destruct (Hicons size Hin) as (icon & Ei & ->).
      destruct (Hicons2 size Hin) as (icon2 & Ei2 & ->). congruence.
    + now apply Hf2.
  - rewrite Hl2, <- !app_assoc. reflexivity.
Qed.


End Rerun.

(** ** The [radius_ratio] parameter and the first row *)

Section RadiusRatio.




(** The colour of the first row. *)
Lemma row_color_top size : 0 < size -> row_color size 0 = Ok (235, 145, 65, 255).
Proof. intros Hs. destruct size; try lia. reflexivity. Qed.

(** X15. The gradient starts at the base colour: in the bitmap returned
    by [create_rounded_gradient], every opaque pixel of the top row is
    exactly (235, 145, 65, 255), whatever the size. *)
Theorem gradient_top_row size img x p :
  create_rounded_gradient size = Ok img ->
  getpixel img x 0 = Some p -> alpha p = 255 ->
  p = (235, 145, 65, 255).
Proof.
  intros E Hp Ha.
  destruct (gradient_spec size img E)
    as (margin & radius & Hs & _ & _ & _ & _ & Hwf & Hw & Hh & Hpix).
  destruct (getpixel_range img x 0 p Hwf Hp) as [Hx Hy].
  rewrite Hpix in Hp by lia. injection Hp as <-.
  unfold gradient_pixel in *. rewrite row_color_top in * by lia.
  destruct (is_inside size margin radius x 0); [reflexivity|discriminate].
Qed.

End RadiusRatio.

(** ** More examples *)

Section MoreExamples.

#[local] Existing Instance example_runtime.

Lemma gradient_mask_exact_witness :
  exists img, create_rounded_gradient 16 = Ok img /\ 16 <= 2 ^ 26
    /\ exists margin radius,
        (Float.int_mul 16 Float.lit_0_02 ≫= Float.to_int) = Ok margin
        /\ (Float.int_mul 16 Float.lit_0_18 ≫= Float.to_int) = Ok radius
        /\ forall x y, 0 <= x < 16 -> 0 <= y < 16 ->
             alpha <$> getpixel img x y
             = Some (mask_alpha (in_rounded_rect 16 margin radius x y)).
Proof.
  eexists. split; [vm_compute; reflexivity|]. split; [lia|].
  apply (gradient_mask_exact 16); [vm_compute; reflexivity|lia].
Defined.

Lemma gradient_mask_flip_witness :
  exists img, create_rounded_gradient 16 = Ok img
    /\ alpha <$> getpixel img 0 1 = alpha <$> getpixel img 0 (16 - 1 - 1).
Proof.
  eexists. split; [vm_compute; reflexivity|].
  apply (gradient_mask_flip 16); [vm_compute; reflexivity|lia|lia].
Defined.

Lemma gradient_mask_transpose_witness :
  exists img, create_rounded_gradient 16 = Ok img
    /\ alpha <$> getpixel img 0 1 = alpha <$> getpixel img 1 0.
Proof.
  eexists. split; [vm_compute; reflexivity|].
  apply (gradient_mask_transpose 16); [vm_compute; reflexivity|lia|lia].
Defined.

Lemma gradient_cross_opaque_witness :
  exists img, create_rounded_gradient 16 = Ok img
    /\ exists p, getpixel img 8 1 = Some p /\ alpha p = 255 /\ row_color 16 1 = Ok p.
Proof.
  eexists. split; [vm_compute; reflexivity|].
  apply (gradient_cross_opaque 16); [vm_compute; reflexivity|left; lia].
Defined.

Lemma gradient_band_transparent_witness :
  exists img, create_rounded_gradient 100 = Ok img
    /\ alpha <$> getpixel img 37 0 = Some 0.
Proof.
  eexists. split; [vm_compute; reflexivity|].
  apply (gradient_band_transparent 100); [vm_compute; reflexivity|lia|lia|vm_compute; discriminate].
Defined.

Lemma pawn_box_bounds_witness :
  exists icon, create_icon 16 example_pawn = Ok icon
    /\ exists pawn_size,
        (Float.int_mul 16 Float.lit_0_7 ≫= Float.to_int) = Ok pawn_size
        /\ 7 * 16 - 10 <= 10 * pawn_size <= 7 * 16
        /\ 3 * 16 - 10 <= 20 * ((16 - pawn_size) `div` 2) <= 3 * 16 + 10.
Proof.
  eexists. split; [vm_compute; reflexivity|].
  eapply (pawn_box_bounds 16 example_pawn). vm_compute. reflexivity.
Defined.

Lemma icon_keeps_transparent_pixels_witness :
  exists icon bg,
    create_icon 16 example_pawn = Ok icon
    /\ create_rounded_gradient 16 = Ok bg
    /\ getpixel bg 1 0 = Some transparent /\ alpha transparent = 0
    /\ getpixel icon 1 0 = Some transparent.
Proof.
  eexists. eexists. split; [vm_compute; reflexivity|].
  split; [vm_compute; reflexivity|]. split; [vm_compute; reflexivity|].
  split; [reflexivity|].
  eapply (icon_keeps_transparent_pixels 16 example_pawn); vm_compute; reflexivity.
Defined.

Lemma run_is_confined_witness :
  exists w', main example_world = (Ok tt, w')
    /\ confined output_paths (ancestors (String.length icon_dir) icon_dir)
                example_world w'.
Proof.
  destruct example_run as [w' E]. exists w'. split; [exact E|].
  exact (run_is_confined example_world (Ok tt) w' E).
Defined.

Lemma failed_run_is_partial_witness :
  exists e w', main blocked_world = (Raise e, w')
    /\ exists new done,
        log w' = log blocked_world ++ new
        /\ done `prefix_of` sizes
        /\ saved_paths new = map icon_path done
        /\ Forall (fun size => is_Some (files w' !! icon_path size)) done
        /\ (forall p, p ∉ map icon_path done -> files w' !! p = files blocked_world !! p)
        /\ files w' !! manifest_path = files blocked_world !! manifest_path.
Proof.
  eexists. eexists. split; [vm_compute; reflexivity|].
  eapply failed_run_is_partial. vm_compute. reflexivity.
Defined.

Lemma rerun_changes_nothing_witness :
  exists w', main example_world = (Ok tt, w')
    /\ exists w'',
        main w' = (Ok tt, w'')
        /\ files w'' = files w' /\ dirs w'' = dirs w'
        /\ log w'' = log w' ++ flat_map icon_events sizes
                      ++ [EvSave manifest_path; EvPrint "Done!"].
Proof.
  destruct example_run as [w' E]. exists w'. split; [exact E|].
  apply (rerun_changes_nothing example_world w' E).
Defined.

Lemma undecodable_source_aborts_witness :
  files corrupt_world !! pawn_path = Some [Byte.x00]
  /\ @image_decode picky_runtime [Byte.x00] = Raise UnidentifiedImageError
  /\ @main picky_runtime corrupt_world = (Raise UnidentifiedImageError, corrupt_world).
Proof.
  split; [vm_compute; reflexivity|]. split; [reflexivity|].
  apply (@undecodable_source_aborts picky_runtime corrupt_world [Byte.x00]);
    vm_compute; reflexivity.
Defined.




Lemma gradient_top_row_witness :
  exists img, create_rounded_gradient 16 = Ok img
    /\ getpixel img 8 0 = Some (235, 145, 65, 255)
    /\ alpha (235, 145, 65, 255) = 255
    /\ (235, 145, 65, 255) = (235, 145, 65, 255).
Proof.
  eexists. split; [vm_compute; reflexivity|]. split; [vm_compute; reflexivity|].
  split; [reflexivity|].
  eapply (gradient_top_row 16 _ 8); vm_compute; reflexivity.
Defined.

End MoreExamples.
